(** * PintOS threads: scheduler, semaphores, locks with priority donation,
      condition variables

    A shallow embedding of [src/threads/thread.c] and [src/threads/synch.c].

    The kernel is one record ([kernel]) holding what the C code keeps in
    memory: the thread structures, the locks, the semaphores, the condition
    variables, the ready list and the running thread.  Every C function is a
    function from [kernel] to [outcome kernel]; a failed [ASSERT] or a null
    dereference is the result [Panic], a recursion that never returns is
    [Diverge].

    Threads are suspended in the middle of C functions ([thread_block] and
    [thread_yield] call [schedule]).  What a suspended thread still has to
    run is kept, as a list of instructions, in the [stack] field of its
    thread structure (the C code keeps it on the thread's kernel stack, behind
    the saved stack pointer).  [step] runs the next instruction of the running
    thread.  The interrupt flag of the processor is not part of [kernel]:
    each instruction is one section of code that the C source runs with
    interrupts off, or that it runs under the protection of a lock, and a
    function puts the flag back as it found it before it returns.  The one
    function that a caller may reach with the flag either way and that tests
    it, [thread_block], is handed the level as an argument. *)

From Stdlib Require Import ZArith List Bool Arith Lia.
Import ListNotations.
Local Open Scope Z_scope.

(** ** Results of kernel code *)

Inductive panic : Type :=
| ASSERT_not_intr_context     (* ASSERT (!intr_context ()) *)
| ASSERT_intr_off             (* ASSERT (intr_get_level () == INTR_OFF) in thread_block *)
| ASSERT_thread_running       (* ASSERT (t->status == THREAD_RUNNING) in thread_current *)
| ASSERT_thread_blocked       (* ASSERT (t->status == THREAD_BLOCKED) in thread_unblock *)
| ASSERT_cur_not_running      (* ASSERT (cur->status != THREAD_RUNNING) in schedule *)
| ASSERT_is_thread            (* ASSERT (is_thread (next)) in schedule *)
| ASSERT_lock_held            (* ASSERT (lock_held_by_current_thread (lock)) *)
| ASSERT_lock_not_held        (* ASSERT (!lock_held_by_current_thread (lock)) *)
| ASSERT_priority_range       (* ASSERT (PRI_MIN <= priority && priority <= PRI_MAX) *)
| ASSERT_list_not_empty       (* ASSERT (!list_empty (list)) in list_front, list_pop_front *)
| NULL_dereference.           (* access through a null pointer *)

Inductive outcome (A : Type) : Type :=
| Ok (a : A)
| Panic (why : panic)
| Diverge.

Arguments Ok {A} a.
Arguments Panic {A} why.
Arguments Diverge {A}.

Definition bind {A B : Type} (m : outcome A) (f : A -> outcome B) : outcome B :=
  match m with
  | Ok a => f a
  | Panic w => Panic w
  | Diverge => Diverge
  end.

Notation "x <- m ;; f" := (bind m (fun x => f))
  (at level 61, m at next level, right associativity).

Definition assert (b : bool) (w : panic) : outcome unit :=
  if b then Ok tt else Panic w.

(** ** The kernel list library

    [lib/kernel/list.c] is not among the sources.  A list of the kernel is
    represented by the list of the structures its elements are embedded in
    (thread ids for [elem], lock ids for [lock_list_elem], the owner of the
    [struct semaphore_elem] for a condition's waiters), front first. *)
Module Klist.

(** Modelled from the spec: [list_empty] of lib/kernel/list.c, which is
    missing; "the waiter list is non-empty". *)
Definition list_empty {A : Type} (l : list A) : bool :=
  match l with [] => true | _ :: _ => false end.

(** Modelled from the spec: [list_push_back] of lib/kernel/list.c, which is
    missing; "append the current thread to waiters", "places the current
    thread at the tail of the ready list". *)
Definition list_push_back {A : Type} (l : list A) (e : A) : list A := l ++ [e].

(** Modelled from the spec: [list_push_front] of lib/kernel/list.c, which is
    missing; "push the lock onto the caller's held_locks". *)
Definition list_push_front {A : Type} (l : list A) (e : A) : list A := e :: l.

(** Modelled from the spec: [list_remove] of lib/kernel/list.c, which is
    missing; "remove" the element from the list it is in.  An element is
    named by the structure that embeds it. *)
Fixpoint list_remove (e : nat) (l : list nat) : list nat :=
  match l with
  | [] => []
  | x :: l' => if Nat.eqb x e then l' else x :: list_remove e l'
  end.

(** Modelled from the spec: [list_front] of lib/kernel/list.c, which is
    missing; "the single thread at the head of each waiter's semaphore's
    waiter list". *)
Definition list_front {A : Type} (l : list A) : outcome A :=
  match l with
  | [] => Panic ASSERT_list_not_empty
  | x :: _ => Ok x
  end.

(** Modelled from the spec: [list_pop_front] of lib/kernel/list.c, which is
    missing; "the front waiter" is taken off the list. *)
Definition list_pop_front {A : Type} (l : list A) : outcome (A * list A) :=
  match l with
  | [] => Panic ASSERT_list_not_empty
  | x :: l' => Ok (x, l')
  end.

(** Modelled from the spec: the scan of [list_max] of lib/kernel/list.c,
    which is missing; "scans it ... the entry with maximum effective
    priority.  Ties are broken by list position (the most recently inserted
    candidate wins under the scanning order".  Insertion is at the back, so
    a later element replaces the candidate unless it is strictly less. *)
Fixpoint list_max_from {A : Type} (less : A -> A -> bool) (max : A) (l : list A) : A :=
  match l with
  | [] => max
  | e :: l' => list_max_from less (if less e max then max else e) l'
  end.

(** Modelled from the spec: [list_max] of lib/kernel/list.c, which is
    missing (see [list_max_from]); [None] stands for the list's end, which is
    what an empty list gives. *)
Definition list_max {A : Type} (less : A -> A -> bool) (l : list A) : option A :=
  match l with
  | [] => None
  | x :: l' => Some (list_max_from less x l')
  end.

(** Modelled from the spec: the insertion step of [list_sort] of
    lib/kernel/list.c, which is missing.  [e] goes before the first element
    that is not strictly less than it. *)
Fixpoint sorted_insert {A : Type} (less : A -> A -> outcome bool) (e : A) (l : list A)
  : outcome (list A) :=
  match l with
  | [] => Ok [e]
  | x :: l' =>
      b <- less x e ;;
      if b then r <- sorted_insert less e l' ;; Ok (x :: r)
      else Ok (e :: x :: l')
  end.

(** Modelled from the spec: [list_sort] of lib/kernel/list.c, which is
    missing; "re-sort the list by ... priority".  Elements that compare equal
    keep their order.  The comparison function may fail an assertion. *)
Fixpoint list_sort {A : Type} (less : A -> A -> outcome bool) (l : list A)
  : outcome (list A) :=
  match l with
  | [] => Ok []
  | x :: l' => s <- list_sort less l' ;; sorted_insert less x s
  end.

(** Modelled from the spec: [list_insert] of lib/kernel/list.c, which is
    missing, at a given place of the list. *)
Definition list_insert_at {A : Type} (pos : nat) (l : list A) (e : A) : list A :=
  firstn pos l ++ e :: skipn pos l.

End Klist.
Import Klist.

(** ** threads/thread.h, threads/synch.h: the data *)

Inductive thread_status : Type :=
| THREAD_RUNNING
| THREAD_READY
| THREAD_BLOCKED
| THREAD_DYING.

Definition thread_status_eqb (a b : thread_status) : bool :=
  match a, b with
  | THREAD_RUNNING, THREAD_RUNNING
  | THREAD_READY, THREAD_READY
  | THREAD_BLOCKED, THREAD_BLOCKED
  | THREAD_DYING, THREAD_DYING => true
  | _, _ => false
  end.

Definition PRI_MIN : Z := 0.
Definition PRI_DEFAULT : Z := 31.
Definition PRI_MAX : Z := 63.

(** What a thread runs: the calls of the public interface, and the places
    inside [lock_acquire], [cond_wait], [cond_signal], [cond_broadcast] and
    [idle] where a suspended thread takes up its work again. *)
Inductive instr : Type :=
| ISemaDown (s : nat)            (* sema_down (&s) *)
| ISemaTryDown (s : nat)         (* sema_try_down (&s) *)
| ISemaUp (s : nat)              (* sema_up (&s) *)
| ILockAcquire (l : nat)         (* lock_acquire (&l) *)
| ILockTryAcquire (l : nat)      (* lock_try_acquire (&l) *)
| ILockRelease (l : nat)         (* lock_release (&l) *)
| ICondWait (c l : nat) (pos : nat) (* cond_wait (&c, &l) *)
| ICondSignal (c l : nat)        (* cond_signal (&c, &l) *)
| ICondBroadcast (c l : nat)     (* cond_broadcast (&c, &l) *)
| ISetPriority (p : Z)           (* thread_set_priority (p) *)
| IYield                         (* thread_yield () *)
| ILockWait (l : nat)            (* lock_acquire from its sema_down on *)
| IWaiterDown                    (* cond_wait: sema_down (&waiter.semaphore) *)
| IIdle.                         (* the loop of idle () *)

(** struct thread.  [tid], [name], [allelem], [wake_up_time] and [magic]
    play no part in the functions below.  [stack] is the saved context. *)
Record thread : Type := mkThread {
  status : thread_status;
  priority : Z;
  donation_priority : Z;
  lock_list : list nat;
  thread_lock : option nat;
  stack : list instr
}.

(** struct semaphore.  [value] is an [unsigned]. *)
Record semaphore : Type := mkSemaphore {
  value : Z;
  waiters : list nat
}.

Definition UINT_MODULUS : Z := 2 ^ 32.

(** struct lock.  The C fields [semaphore] and [priority] are
    [lock_semaphore] and [lock_priority] here. *)
Record lock : Type := mkLock {
  holder : option nat;
  lock_semaphore : semaphore;
  lock_priority : Z
}.

(** A [struct semaphore *]: the semaphore of a lock, a semaphore of its own,
    or the semaphore of the [struct semaphore_elem waiter] that thread [t]
    has on its stack inside [cond_wait]. *)
Inductive sema_ptr : Type :=
| LockSema (l : nat)
| PlainSema (s : nat)
| WaiterSema (t : nat).

(** Calls recorded as they happen (most recent first). *)
Inductive event : Type :=
| EvUnblock (t : nat)     (* thread_unblock (t) *)
| EvYield (t : nat).      (* thread_yield () by t *)

(** The memory of the kernel.  [conds c] is the waiter list of
    [struct condition] c, each [struct semaphore_elem] named by the thread
    whose stack holds it. *)
Record kernel : Type := mkKernel {
  threads : nat -> thread;
  locks : nat -> lock;
  semas : nat -> semaphore;
  waiter_sema : nat -> semaphore;
  conds : nat -> list nat;
  ready_list : list nat;
  running : nat;                 (* running_thread () *)
  idle_thread : option nat;
  intr_context : bool;           (* intr_context () *)
  trace : list event
}.

(** *** Stores *)

Definition upd {A : Type} (f : nat -> A) (i : nat) (v : A) : nat -> A :=
  fun j => if Nat.eqb j i then v else f j.

Definition set_threads (k : kernel) (v : nat -> thread) : kernel :=
  mkKernel v (locks k) (semas k) (waiter_sema k) (conds k) (ready_list k)
           (running k) (idle_thread k) (intr_context k) (trace k).

Definition set_locks (k : kernel) (v : nat -> lock) : kernel :=
  mkKernel (threads k) v (semas k) (waiter_sema k) (conds k) (ready_list k)
           (running k) (idle_thread k) (intr_context k) (trace k).

Definition set_semas (k : kernel) (v : nat -> semaphore) : kernel :=
  mkKernel (threads k) (locks k) v (waiter_sema k) (conds k) (ready_list k)
           (running k) (idle_thread k) (intr_context k) (trace k).

Definition set_waiter_sema (k : kernel) (v : nat -> semaphore) : kernel :=
  mkKernel (threads k) (locks k) (semas k) v (conds k) (ready_list k)
           (running k) (idle_thread k) (intr_context k) (trace k).

Definition set_conds (k : kernel) (v : nat -> list nat) : kernel :=
  mkKernel (threads k) (locks k) (semas k) (waiter_sema k) v (ready_list k)
           (running k) (idle_thread k) (intr_context k) (trace k).

Definition set_ready_list (k : kernel) (v : list nat) : kernel :=
  mkKernel (threads k) (locks k) (semas k) (waiter_sema k) (conds k) v
           (running k) (idle_thread k) (intr_context k) (trace k).

Definition set_running (k : kernel) (v : nat) : kernel :=
  mkKernel (threads k) (locks k) (semas k) (waiter_sema k) (conds k) (ready_list k)
           v (idle_thread k) (intr_context k) (trace k).

Definition log (e : event) (k : kernel) : kernel :=
  mkKernel (threads k) (locks k) (semas k) (waiter_sema k) (conds k) (ready_list k)
           (running k) (idle_thread k) (intr_context k) (e :: trace k).

Definition set_status (k : kernel) (t : nat) (v : thread_status) : kernel :=
  let th := threads k t in
  set_threads k (upd (threads k) t
    (mkThread v (priority th) (donation_priority th) (lock_list th) (thread_lock th) (stack th))).

Definition set_priority (k : kernel) (t : nat) (v : Z) : kernel :=
  let th := threads k t in
  set_threads k (upd (threads k) t
    (mkThread (status th) v (donation_priority th) (lock_list th) (thread_lock th) (stack th))).

Definition set_donation_priority (k : kernel) (t : nat) (v : Z) : kernel :=
  let th := threads k t in
  set_threads k (upd (threads k) t
    (mkThread (status th) (priority th) v (lock_list th) (thread_lock th) (stack th))).

Definition set_lock_list (k : kernel) (t : nat) (v : list nat) : kernel :=
  let th := threads k t in
  set_threads k (upd (threads k) t
    (mkThread (status th) (priority th) (donation_priority th) v (thread_lock th) (stack th))).

Definition set_thread_lock (k : kernel) (t : nat) (v : option nat) : kernel :=
  let th := threads k t in
  set_threads k (upd (threads k) t
    (mkThread (status th) (priority th) (donation_priority th) (lock_list th) v (stack th))).

Definition set_stack (k : kernel) (t : nat) (v : list instr) : kernel :=
  let th := threads k t in
  set_threads k (upd (threads k) t
    (mkThread (status th) (priority th) (donation_priority th) (lock_list th) (thread_lock th) v)).

Definition set_holder (k : kernel) (l : nat) (v : option nat) : kernel :=
  let lk := locks k l in
  set_locks k (upd (locks k) l (mkLock v (lock_semaphore lk) (lock_priority lk))).

Definition set_lock_priority (k : kernel) (l : nat) (v : Z) : kernel :=
  let lk := locks k l in
  set_locks k (upd (locks k) l (mkLock (holder lk) (lock_semaphore lk) v)).

Definition get_sema (k : kernel) (p : sema_ptr) : semaphore :=
  match p with
  | LockSema l => lock_semaphore (locks k l)
  | PlainSema s => semas k s
  | WaiterSema t => waiter_sema k t
  end.

Definition set_sema (k : kernel) (p : sema_ptr) (v : semaphore) : kernel :=
  match p with
  | LockSema l =>
      let lk := locks k l in
      set_locks k (upd (locks k) l (mkLock (holder lk) v (lock_priority lk)))
  | PlainSema s => set_semas k (upd (semas k) s v)
  | WaiterSema t => set_waiter_sema k (upd (waiter_sema k) t v)
  end.

(** ** threads/thread.c *)

(** thread_current *)
Definition thread_current (k : kernel) : outcome nat :=
  let t := running k in
  _ <- assert (thread_status_eqb (status (threads k t)) THREAD_RUNNING)
              ASSERT_thread_running ;;
  Ok t.

(** priority_compare *)
Definition priority_compare (t1 t2 : thread) : bool :=
  let t1_priority :=
    if priority t1 >? donation_priority t1 then priority t1 else donation_priority t1 in
  let t2_priority :=
    if priority t2 >? donation_priority t2 then priority t2 else donation_priority t2 in
  t1_priority <? t2_priority.

(** thread_priority_compare: the list elements are the [elem] fields of
    two thread structures. *)
Definition thread_priority_compare (k : kernel) (elem_a elem_b : nat) : bool :=
  priority_compare (threads k elem_a) (threads k elem_b).

(** next_thread_to_run: the thread chosen (null when [idle_thread] is null)
    and the kernel with the ready list updated. *)
Definition next_thread_to_run (k : kernel) : option nat * kernel :=
  if list_empty (ready_list k) then (idle_thread k, k)
  else
    match list_max (thread_priority_compare k) (ready_list k) with
    | Some max_thread =>
        (Some max_thread, set_ready_list k (list_remove max_thread (ready_list k)))
    | None => (None, k)
    end.

(** thread_schedule_tail, for the thread that has just been switched to.
    Freeing the page of a dying thread is not represented.  It is called by
    [schedule] alone, where its ASSERT (intr_get_level () == INTR_OFF)
    holds. *)
Definition thread_schedule_tail (k : kernel) : kernel :=
  set_status k (running k) THREAD_RUNNING.

(** schedule.  [switch_threads (cur, next)] makes [next] the running
    thread; [next] goes on from its saved [stack].  The function is static
    and has three callers: [thread_block], which has just asserted that
    interrupts are off, and [thread_yield] and [thread_exit], which have just
    called [intr_disable]; so its ASSERT (intr_get_level () == INTR_OFF)
    holds at every call. *)
Definition schedule (k : kernel) : outcome kernel :=
  let cur := running k in
  let (next, k1) := next_thread_to_run k in
  _ <- assert (negb (thread_status_eqb (status (threads k1 cur)) THREAD_RUNNING))
              ASSERT_cur_not_running ;;
  match next with
  | None => Panic ASSERT_is_thread
  | Some n => Ok (thread_schedule_tail (set_running k1 n))
  end.

(** enum intr_level *)
Inductive intr_level : Type :=
| INTR_OFF
| INTR_ON.

Definition intr_level_eqb (a b : intr_level) : bool :=
  match a, b with
  | INTR_OFF, INTR_OFF | INTR_ON, INTR_ON => true
  | _, _ => false
  end.

(** thread_block.  [level] is what [intr_get_level ()] returns at the
    call. *)
Definition thread_block (level : intr_level) (k : kernel) : outcome kernel :=
  _ <- assert (negb (intr_context k)) ASSERT_not_intr_context ;;
  _ <- assert (intr_level_eqb level INTR_OFF) ASSERT_intr_off ;;
  cur <- thread_current k ;;
  schedule (set_status k cur THREAD_BLOCKED).

(** thread_unblock *)
Definition thread_unblock (t : nat) (k : kernel) : outcome kernel :=
  _ <- assert (thread_status_eqb (status (threads k t)) THREAD_BLOCKED)
              ASSERT_thread_blocked ;;
  let k1 := set_ready_list k (list_push_back (ready_list k) t) in
  Ok (log (EvUnblock t) (set_status k1 t THREAD_READY)).

(** thread_yield *)
Definition thread_yield (k : kernel) : outcome kernel :=
  cur <- thread_current k ;;
  _ <- assert (negb (intr_context k)) ASSERT_not_intr_context ;;
  let k1 :=
    match idle_thread k with
    | Some i => if Nat.eqb cur i then k
                else set_ready_list k (list_push_back (ready_list k) cur)
    | None => set_ready_list k (list_push_back (ready_list k) cur)
    end in
  schedule (log (EvYield cur) (set_status k1 cur THREAD_READY)).

(** thread_exit.  The all-threads list is not represented. *)
Definition thread_exit (k : kernel) : outcome kernel :=
  _ <- assert (negb (intr_context k)) ASSERT_not_intr_context ;;
  cur <- thread_current k ;;
  schedule (set_status k cur THREAD_DYING).

(** thread_set_priority *)
Definition thread_set_priority (new_priority : Z) (k : kernel) : outcome kernel :=
  cur <- thread_current k ;;
  thread_yield (set_priority k cur new_priority).

(** thread_get_priority *)
Definition thread_get_priority (k : kernel) : outcome Z :=
  t <- thread_current k ;;
  let th := threads k t in
  Ok (if donation_priority th >? priority th then donation_priority th else priority th).

(** The effective priority of a thread structure, as [thread_get_priority]
    computes it for the running thread. *)
Definition effective_priority (th : thread) : Z :=
  if donation_priority th >? priority th then donation_priority th else priority th.

(** The body of the loop of idle (): intr_disable (); thread_block ().
    The loop is taken up again when the idle thread is next scheduled. *)
Definition idle (k : kernel) : outcome kernel :=
  cur <- thread_current k ;;
  thread_block INTR_OFF (set_stack k cur (IIdle :: stack (threads k cur))).

(** init_thread, for the fields kept here.  [all_list] is the list of all
    threads, which no other function represented here reads: it is handed in,
    and given back with the thread at its end.  What the thread will run is
    put on its stack by thread_create, which is not represented: [stack] is
    left as it is. *)
Definition init_thread (t : nat) (prio : Z) (all_list : list nat) (k : kernel)
  : outcome (list nat * kernel) :=
  _ <- assert ((PRI_MIN <=? prio) && (prio <=? PRI_MAX)) ASSERT_priority_range ;;
  let k1 := set_threads k (upd (threads k) t
              (mkThread THREAD_BLOCKED prio PRI_MIN [] None (stack (threads k t)))) in
  Ok (list_push_back all_list t, k1).

(** ** threads/synch.c: semaphores *)

(** sema_init *)
Definition sema_init (sema : sema_ptr) (v : Z) (k : kernel) : kernel :=
  set_sema k sema (mkSemaphore v []).

(** sema_down.  The function has called [intr_disable] when it reaches
    [thread_block].  When the value is 0 the thread is appended to the waiters
    and blocks; it is then inside the [while] loop, and [again] is the
    instruction that takes the loop up when [thread_block] returns.  The
    result is [false] when the thread was suspended, and [true] when the
    function returned, the value decremented. *)
Definition sema_down (sema : sema_ptr) (again : instr) (k : kernel)
  : outcome (bool * kernel) :=
  _ <- assert (negb (intr_context k)) ASSERT_not_intr_context ;;
  curr_thread <- thread_current k ;;
  let s := get_sema k sema in
  if value s =? 0 then
    let k1 := set_sema k sema
                (mkSemaphore (value s) (list_push_back (waiters s) curr_thread)) in
    let k2 := set_stack k1 curr_thread (again :: stack (threads k1 curr_thread)) in
    k3 <- thread_block INTR_OFF k2 ;;
    Ok (false, k3)
  else
    Ok (true, set_sema k sema (mkSemaphore ((value s - 1) mod UINT_MODULUS) (waiters s))).

(** sema_try_down *)
Definition sema_try_down (sema : sema_ptr) (k : kernel) : bool * kernel :=
  let s := get_sema k sema in
  if value s >? 0 then
    (true, set_sema k sema (mkSemaphore ((value s - 1) mod UINT_MODULUS) (waiters s)))
  else (false, k).

(** The first half of sema_up: the waiter of highest priority, if there is
    a waiter, is taken off the list and unblocked. *)
Definition sema_up_wake (sema : sema_ptr) (k : kernel) : outcome kernel :=
  let s := get_sema k sema in
  if negb (list_empty (waiters s)) then
    match list_max (thread_priority_compare k) (waiters s) with
    | Some max_priority_thread =>
        thread_unblock max_priority_thread
          (set_sema k sema
             (mkSemaphore (value s) (list_remove max_priority_thread (waiters s))))
    | None => Ok k
    end
  else Ok k.

(** sema_up up to the end of its section with interrupts off: the wake-up,
    then [sema->value++]. *)
Definition sema_up_critical (sema : sema_ptr) (k : kernel) : outcome kernel :=
  k1 <- sema_up_wake sema k ;;
  let s := get_sema k1 sema in
  Ok (set_sema k1 sema (mkSemaphore ((value s + 1) mod UINT_MODULUS) (waiters s))).

(** sema_up *)
Definition sema_up (sema : sema_ptr) (k : kernel) : outcome kernel :=
  k2 <- sema_up_critical sema k ;;
  if negb (intr_context k2) then thread_yield k2 else Ok k2.

(** ** threads/synch.c: locks *)

(** lock_init *)
Definition lock_init (l : nat) (k : kernel) : kernel :=
  let k1 := set_holder k l None in
  let k2 := sema_init (LockSema l) 1 k1 in
  set_lock_priority k2 l PRI_MIN.

(** donate_priority_recursively.  The C function calls itself until it is
    handed a null lock; [fuel] bounds the number of calls here, and
    [Diverge] is the answer when the bound is reached. *)
Fixpoint donate_priority_recursively (fuel : nat) (lock : option nat) (prio : Z)
    (k : kernel) : outcome kernel :=
  match lock with
  | None => Ok k
  | Some l =>
      match fuel with
      | O => Diverge
      | S fuel' =>
          let lk := locks k l in
          let k1 := set_lock_priority k l
                      (if lock_priority lk >? prio then lock_priority lk else prio) in
          match holder (locks k1 l) with
          | None => Panic NULL_dereference
          | Some h =>
              let th := threads k1 h in
              let k2 := set_donation_priority k1 h
                          (if donation_priority th >? prio
                           then donation_priority th else prio) in
              donate_priority_recursively fuel' (thread_lock (threads k2 h)) prio k2
          end
      end
  end.

(** lock_held_by_current_thread *)
Definition lock_held_by_current_thread (l : nat) (k : kernel) : outcome bool :=
  cur <- thread_current k ;;
  Ok (match holder (locks k l) with
      | Some h => Nat.eqb h cur
      | None => false
      end).

(** lock_try_acquire *)
Definition lock_try_acquire (l : nat) (k : kernel) : outcome (bool * kernel) :=
  held <- lock_held_by_current_thread l k ;;
  _ <- assert (negb held) ASSERT_lock_not_held ;;
  current_thread <- thread_current k ;;
  let (success, k1) := sema_try_down (LockSema l) k in
  if success then
    let k2 := set_holder k1 l (Some current_thread) in
    Ok (true, set_lock_list k2 current_thread
                (list_push_front (lock_list (threads k2 current_thread)) l))
  else Ok (false, k1).

(** lock_acquire from [sema_down (&lock->semaphore)] on.  A thread that was
    suspended in that call goes on from here. *)
Definition lock_acquire_wait (l : nat) (k : kernel) : outcome kernel :=
  let current_thread := running k in
  r <- sema_down (LockSema l) (ILockWait l) k ;;
  let (returned, k1) := r in
  if returned then
    let k2 := set_holder k1 l (Some current_thread) in
    let k3 := set_thread_lock k2 current_thread None in
    Ok (set_lock_list k3 current_thread
          (list_push_front (lock_list (threads k3 current_thread)) l))
  else Ok k1.

(** lock_acquire *)
Definition lock_acquire (fuel : nat) (l : nat) (k : kernel) : outcome kernel :=
  _ <- assert (negb (intr_context k)) ASSERT_not_intr_context ;;
  held <- lock_held_by_current_thread l k ;;
  _ <- assert (negb held) ASSERT_lock_not_held ;;
  current_thread <- thread_current k ;;
  let th := threads k current_thread in
  let current_priority :=
    if donation_priority th >? priority th then donation_priority th else priority th in
  r <- lock_try_acquire l k ;;
  let (success, k1) := r in
  if success then Ok k1
  else
    k2 <- donate_priority_recursively fuel (Some l) current_priority k1 ;;
    let k3 := set_thread_lock k2 current_thread (Some l) in
    lock_acquire_wait l k3.

(** The [for] loop of lock_release over the locks held, [held] being what
    is left of the list to visit.  The element that is removed is left
    behind and the walk goes on with the one that followed it. *)
Fixpoint lock_release_loop (l : nat) (current_thread : nat) (held : list nat)
    (k : kernel) : kernel :=
  match held with
  | [] => k
  | held_lock :: rest =>
      if Nat.eqb l held_lock then
        let k1 := set_lock_list k current_thread
                    (list_remove held_lock (lock_list (threads k current_thread))) in
        let k2 := set_holder k1 l None in
        let k3 := set_lock_priority k2 l PRI_MIN in
        lock_release_loop l current_thread rest k3
      else
        let th := threads k current_thread in
        let hp := lock_priority (locks k held_lock) in
        let k1 := set_donation_priority k current_thread
                    (if donation_priority th >? hp then donation_priority th else hp) in
        lock_release_loop l current_thread rest k1
  end.

(** lock_release up to [sema_up (&lock->semaphore)]. *)
Definition lock_release_critical (l : nat) (k : kernel) : outcome kernel :=
  held <- lock_held_by_current_thread l k ;;
  _ <- assert held ASSERT_lock_held ;;
  current_thread <- thread_current k ;;
  let k1 := set_donation_priority k current_thread PRI_MIN in
  Ok (lock_release_loop l current_thread (lock_list (threads k1 current_thread)) k1).

(** lock_release *)
Definition lock_release (l : nat) (k : kernel) : outcome kernel :=
  k1 <- lock_release_critical l k ;;
  sema_up (LockSema l) k1.

(** ** threads/synch.c: condition variables *)

(** cond_init *)
Definition cond_init (c : nat) (k : kernel) : kernel :=
  set_conds k (upd (conds k) c []).

(** cond_wait.  [list_insert_ordered] is handed [thread_priority_compare],
    which reads each [struct semaphore_elem] as if it were the [elem] of a
    thread structure; what it reads lies in the stacks of the waiting
    threads, outside what is represented, so the place the waiter gets in
    the list is the argument [pos].  After [lock_release] the thread still
    has to run [sema_down (&waiter.semaphore)] and [lock_acquire (lock)]. *)
Definition cond_wait (c l : nat) (pos : nat) (k : kernel) : outcome kernel :=
  _ <- assert (negb (intr_context k)) ASSERT_not_intr_context ;;
  held <- lock_held_by_current_thread l k ;;
  _ <- assert held ASSERT_lock_held ;;
  cur <- thread_current k ;;
  let k1 := sema_init (WaiterSema cur) 0 k in
  let k2 := set_conds k1 (upd (conds k1) c (list_insert_at pos (conds k1 c) cur)) in
  let k3 := set_stack k2 cur (IWaiterDown :: ILockAcquire l :: stack (threads k2 cur)) in
  lock_release l k3.

(** cond_priority_cmp *)
Definition cond_priority_cmp (k : kernel) (a b : nat) : outcome bool :=
  ta <- list_front (waiters (waiter_sema k a)) ;;
  tb <- list_front (waiters (waiter_sema k b)) ;;
  Ok (priority (threads k ta) >? priority (threads k tb)).

(** cond_signal.  When there is a waiter, the final
    [if (!intr_context ()) thread_yield ()] is run after [sema_up] has
    returned, that is after the yield inside [sema_up]: it is left on the
    stack as [IYield] (the assertion at the top has already excluded an
    interrupt context). *)
Definition cond_signal (c l : nat) (k : kernel) : outcome kernel :=
  _ <- assert (negb (intr_context k)) ASSERT_not_intr_context ;;
  held <- lock_held_by_current_thread l k ;;
  _ <- assert held ASSERT_lock_held ;;
  cur <- thread_current k ;;
  if negb (list_empty (conds k c)) then
    sorted <- list_sort (cond_priority_cmp k) (conds k c) ;;
    r <- list_pop_front sorted ;;
    let (w, rest) := r in
    let k1 := set_conds k (upd (conds k) c rest) in
    let k2 := set_stack k1 cur (IYield :: stack (threads k1 cur)) in
    sema_up (WaiterSema w) k2
  else
    if negb (intr_context k) then thread_yield k else Ok k.

(** cond_broadcast: one turn of its [while] loop; the loop is taken up
    again when [cond_signal] has returned. *)
Definition cond_broadcast (c l : nat) (k : kernel) : outcome kernel :=
  if negb (list_empty (conds k c)) then
    let cur := running k in
    cond_signal c l (set_stack k cur (ICondBroadcast c l :: stack (threads k cur)))
  else Ok k.

(** ** Running the threads *)

(** One instruction of the running thread. *)
Definition exec (fuel : nat) (i : instr) (k : kernel) : outcome kernel :=
  match i with
  | ISemaDown s => r <- sema_down (PlainSema s) (ISemaDown s) k ;; Ok (snd r)
  | ISemaTryDown s => Ok (snd (sema_try_down (PlainSema s) k))
  | ISemaUp s => sema_up (PlainSema s) k
  | ILockAcquire l => lock_acquire fuel l k
  | ILockTryAcquire l => r <- lock_try_acquire l k ;; Ok (snd r)
  | ILockRelease l => lock_release l k
  | ICondWait c l pos => cond_wait c l pos k
  | ICondSignal c l => cond_signal c l k
  | ICondBroadcast c l => cond_broadcast c l k
  | ISetPriority p => thread_set_priority p k
  | IYield => thread_yield k
  | ILockWait l => lock_acquire_wait l k
  | IWaiterDown => r <- sema_down (WaiterSema (running k)) IWaiterDown k ;; Ok (snd r)
  | IIdle => idle k
  end.

(** The running thread takes its next instruction off its stack and runs
    it; a thread whose function has returned exits (kernel_thread). *)
Definition step (fuel : nat) (k : kernel) : outcome kernel :=
  cur <- thread_current k ;;
  match stack (threads k cur) with
  | [] => thread_exit k
  | i :: rest => exec fuel i (set_stack k cur rest)
  end.

Fixpoint run (fuel : nat) (n : nat) (k : kernel) : outcome kernel :=
  match n with
  | O => Ok k
  | S n' => k1 <- step fuel k ;; run fuel n' k1
  end.

(** The threads in the order in which [thread_unblock] was called on
    them. *)
Fixpoint unblocked (tr : list event) : list nat :=
  match tr with
  | [] => []
  | EvUnblock t :: tr' => t :: unblocked tr'
  | EvYield _ :: tr' => unblocked tr'
  end.

Definition wake_order (k : kernel) : list nat := rev (unblocked (trace k)).

(** The threads in the order in which they called [thread_yield]. *)
Fixpoint yielded (tr : list event) : list nat :=
  match tr with
  | [] => []
  | EvYield t :: tr' => t :: yielded tr'
  | EvUnblock _ :: tr' => yielded tr'
  end.

(** The largest priority ceiling among the locks [held], and 0 (PRI_MIN)
    when there is none. *)
Definition max_ceiling (k : kernel) (held : list nat) : Z :=
  fold_left (fun acc h => Z.max acc (lock_priority (locks k h))) held PRI_MIN.

(** The locks of [held] other than [l]. *)
Definition remaining_locks (l : nat) (held : list nat) : list nat :=
  filter (fun h => negb (Nat.eqb l h)) held.

(** * Properties *)

(** ** Priorities *)

Lemma effective_priority_max (th : thread) :
  effective_priority th = Z.max (priority th) (donation_priority th).
Proof.
  unfold effective_priority.
  destruct (Z.gtb_spec (donation_priority th) (priority th)); lia.
Qed.

Lemma priority_compare_effective (t1 t2 : thread) :
  priority_compare t1 t2 = (effective_priority t1 <? effective_priority t2).
Proof.
  unfold priority_compare. rewrite !effective_priority_max.
  destruct (Z.gtb_spec (priority t1) (donation_priority t1));
    destruct (Z.gtb_spec (priority t2) (donation_priority t2));
    f_equal; lia.
Qed.

(** ** The list library *)

Section ListMax.
Variable A : Type.
Variable key : A -> Z.

Let less (a b : A) : bool := key a <? key b.

Lemma list_max_from_In (m : A) (l : list A) :
  In (list_max_from less m l) (m :: l).
Proof.
  revert m. induction l as [|e l IH]; intros m; simpl.
  - now left.
  - destruct (IH (if less e m then m else e)) as [H | H].
    + destruct (less e m); [left | right; left]; exact H.
    + right; right; exact H.
Qed.

Lemma list_max_from_ge (m : A) (l : list A) :
  forall x, In x (m :: l) -> key x <= key (list_max_from less m l).
Proof.
  revert m. induction l as [|e l IH]; intros m x Hx; simpl.
  - destruct Hx as [-> | []]. lia.
  - assert (Hm : key m <= key (if less e m then m else e) /\
                 key e <= key (if less e m then m else e)).
    { unfold less. destruct (Z.ltb_spec (key e) (key m)); lia. }
    assert (Hc := IH (if less e m then m else e)
                     (if less e m then m else e) (or_introl eq_refl)).
    destruct Hx as [-> | [-> | Hx]]; [lia | lia |].
    apply IH. now right.
Qed.

(** The scan keeps the candidate only when everything after it is
    strictly smaller; otherwise the result stands in the scanned part,
    with only strictly smaller elements after it. *)
Lemma list_max_from_last (m : A) (l : list A) :
  (list_max_from less m l = m /\ forall x, In x l -> key x < key m) \/
  (exists l1 l2, l = l1 ++ list_max_from less m l :: l2 /\
                 forall x, In x l2 -> key x < key (list_max_from less m l)).
Proof.
  revert m. induction l as [|e l IH]; intros m; simpl.
  - left. split; [reflexivity | intros x []].
  - change (less e m) with (key e <? key m).
    destruct (Z.ltb_spec (key e) (key m)) as [Hlt | Hge].
    + destruct (IH m) as [[Heq Hall] | (l1 & l2 & Hl & Hall)].
      * left. split; [exact Heq |]. intros x [-> | Hx]; [exact Hlt | now apply Hall].
      * right. exists (e :: l1), l2. split; [simpl; now f_equal | exact Hall].
    + destruct (IH e) as [[Heq Hall] | (l1 & l2 & Hl & Hall)].
      * right. exists [], l. rewrite Heq. split; [reflexivity | exact Hall].
      * right. exists (e :: l1), l2. split; [simpl; now f_equal | exact Hall].
Qed.

Lemma list_max_spec (l : list A) (m : A) :
  list_max less l = Some m ->
  exists l1 l2,
    l = l1 ++ m :: l2 /\
    (forall x, In x l1 -> key x <= key m) /\
    (forall x, In x l2 -> key x < key m).
Proof.
  destruct l as [|x l]; simpl; [discriminate |].
  intros H; injection H as <-.
  assert (Hge := list_max_from_ge x l).
  destruct (list_max_from_last x l) as [[Heq Hall] | (l1 & l2 & Hl & Hall)].
  - exists [], l. rewrite Heq. repeat split; [intros y [] | exact Hall].
  - exists (x :: l1), l2. repeat split.
    + simpl. now f_equal.
    + intros y Hy. apply Hge. rewrite Hl at 1.
      destruct Hy as [-> | Hy]; [now left | right; apply in_or_app; now left].
    + exact Hall.
Qed.

Lemma list_max_nonempty (l : list A) :
  l <> [] -> exists m, list_max less l = Some m.
Proof. destruct l; [congruence | intros _; eexists; reflexivity]. Qed.
End ListMax.

Lemma list_max_ext (A : Type) (f g : A -> A -> bool) (l : list A) :
  (forall a b, f a b = g a b) -> list_max f l = list_max g l.
Proof.
  intros E. destruct l as [|x l]; simpl; [reflexivity |]. f_equal.
  revert x. induction l as [|e l IH]; intros x; simpl; [reflexivity |].
  rewrite E. apply IH.
Qed.

Lemma list_remove_In (e x : nat) (l : list nat) :
  In x (list_remove e l) -> In x l.
Proof.
  induction l as [|y l IH]; simpl; [tauto |].
  destruct (Nat.eqb_spec y e); simpl; tauto.
Qed.

Lemma list_remove_not_In (e : nat) (l : list nat) :
  NoDup l -> ~ In e (list_remove e l).
Proof.
  induction 1 as [|y l Hy Hnd IH]; simpl; [tauto |].
  destruct (Nat.eqb_spec y e) as [-> | Hne]; simpl; [exact Hy |].
  intros [H | H]; [congruence | tauto].
Qed.

Lemma list_remove_NoDup (e : nat) (l : list nat) :
  NoDup l -> NoDup (list_remove e l).
Proof.
  induction 1 as [|y l Hy Hnd IH]; simpl; [constructor |].
  destruct (Nat.eqb_spec y e); [exact Hnd |].
  constructor; [| exact IH]. intros H. apply Hy. eapply list_remove_In; eauto.
Qed.

Lemma list_remove_In_other (e x : nat) (l : list nat) :
  x <> e -> In x l -> In x (list_remove e l).
Proof.
  intros Hne. induction l as [|y l IH]; simpl; [tauto |].
  destruct (Nat.eqb_spec y e) as [-> | Hy]; simpl.
  - intros [H | H]; [congruence | exact H].
  - tauto.
Qed.

Lemma list_remove_middle (e : nat) (l1 l2 : list nat) :
  ~ In e l1 -> list_remove e (l1 ++ e :: l2) = l1 ++ l2.
Proof.
  induction l1 as [|y l1 IH]; simpl; intros Hn.
  - now rewrite Nat.eqb_refl.
  - destruct (Nat.eqb_spec y e) as [-> | Hy]; [tauto |].
    f_equal. apply IH. tauto.
Qed.

Lemma list_remove_length (e : nat) (l : list nat) :
  In e l -> S (length (list_remove e l)) = length l.
Proof.
  induction l as [|y l IH]; simpl; [tauto |].
  destruct (Nat.eqb_spec y e) as [-> | Hy]; simpl; [reflexivity |].
  intros [H | H]; [congruence | now rewrite IH].
Qed.

(** ** What the scheduler leaves alone *)

(** The fields of a thread structure other than its status. *)
Definition thread_data (th : thread) : Z * Z * list nat * option nat * list instr :=
  (priority th, donation_priority th, lock_list th, thread_lock th, stack th).

(** [k'] differs from [k] at most in the statuses of threads, the ready
    list, the running thread and the trace. *)
Definition sched_frame (k k' : kernel) : Prop :=
  locks k' = locks k /\ semas k' = semas k /\ waiter_sema k' = waiter_sema k /\
  conds k' = conds k /\ idle_thread k' = idle_thread k /\
  intr_context k' = intr_context k /\
  forall t, thread_data (threads k' t) = thread_data (threads k t).

Lemma sched_frame_refl (k : kernel) : sched_frame k k.
Proof. unfold sched_frame; repeat split; reflexivity. Qed.

Lemma sched_frame_trans (k1 k2 k3 : kernel) :
  sched_frame k1 k2 -> sched_frame k2 k3 -> sched_frame k1 k3.
Proof.
  unfold sched_frame.
  intros (A1 & A2 & A3 & A4 & A5 & A6 & A7) (B1 & B2 & B3 & B4 & B5 & B6 & B7).
  repeat split; try congruence; intros t; rewrite B7; apply A7.
Qed.

Lemma set_status_frame (k : kernel) (t : nat) (v : thread_status) :
  sched_frame k (set_status k t v).
Proof.
  unfold sched_frame, set_status, upd; simpl. repeat split.
  intros u. destruct (Nat.eqb_spec u t) as [-> | _]; reflexivity.
Qed.

Lemma set_ready_list_frame (k : kernel) (v : list nat) :
  sched_frame k (set_ready_list k v).
Proof. unfold sched_frame; simpl; repeat split. Qed.

Lemma set_running_frame (k : kernel) (v : nat) : sched_frame k (set_running k v).
Proof. unfold sched_frame; simpl; repeat split. Qed.

Lemma log_frame (k : kernel) (e : event) : sched_frame k (log e k).
Proof. unfold sched_frame; simpl; repeat split. Qed.

Lemma next_thread_to_run_cases (k : kernel) :
  (ready_list k = [] /\ next_thread_to_run k = (idle_thread k, k)) \/
  (exists m, list_max (thread_priority_compare k) (ready_list k) = Some m /\
             next_thread_to_run k =
               (Some m, set_ready_list k (list_remove m (ready_list k)))).
Proof.
  unfold next_thread_to_run. destruct (ready_list k) as [|x l] eqn:E.
  - left. split; reflexivity.
  - right. simpl. eexists. split; reflexivity.
Qed.

Lemma schedule_inv (k k' : kernel) :
  schedule k = Ok k' ->
  status (threads k (running k)) <> THREAD_RUNNING /\
  exists n k1, next_thread_to_run k = (Some n, k1) /\
               k' = thread_schedule_tail (set_running k1 n).
Proof.
  unfold schedule. destruct (next_thread_to_run_cases k) as [[E ->] | (m & Hm & ->)].
  - simpl. destruct (status (threads k (running k))) eqn:Es; simpl; try discriminate;
      (destruct (idle_thread k) as [i|]; [| discriminate]);
      intros H; injection H as <-; (split; [congruence | eauto]).
  - simpl. destruct (status (threads k (running k))) eqn:Es; simpl; try discriminate;
      intros H; injection H as <-; (split; [congruence | eauto]).
Qed.

Lemma schedule_frame (k k' : kernel) :
  schedule k = Ok k' -> sched_frame k k' /\ trace k' = trace k.
Proof.
  intros H. apply schedule_inv in H. destruct H as (_ & n & k1 & Hn & ->).
  assert (F : sched_frame k k1 /\ trace k1 = trace k).
  { destruct (next_thread_to_run_cases k) as [[_ E] | (m & _ & E)];
      rewrite E in Hn; injection Hn as _ <-.
    - split; [apply sched_frame_refl | reflexivity].
    - split; [apply set_ready_list_frame | reflexivity]. }
  destruct F as [F Ft]. split.
  - eapply sched_frame_trans; [exact F |].
    eapply sched_frame_trans; [apply set_running_frame |].
    apply set_status_frame.
  - exact Ft.
Qed.

Lemma thread_current_inv (k : kernel) (t : nat) :
  thread_current k = Ok t ->
  t = running k /\ status (threads k (running k)) = THREAD_RUNNING.
Proof.
  unfold thread_current.
  destruct (status (threads k (running k))) eqn:E; simpl; try discriminate.
  intros H; injection H as <-. split; reflexivity.
Qed.

Lemma thread_current_running (k : kernel) :
  status (threads k (running k)) = THREAD_RUNNING ->
  thread_current k = Ok (running k).
Proof. unfold thread_current. intros ->. reflexivity. Qed.

Lemma thread_yield_inv (k k' : kernel) :
  thread_yield k = Ok k' ->
  status (threads k (running k)) = THREAD_RUNNING /\
  intr_context k = false /\
  sched_frame k k' /\
  trace k' = EvYield (running k) :: trace k.
Proof.
  unfold thread_yield.
  destruct (thread_current k) as [t| |] eqn:Ec; simpl; try discriminate.
  apply thread_current_inv in Ec. destruct Ec as [-> Hs].
  destruct (intr_context k) eqn:Ei; simpl; [discriminate |].
  intros H. apply schedule_frame in H. destruct H as [F Ft].
  split; [exact Hs |]. split; [reflexivity |].
  assert (G : forall k1, sched_frame k k1 -> trace k1 = trace k ->
            sched_frame k (log (EvYield (running k))
                             (set_status k1 (running k) THREAD_READY)) /\
            trace (log (EvYield (running k))
                     (set_status k1 (running k) THREAD_READY))
            = EvYield (running k) :: trace k).
  { intros k1 F1 T1. split; [| simpl; now rewrite T1].
    eapply sched_frame_trans; [exact F1 |].
    eapply sched_frame_trans; [apply set_status_frame | apply log_frame]. }
  destruct (idle_thread k) as [i|];
    [destruct (Nat.eqb (running k) i) |];
    match type of F with
    | sched_frame (log _ (set_status ?k1 _ _)) _ =>
        destruct (G k1) as [G1 G2];
        [first [apply sched_frame_refl | apply set_ready_list_frame] | reflexivity |];
        (split; [eapply sched_frame_trans; [exact G1 | exact F] | now rewrite Ft, G2])
    end.
Qed.

Lemma thread_unblock_inv (t : nat) (k k' : kernel) :
  thread_unblock t k = Ok k' ->
  status (threads k t) = THREAD_BLOCKED /\
  k' = log (EvUnblock t)
         (set_status (set_ready_list k (list_push_back (ready_list k) t)) t THREAD_READY).
Proof.
  unfold thread_unblock.
  destruct (status (threads k t)) eqn:E; simpl; try discriminate.
  intros H; injection H as <-. split; reflexivity.
Qed.

Lemma thread_unblock_frame (t : nat) (k k' : kernel) :
  thread_unblock t k = Ok k' -> sched_frame k k'.
Proof.
  intros H. apply thread_unblock_inv in H. destruct H as [_ ->].
  eapply sched_frame_trans; [apply set_ready_list_frame |].
  eapply sched_frame_trans; [apply set_status_frame | apply log_frame].
Qed.

Lemma thread_data_fields (a b : thread) :
  thread_data a = thread_data b ->
  priority a = priority b /\ donation_priority a = donation_priority b /\
  lock_list a = lock_list b /\ thread_lock a = thread_lock b /\ stack a = stack b.
Proof. unfold thread_data. intros H. injection H as -> -> -> -> ->. repeat split. Qed.

Lemma thread_data_effective (a b : thread) :
  thread_data a = thread_data b -> effective_priority a = effective_priority b.
Proof.
  intros H. apply thread_data_fields in H. destruct H as (Hp & Hd & _).
  unfold effective_priority. now rewrite Hp, Hd.
Qed.

(** The choice of [list_max] under [thread_priority_compare]: an element
    of highest effective priority, and the last one of those. *)
Lemma list_max_thread_priority (k : kernel) (l : list nat) (m : nat) :
  list_max (thread_priority_compare k) l = Some m ->
  exists l1 l2,
    l = l1 ++ m :: l2 /\
    (forall u, In u l1 ->
       effective_priority (threads k u) <= effective_priority (threads k m)) /\
    (forall u, In u l2 ->
       effective_priority (threads k u) < effective_priority (threads k m)).
Proof.
  intros H.
  apply (list_max_spec nat (fun t => effective_priority (threads k t))).
  rewrite <- H. apply list_max_ext. intros a b.
  unfold thread_priority_compare. now rewrite priority_compare_effective.
Qed.

(** ** Semaphore stores *)

Lemma get_set_sema_same (k : kernel) (p : sema_ptr) (s : semaphore) :
  get_sema (set_sema k p s) p = s.
Proof. destruct p; simpl; unfold upd; now rewrite Nat.eqb_refl. Qed.

Lemma set_sema_fields (k : kernel) (p : sema_ptr) (s : semaphore) :
  threads (set_sema k p s) = threads k /\
  ready_list (set_sema k p s) = ready_list k /\
  running (set_sema k p s) = running k /\
  idle_thread (set_sema k p s) = idle_thread k /\
  intr_context (set_sema k p s) = intr_context k /\
  trace (set_sema k p s) = trace k /\
  conds (set_sema k p s) = conds k.
Proof. destruct p; simpl; repeat split. Qed.

Lemma get_sema_sched_frame (k k' : kernel) (p : sema_ptr) :
  sched_frame k k' -> get_sema k' p = get_sema k p.
Proof.
  intros (A1 & A2 & A3 & _). destruct p; simpl; congruence.
Qed.

(** ** sema_up *)

Lemma threads_set_sema (k : kernel) (p : sema_ptr) (s : semaphore) :
  threads (set_sema k p s) = threads k.
Proof. apply set_sema_fields. Qed.

Lemma ready_list_set_sema (k : kernel) (p : sema_ptr) (s : semaphore) :
  ready_list (set_sema k p s) = ready_list k.
Proof. apply set_sema_fields. Qed.

Lemma trace_set_sema (k : kernel) (p : sema_ptr) (s : semaphore) :
  trace (set_sema k p s) = trace k.
Proof. apply set_sema_fields. Qed.

Lemma intr_context_set_sema (k : kernel) (p : sema_ptr) (s : semaphore) :
  intr_context (set_sema k p s) = intr_context k.
Proof. apply set_sema_fields. Qed.

Lemma running_set_sema (k : kernel) (p : sema_ptr) (s : semaphore) :
  running (set_sema k p s) = running k.
Proof. apply set_sema_fields. Qed.

Lemma idle_thread_set_sema (k : kernel) (p : sema_ptr) (s : semaphore) :
  idle_thread (set_sema k p s) = idle_thread k.
Proof. apply set_sema_fields. Qed.

Lemma conds_set_sema (k : kernel) (p : sema_ptr) (s : semaphore) :
  conds (set_sema k p s) = conds k.
Proof. apply set_sema_fields. Qed.

Lemma sema_up_wake_inv (sema : sema_ptr) (k k' : kernel) :
  sema_up_wake sema k = Ok k' ->
  (waiters (get_sema k sema) = [] /\ k' = k) \/
  (exists m,
     list_max (thread_priority_compare k) (waiters (get_sema k sema)) = Some m /\
     status (threads k m) = THREAD_BLOCKED /\
     k' = log (EvUnblock m)
            (set_status
               (set_ready_list
                  (set_sema k sema
                     (mkSemaphore (value (get_sema k sema))
                        (list_remove m (waiters (get_sema k sema)))))
                  (list_push_back (ready_list k) m))
               m THREAD_READY)).
Proof.
  unfold sema_up_wake.
  destruct (list_max (thread_priority_compare k) (waiters (get_sema k sema)))
    as [m|] eqn:Em.
  - destruct (waiters (get_sema k sema)) as [|x l] eqn:E; [discriminate |].
    cbn [list_empty negb].
    intros H. apply thread_unblock_inv in H. destruct H as [Hs ->].
    right. exists m. split; [reflexivity |].
    rewrite threads_set_sema in Hs. rewrite ready_list_set_sema.
    split; [exact Hs | reflexivity].
  - destruct (waiters (get_sema k sema)) as [|x l] eqn:E; [| discriminate].
    cbn [list_empty negb]. intros H; injection H as <-. now left.
Qed.

Lemma sema_up_wake_some (sema : sema_ptr) (k : kernel) (m : nat) :
  list_max (thread_priority_compare k) (waiters (get_sema k sema)) = Some m ->
  status (threads k m) = THREAD_BLOCKED ->
  sema_up_wake sema k =
    Ok (log (EvUnblock m)
            (set_status
               (set_ready_list
                  (set_sema k sema
                     (mkSemaphore (value (get_sema k sema))
                        (list_remove m (waiters (get_sema k sema)))))
                  (list_push_back (ready_list k) m))
               m THREAD_READY)).
Proof.
  intros Hm Hs. unfold sema_up_wake. rewrite Hm.
  destruct (waiters (get_sema k sema)) as [|x l] eqn:E; [discriminate |].
  cbn [list_empty negb]. unfold thread_unblock.
  rewrite threads_set_sema, Hs, ready_list_set_sema. reflexivity.
Qed.

(** What the section of [sema_up] with interrupts off does when the
    waiter [t] is the one chosen. *)
Lemma sema_up_critical_some (sema : sema_ptr) (k : kernel) (t : nat) :
  list_max (thread_priority_compare k) (waiters (get_sema k sema)) = Some t ->
  status (threads k t) = THREAD_BLOCKED ->
  exists k1,
    sema_up_critical sema k = Ok k1 /\
    waiters (get_sema k1 sema) = list_remove t (waiters (get_sema k sema)) /\
    value (get_sema k1 sema) = (value (get_sema k sema) + 1) mod UINT_MODULUS /\
    status (threads k1 t) = THREAD_READY /\
    ready_list k1 = ready_list k ++ [t] /\
    trace k1 = EvUnblock t :: trace k /\
    intr_context k1 = intr_context k.
Proof.
  intros Hm Hs. unfold sema_up_critical.
  rewrite (sema_up_wake_some sema k t Hm Hs). cbn [bind].
  set (s1 := mkSemaphore (value (get_sema k sema))
               (list_remove t (waiters (get_sema k sema)))).
  set (k1 := log (EvUnblock t)
               (set_status (set_ready_list (set_sema k sema s1)
                              (list_push_back (ready_list k) t)) t THREAD_READY)).
  assert (F : sched_frame (set_sema k sema s1) k1).
  { eapply sched_frame_trans; [apply set_ready_list_frame |].
    eapply sched_frame_trans; [apply set_status_frame | apply log_frame]. }
  assert (G : get_sema k1 sema = s1).
  { rewrite (get_sema_sched_frame _ _ sema F). apply get_set_sema_same. }
  eexists. split; [reflexivity |].
  rewrite G, get_set_sema_same, threads_set_sema, ready_list_set_sema,
    trace_set_sema, intr_context_set_sema.
  subst k1 s1. cbn. rewrite trace_set_sema, intr_context_set_sema.
  unfold upd. rewrite Nat.eqb_refl. cbn. repeat split.
Qed.

(** ** Kernel states for the scenarios *)

Definition new_thread (prio : Z) (st : thread_status) (code : list instr) : thread :=
  mkThread st prio PRI_MIN [] None code.

Fixpoint thread_table (l : list (nat * thread)) (t : nat) : thread :=
  match l with
  | [] => new_thread PRI_MIN THREAD_DYING []
  | (u, th) :: l' => if Nat.eqb t u then th else thread_table l' t
  end.

(** A kernel in which every lock has been through [lock_init], every
    condition through [cond_init], and the semaphores are as given. *)
Definition boot (ths : list (nat * thread)) (sems : nat -> semaphore)
    (ready : list nat) (cur : nat) (idle_t : nat) : kernel :=
  mkKernel (thread_table ths)
           (fun _ => mkLock None (mkSemaphore 1 []) PRI_MIN)
           sems
           (fun _ => mkSemaphore 0 [])
           (fun _ => [])
           ready cur (Some idle_t) false [].

Definition observe {A : Type} (f : kernel -> A) (r : outcome kernel) : outcome A :=
  k <- r ;; Ok (f k).

(** Threads 1 to 5, of priorities 5, 15, 25, 35 and 45, are blocked in
    [sema_down] on semaphore 0, the lowest priority having come first;
    thread 0, of priority 31, is about to call [sema_up] five times;
    thread 6 is the idle thread. *)
Definition five_waiters : kernel :=
  boot [ (0%nat, new_thread PRI_DEFAULT THREAD_RUNNING
                   [ISemaUp 0; ISemaUp 0; ISemaUp 0; ISemaUp 0; ISemaUp 0]);
         (1%nat, new_thread 5 THREAD_BLOCKED [ISemaDown 0]);
         (2%nat, new_thread 15 THREAD_BLOCKED [ISemaDown 0]);
         (3%nat, new_thread 25 THREAD_BLOCKED [ISemaDown 0]);
         (4%nat, new_thread 35 THREAD_BLOCKED [ISemaDown 0]);
         (5%nat, new_thread 45 THREAD_BLOCKED [ISemaDown 0]);
         (6%nat, new_thread PRI_MIN THREAD_BLOCKED [IIdle]) ]
       (upd (fun _ => mkSemaphore 0 []) 0 (mkSemaphore 0 [1; 2; 3; 4; 5]%nat))
       [] 0%nat 6%nat.

Definition woken_priorities (k : kernel) : list Z :=
  map (fun t => priority (threads k t)) (wake_order k).

(** C3.  On a semaphore with waiters, all of them blocked, [sema_up] takes
    a waiter [t] whose effective priority, read from the thread structures
    as they are at the call (so with what has been donated to it while it
    slept), is the highest of the list: [t] leaves the waiter list, becomes
    ready at the back of the ready list, and the value is then incremented
    (as an [unsigned]); outside an interrupt handler the caller then
    yields.  With threads of priorities 5, 15, 25, 35, 45 blocked in
    [sema_down], five calls of [sema_up] wake them in the order 45, 35, 25,
    15, 5. *)
Theorem sema_up_wakes_highest_priority :
  (forall (sema : sema_ptr) (k : kernel),
     waiters (get_sema k sema) <> [] ->
     (forall u, In u (waiters (get_sema k sema)) ->
        status (threads k u) = THREAD_BLOCKED) ->
     exists t k1,
       In t (waiters (get_sema k sema)) /\
       (forall u, In u (waiters (get_sema k sema)) ->
          effective_priority (threads k u) <= effective_priority (threads k t)) /\
       sema_up_critical sema k = Ok k1 /\
       waiters (get_sema k1 sema) = list_remove t (waiters (get_sema k sema)) /\
       S (length (waiters (get_sema k1 sema))) = length (waiters (get_sema k sema)) /\
       status (threads k1 t) = THREAD_READY /\
       ready_list k1 = ready_list k ++ [t] /\
       wake_order k1 = wake_order k ++ [t] /\
       value (get_sema k1 sema) = (value (get_sema k sema) + 1) mod UINT_MODULUS /\
       sema_up sema k = (if intr_context k then Ok k1 else thread_yield k1)) /\
  observe woken_priorities (run 0 9 five_waiters) = Ok [45; 35; 25; 15; 5].
Proof.
  split; [| reflexivity].
  intros sema k Hne Hb.
  destruct (list_max_nonempty nat (fun t => effective_priority (threads k t))
              (waiters (get_sema k sema)) Hne) as [t0 Ht0].
  assert (Hm : exists t, list_max (thread_priority_compare k)
                           (waiters (get_sema k sema)) = Some t).
  { destruct (waiters (get_sema k sema)); [congruence | eexists; reflexivity]. }
  clear t0 Ht0. destruct Hm as [t Hm].
  destruct (list_max_thread_priority k _ t Hm) as (l1 & l2 & Hl & Hle & Hlt).
  assert (Hin : In t (waiters (get_sema k sema))).
  { rewrite Hl. apply in_or_app. right. now left. }
  destruct (sema_up_critical_some sema k t Hm (Hb t Hin))
    as (k1 & Hc & Hw & Hv & Hs & Hr & Htr & Hi).
  exists t, k1. repeat split; try assumption.
  - intros u Hu. rewrite Hl in Hu. apply in_app_or in Hu.
    destruct Hu as [Hu | [<- | Hu]]; [now apply Hle | lia |].
    specialize (Hlt u Hu). lia.
  - rewrite Hw. now apply list_remove_length.
  - unfold wake_order. rewrite Htr. reflexivity.
  - unfold sema_up. rewrite Hc. cbn [bind]. rewrite Hi.
    now destruct (intr_context k).
Qed.

(** The first of the five calls, on [five_waiters]. *)
Lemma sema_up_wakes_highest_priority_five :
  exists t k1,
    In t (waiters (get_sema five_waiters (PlainSema 0))) /\
    (forall u, In u (waiters (get_sema five_waiters (PlainSema 0))) ->
       effective_priority (threads five_waiters u)
       <= effective_priority (threads five_waiters t)) /\
    sema_up_critical (PlainSema 0) five_waiters = Ok k1 /\
    waiters (get_sema k1 (PlainSema 0))
    = list_remove t (waiters (get_sema five_waiters (PlainSema 0))) /\
    S (length (waiters (get_sema k1 (PlainSema 0))))
    = length (waiters (get_sema five_waiters (PlainSema 0))) /\
    status (threads k1 t) = THREAD_READY /\
    ready_list k1 = ready_list five_waiters ++ [t] /\
    wake_order k1 = wake_order five_waiters ++ [t] /\
    value (get_sema k1 (PlainSema 0))
    = (value (get_sema five_waiters (PlainSema 0)) + 1) mod UINT_MODULUS /\
    sema_up (PlainSema 0) five_waiters
    = (if intr_context five_waiters then Ok k1 else thread_yield k1).
Proof.
  apply (proj1 sema_up_wakes_highest_priority (PlainSema 0) five_waiters).
  - simpl. discriminate.
  - simpl. intros u [<- | [<- | [<- | [<- | [<- | []]]]]]; reflexivity.
Defined.

(** ** thread_yield and thread_set_priority *)

Lemma schedule_total (k : kernel) :
  status (threads k (running k)) <> THREAD_RUNNING ->
  (ready_list k = [] -> idle_thread k <> None) ->
  exists k', schedule k = Ok k'.
Proof.
  intros Hs Hi. unfold schedule.
  destruct (next_thread_to_run_cases k) as [[E ->] | (m & _ & ->)].
  - destruct (status (threads k (running k))); try congruence;
      (destruct (idle_thread k) as [i|]; [eexists; reflexivity | now elim (Hi E)]).
  - cbn [threads set_ready_list].
    destruct (status (threads k (running k))); try congruence; eexists; reflexivity.
Qed.

(** A running thread outside an interrupt handler can always yield. *)
Lemma thread_yield_total (k : kernel) :
  status (threads k (running k)) = THREAD_RUNNING ->
  intr_context k = false ->
  exists k', thread_yield k = Ok k'.
Proof.
  intros Hs Hi. unfold thread_yield.
  rewrite (thread_current_running k Hs). cbn [bind]. rewrite Hi. cbn [negb assert bind].
  apply schedule_total.
  - destruct (idle_thread k) as [i|]; [destruct (Nat.eqb (running k) i) |];
      cbn; unfold upd; rewrite Nat.eqb_refl; cbn; discriminate.
  - destruct (idle_thread k) as [i|] eqn:Ei; [destruct (Nat.eqb (running k) i) |];
      cbn; unfold list_push_back; intros E;
      try (rewrite Ei; discriminate);
      now destruct (ready_list k).
Qed.

(** C8.  For every integer [p], [thread_set_priority p], called by a
    running thread outside an interrupt handler, succeeds: it stores [p]
    itself in the [priority] field of the caller, whatever [p] is, and
    yields.  The comparisons of effective priorities then read this field as
    it stands. *)
Theorem thread_set_priority_stores_verbatim (p : Z) (k : kernel) :
  status (threads k (running k)) = THREAD_RUNNING ->
  intr_context k = false ->
  exists k',
    thread_set_priority p k = Ok k' /\
    priority (threads k' (running k)) = p /\
    yielded (trace k') = running k :: yielded (trace k) /\
    effective_priority (threads k' (running k))
    = Z.max p (donation_priority (threads k (running k))) /\
    (forall other : thread,
       priority_compare (threads k' (running k)) other
       = (Z.max p (donation_priority (threads k (running k)))
          <? effective_priority other)) /\
    (forall other : thread,
       priority_compare other (threads k' (running k))
       = (effective_priority other
          <? Z.max p (donation_priority (threads k (running k))))).
Proof.
  intros Hs Hi.
  set (k0 := set_priority k (running k) p).
  assert (Hs0 : status (threads k0 (running k0)) = THREAD_RUNNING).
  { subst k0. cbn. unfold upd. rewrite Nat.eqb_refl. exact Hs. }
  assert (Hi0 : intr_context k0 = false) by exact Hi.
  destruct (thread_yield_total k0 Hs0 Hi0) as [k' Hy].
  exists k'. unfold thread_set_priority.
  rewrite (thread_current_running k Hs). cbn [bind]. fold k0.
  split; [exact Hy |].
  apply thread_yield_inv in Hy. destruct Hy as (_ & _ & F & Ht).
  destruct F as (_ & _ & _ & _ & _ & _ & F).
  specialize (F (running k)). apply thread_data_fields in F.
  destruct F as (Fp & Fd & _).
  assert (Hp : priority (threads k' (running k)) = p).
  { rewrite Fp. subst k0. cbn. unfold upd. now rewrite Nat.eqb_refl. }
  assert (Hd : donation_priority (threads k' (running k))
               = donation_priority (threads k (running k))).
  { rewrite Fd. subst k0. cbn. unfold upd. now rewrite Nat.eqb_refl. }
  assert (He : effective_priority (threads k' (running k))
               = Z.max p (donation_priority (threads k (running k)))).
  { rewrite effective_priority_max. now rewrite Hp, Hd. }
  repeat split.
  - exact Hp.
  - rewrite Ht. reflexivity.
  - exact He.
  - intros other. now rewrite priority_compare_effective, He.
  - intros other. now rewrite priority_compare_effective, He.
Qed.

(** The running thread of [five_waiters] sets its priority to -5. *)
Lemma thread_set_priority_stores_minus_five :
  exists k',
    thread_set_priority (-5) five_waiters = Ok k' /\
    priority (threads k' (running five_waiters)) = -5 /\
    yielded (trace k') = running five_waiters :: yielded (trace five_waiters) /\
    effective_priority (threads k' (running five_waiters))
    = Z.max (-5) (donation_priority (threads five_waiters (running five_waiters))) /\
    (forall other : thread,
       priority_compare (threads k' (running five_waiters)) other
       = (Z.max (-5) (donation_priority (threads five_waiters (running five_waiters)))
          <? effective_priority other)) /\
    (forall other : thread,
       priority_compare other (threads k' (running five_waiters))
       = (effective_priority other
          <? Z.max (-5) (donation_priority (threads five_waiters (running five_waiters))))).
Proof.
  apply (thread_set_priority_stores_verbatim (-5) five_waiters); reflexivity.
Defined.

(** The same with 100, above PRI_MAX: the caller then compares above a
    thread of priority PRI_MAX. *)
Example thread_set_priority_100 :
  observe (fun k => (priority (threads k 0%nat),
                     priority_compare (new_thread PRI_MAX THREAD_READY [])
                                      (threads k 0%nat)))
          (thread_set_priority 100 five_waiters) = Ok (100, true).
Proof. reflexivity. Qed.

(** ** Condition variables without waiters *)

Lemma lock_held_by_current_thread_true (l : nat) (k : kernel) :
  status (threads k (running k)) = THREAD_RUNNING ->
  holder (locks k l) = Some (running k) ->
  lock_held_by_current_thread l k = Ok true.
Proof.
  intros Hs Hh. unfold lock_held_by_current_thread.
  rewrite (thread_current_running k Hs). cbn [bind]. rewrite Hh.
  now rewrite Nat.eqb_refl.
Qed.

(** C10.  On a condition without waiters [cond_broadcast] gives back the
    kernel as it was: no signal, no yield.  [cond_signal], called as its
    assertions demand (by the running thread, outside an interrupt handler,
    holding the lock), is a call of [thread_yield]: no thread is unblocked,
    the caller is recorded as having yielded, and the kernel is not left as
    it was. *)
Theorem cond_signal_empty_yields_broadcast_does_not (c l : nat) (k : kernel) :
  conds k c = [] ->
  cond_broadcast c l k = Ok k /\
  (status (threads k (running k)) = THREAD_RUNNING ->
   intr_context k = false ->
   holder (locks k l) = Some (running k) ->
   exists k',
     cond_signal c l k = Ok k' /\
     thread_yield k = Ok k' /\
     wake_order k' = wake_order k /\
     yielded (trace k') = running k :: yielded (trace k) /\
     k' <> k).
Proof.
  intros Hc. split.
  - unfold cond_broadcast. now rewrite Hc.
  - intros Hs Hi Hh.
    destruct (thread_yield_total k Hs Hi) as [k' Hy].
    exists k'. split.
    + unfold cond_signal. rewrite Hi. cbn [negb assert bind].
      rewrite (lock_held_by_current_thread_true l k Hs Hh). cbn [assert bind].
      rewrite (thread_current_running k Hs). cbn [bind].
      rewrite Hc. cbn [list_empty negb]. exact Hy.
    + split; [exact Hy |].
      apply thread_yield_inv in Hy. destruct Hy as (_ & _ & _ & Ht).
      repeat split.
      * unfold wake_order. now rewrite Ht.
      * now rewrite Ht.
      * intros ->. revert Ht. generalize (trace k). intros tr E.
        assert (L : length tr = length (EvYield (running k) :: tr)) by now rewrite <- E.
        simpl in L. lia.
Qed.

(** Thread 0, of priority 31, runs and holds lock 0; thread 1, of priority
    40, is ready (woken from an interrupt handler, which does not yield);
    no thread waits on condition 0. *)
Definition signal_no_waiter : kernel :=
  set_locks
    (boot [ (0%nat, mkThread THREAD_RUNNING PRI_DEFAULT PRI_MIN [0%nat] None []);
            (1%nat, new_thread 40 THREAD_READY []);
            (2%nat, new_thread PRI_MIN THREAD_BLOCKED [IIdle]) ]
          (fun _ => mkSemaphore 0 []) [1%nat] 0%nat 2%nat)
    (upd (fun _ => mkLock None (mkSemaphore 1 []) PRI_MIN) 0
         (mkLock (Some 0%nat) (mkSemaphore 0 []) PRI_MIN)).

Lemma cond_signal_empty_yields_at_signal_no_waiter :
  cond_broadcast 0 0 signal_no_waiter = Ok signal_no_waiter /\
  exists k',
    cond_signal 0 0 signal_no_waiter = Ok k' /\
    thread_yield signal_no_waiter = Ok k' /\
    wake_order k' = wake_order signal_no_waiter /\
    yielded (trace k') = running signal_no_waiter :: yielded (trace signal_no_waiter) /\
    k' <> signal_no_waiter.
Proof.
  destruct (cond_signal_empty_yields_broadcast_does_not 0 0 signal_no_waiter eq_refl)
    as [Hb Hs].
  split; [exact Hb | apply Hs; reflexivity].
Defined.

(** There the processor goes to thread 1 in [cond_signal], and stays with
    thread 0 in [cond_broadcast]. *)
Example cond_signal_empty_switches :
  observe running (cond_signal 0 0 signal_no_waiter) = Ok 1%nat /\
  observe running (cond_broadcast 0 0 signal_no_waiter) = Ok 0%nat.
Proof. split; reflexivity. Qed.

(** ** What the semaphore operations leave alone *)

(** [k'] differs from [k] at most in the statuses of threads, the ready
    list, the running thread, the trace and the semaphores (those of the
    locks included). *)
Definition data_frame (k k' : kernel) : Prop :=
  (forall t, thread_data (threads k' t) = thread_data (threads k t)) /\
  (forall l, holder (locks k' l) = holder (locks k l)) /\
  (forall l, lock_priority (locks k' l) = lock_priority (locks k l)) /\
  conds k' = conds k /\ idle_thread k' = idle_thread k /\
  intr_context k' = intr_context k.

Lemma data_frame_refl (k : kernel) : data_frame k k.
Proof. unfold data_frame; repeat split; reflexivity. Qed.

Lemma data_frame_trans (k1 k2 k3 : kernel) :
  data_frame k1 k2 -> data_frame k2 k3 -> data_frame k1 k3.
Proof.
  unfold data_frame.
  intros (A1 & A2 & A3 & A4 & A5 & A6) (B1 & B2 & B3 & B4 & B5 & B6).
  repeat split; try congruence; intros x;
    first [rewrite B1; apply A1 | rewrite B2; apply A2 | rewrite B3; apply A3].
Qed.

Lemma sched_frame_data_frame (k k' : kernel) : sched_frame k k' -> data_frame k k'.
Proof.
  intros (A1 & A2 & A3 & A4 & A5 & A6 & A7).
  unfold data_frame. rewrite A1. repeat split; assumption.
Qed.

Lemma set_sema_data_frame (k : kernel) (p : sema_ptr) (s : semaphore) :
  data_frame k (set_sema k p s).
Proof.
  unfold data_frame. destruct p; cbn; repeat split;
    intros m; unfold upd;
    match goal with
    | |- context [Nat.eqb ?a ?b] => destruct (Nat.eqb_spec a b); subst
    end; reflexivity.
Qed.

Lemma sema_up_wake_data_frame (sema : sema_ptr) (k k' : kernel) :
  sema_up_wake sema k = Ok k' -> data_frame k k'.
Proof.
  intros H. apply sema_up_wake_inv in H.
  destruct H as [[_ ->] | (m & _ & _ & ->)]; [apply data_frame_refl |].
  eapply data_frame_trans; [apply set_sema_data_frame |].
  apply sched_frame_data_frame.
  eapply sched_frame_trans; [apply set_ready_list_frame |].
  eapply sched_frame_trans; [apply set_status_frame | apply log_frame].
Qed.

Lemma sema_up_critical_data_frame (sema : sema_ptr) (k k' : kernel) :
  sema_up_critical sema k = Ok k' -> data_frame k k'.
Proof.
  unfold sema_up_critical.
  destruct (sema_up_wake sema k) as [k1| |] eqn:E; cbn [bind]; try discriminate.
  intros H; injection H as <-.
  eapply data_frame_trans; [eapply sema_up_wake_data_frame; exact E |].
  apply set_sema_data_frame.
Qed.

Lemma sema_up_data_frame (sema : sema_ptr) (k k' : kernel) :
  sema_up sema k = Ok k' -> data_frame k k'.
Proof.
  unfold sema_up.
  destruct (sema_up_critical sema k) as [k1| |] eqn:E; cbn [bind]; try discriminate.
  apply sema_up_critical_data_frame in E.
  destruct (intr_context k1); cbn [negb].
  - intros H; injection H as <-. exact E.
  - intros H. apply thread_yield_inv in H. destruct H as (_ & _ & F & _).
    eapply data_frame_trans; [exact E | now apply sched_frame_data_frame].
Qed.

(** [sema_up] does not fail when the waiters are blocked threads and the
    caller is the running thread. *)
Lemma sema_up_total (sema : sema_ptr) (k : kernel) :
  status (threads k (running k)) = THREAD_RUNNING ->
  (forall u, In u (waiters (get_sema k sema)) ->
     status (threads k u) = THREAD_BLOCKED) ->
  exists k', sema_up sema k = Ok k'.
Proof.
  intros Hs Hb. unfold sema_up, sema_up_critical.
  assert (W : exists k1, sema_up_wake sema k = Ok k1 /\
                         status (threads k1 (running k1)) = THREAD_RUNNING).
  { destruct (list_max (thread_priority_compare k) (waiters (get_sema k sema)))
      as [m|] eqn:Hm.
    - assert (Hin : In m (waiters (get_sema k sema))).
      { destruct (list_max_thread_priority k _ m Hm) as (l1 & l2 & Hl & _).
        rewrite Hl. apply in_or_app. right. now left. }
      specialize (Hb m Hin).
      eexists. split; [apply sema_up_wake_some; [exact Hm | exact Hb] |].
      cbn. rewrite threads_set_sema, running_set_sema. unfold upd.
      destruct (Nat.eqb_spec (running k) m) as [<- | _]; [congruence | exact Hs].
    - exists k. split; [| exact Hs]. unfold sema_up_wake.
      destruct (waiters (get_sema k sema)); [reflexivity | discriminate]. }
  destruct W as (k1 & -> & Hs1). cbn [bind].
  set (k2 := set_sema k1 sema _).
  destruct (intr_context k2) eqn:Ei; cbn [negb]; [eexists; reflexivity |].
  apply thread_yield_total; [| exact Ei].
  subst k2. now rewrite threads_set_sema, running_set_sema.
Qed.

(** ** lock_release *)

Lemma gtb_max (a b : Z) : (if a >? b then a else b) = Z.max a b.
Proof. destruct (Z.gtb_spec a b); lia. Qed.

(** [k'] differs from [k] at most in the donated priority and the lock list
    of [cur] and in the holder and the priority of lock [l]. *)
Definition release_frame (cur l : nat) (k k' : kernel) : Prop :=
  (forall m, m <> l -> locks k' m = locks k m) /\
  (forall m, lock_semaphore (locks k' m) = lock_semaphore (locks k m)) /\
  (forall u, u <> cur -> threads k' u = threads k u) /\
  (forall u, status (threads k' u) = status (threads k u)) /\
  (forall u, priority (threads k' u) = priority (threads k u)) /\
  (forall u, thread_lock (threads k' u) = thread_lock (threads k u)) /\
  (forall u, stack (threads k' u) = stack (threads k u)) /\
  semas k' = semas k /\ waiter_sema k' = waiter_sema k /\ conds k' = conds k /\
  ready_list k' = ready_list k /\ running k' = running k /\
  idle_thread k' = idle_thread k /\ intr_context k' = intr_context k /\
  trace k' = trace k.

Lemma release_frame_refl (cur l : nat) (k : kernel) : release_frame cur l k k.
Proof. unfold release_frame; repeat split; reflexivity. Qed.

Lemma release_frame_trans (cur l : nat) (k1 k2 k3 : kernel) :
  release_frame cur l k1 k2 -> release_frame cur l k2 k3 -> release_frame cur l k1 k3.
Proof.
  unfold release_frame.
  intros (A1 & A2 & A3 & A4 & A5 & A6 & A7 & A8 & A9 & A10 & A11 & A12 & A13 & A14 & A15)
         (B1 & B2 & B3 & B4 & B5 & B6 & B7 & B8 & B9 & B10 & B11 & B12 & B13 & B14 & B15).
  repeat split; try congruence; intros;
    first [ rewrite B1, A1 by assumption; reflexivity
          | rewrite B3, A3 by assumption; reflexivity
          | now rewrite B2, A2
          | now rewrite B4, A4
          | now rewrite B5, A5
          | now rewrite B6, A6
          | now rewrite B7, A7 ].
Qed.

Ltac frame_by_cases :=
  repeat split; cbn; unfold upd; intros;
  repeat match goal with
         | |- context [Nat.eqb ?a ?b] => destruct (Nat.eqb_spec a b); subst
         end;
  try reflexivity; try congruence.

Lemma set_donation_priority_release_frame (cur l : nat) (k : kernel) (v : Z) :
  release_frame cur l k (set_donation_priority k cur v).
Proof. unfold release_frame. frame_by_cases. Qed.

Lemma set_lock_list_release_frame (cur l : nat) (k : kernel) (v : list nat) :
  release_frame cur l k (set_lock_list k cur v).
Proof. unfold release_frame. frame_by_cases. Qed.

Lemma set_holder_release_frame (cur l : nat) (k : kernel) (v : option nat) :
  release_frame cur l k (set_holder k l v).
Proof. unfold release_frame. frame_by_cases. Qed.

Lemma set_lock_priority_release_frame (cur l : nat) (k : kernel) (v : Z) :
  release_frame cur l k (set_lock_priority k l v).
Proof. unfold release_frame. frame_by_cases. Qed.

Lemma lock_release_loop_frame (cur l : nat) (held : list nat) (k : kernel) :
  release_frame cur l k (lock_release_loop l cur held k).
Proof.
  revert k. induction held as [|e held IH]; intros k; cbn [lock_release_loop].
  - apply release_frame_refl.
  - destruct (Nat.eqb l e).
    + eapply release_frame_trans; [| apply IH].
      eapply release_frame_trans; [apply set_lock_list_release_frame |].
      eapply release_frame_trans; [apply set_holder_release_frame |].
      apply set_lock_priority_release_frame.
    + eapply release_frame_trans; [| apply IH].
      apply set_donation_priority_release_frame.
Qed.

Section LockReleaseLoop.
Variables (l cur : nat) (ceiling : nat -> Z).

Lemma remaining_locks_not_In (held : list nat) : ~ In l (remaining_locks l held).
Proof.
  unfold remaining_locks. rewrite filter_In. intros [_ H].
  now rewrite Nat.eqb_refl in H.
Qed.

Lemma lock_release_loop_lists (held pre : list nat) (k : kernel) :
  (forall m, m <> l -> lock_priority (locks k m) = ceiling m) ->
  lock_list (threads k cur) = pre ++ held ->
  ~ In l pre ->
  lock_list (threads (lock_release_loop l cur held k) cur)
  = pre ++ remaining_locks l held /\
  donation_priority (threads (lock_release_loop l cur held k) cur)
  = fold_left (fun acc h => Z.max acc (ceiling h)) (remaining_locks l held)
              (donation_priority (threads k cur)).
Proof.
  revert pre k. induction held as [|e held IH]; intros pre k Hc Hl Hp.
  - cbn. rewrite app_nil_r in *. split; [exact Hl | reflexivity].
  - cbn [lock_release_loop remaining_locks filter].
    destruct (Nat.eqb_spec l e) as [<- | Hne]; cbn [negb].
    + fold (remaining_locks l held).
      match goal with
      | |- context [lock_release_loop l cur held ?k3] =>
          destruct (IH pre k3) as [I1 I2]
      end.
      * intros m Hm. cbn. unfold upd.
        destruct (Nat.eqb_spec m l); [congruence | now apply Hc].
      * cbn. unfold upd. rewrite Nat.eqb_refl. cbn.
        rewrite Hl. now apply list_remove_middle.
      * exact Hp.
      * split; [exact I1 |]. rewrite I2. f_equal.
        cbn. unfold upd. now rewrite Nat.eqb_refl.
    + fold (remaining_locks l held).
      match goal with
      | |- context [lock_release_loop l cur held ?k1] =>
          destruct (IH (pre ++ [e]) k1) as [I1 I2]
      end.
      * intros m Hm. cbn. now apply Hc.
      * cbn. unfold upd. rewrite Nat.eqb_refl. cbn.
        rewrite Hl, <- app_assoc. reflexivity.
      * intros Hin. apply in_app_or in Hin.
        destruct Hin as [Hin | [Hin | []]]; [tauto | congruence].
      * rewrite <- app_assoc in I1. split; [exact I1 |].
        rewrite I2. cbn [fold_left]. f_equal.
        cbn. unfold upd. rewrite Nat.eqb_refl. cbn.
        rewrite gtb_max. rewrite (Hc e); [reflexivity | congruence].
Qed.

Lemma lock_release_loop_lock (held : list nat) (k : kernel) :
  (In l held ->
   holder (locks (lock_release_loop l cur held k) l) = None /\
   lock_priority (locks (lock_release_loop l cur held k) l) = PRI_MIN) /\
  (~ In l held -> locks (lock_release_loop l cur held k) l = locks k l).
Proof.
  revert k. induction held as [|e held IH]; intros k.
  - cbn. split; [intros [] | reflexivity].
  - cbn [lock_release_loop].
    destruct (Nat.eqb_spec l e) as [<- | Hne].
    + split; [intros _ | intros H; elim H; now left].
      match goal with
      | |- context [lock_release_loop l cur held ?k3] =>
          destruct (IH k3) as [I1 I2]; set (k3' := k3) in *
      end.
      destruct (in_dec Nat.eq_dec l held) as [Hin | Hnin]; [now apply I1 |].
      rewrite (I2 Hnin). subst k3'. cbn. unfold upd. rewrite !Nat.eqb_refl. cbn.
      split; reflexivity.
    + match goal with
      | |- context [lock_release_loop l cur held ?k1] =>
          destruct (IH k1) as [I1 I2]
      end.
      split.
      * intros [H | H]; [congruence | now apply I1].
      * intros H. rewrite I2; [reflexivity | intros Hin; apply H; now right].
Qed.
End LockReleaseLoop.

Lemma max_ceiling_ext (k k' : kernel) (held : list nat) :
  (forall m, In m held -> lock_priority (locks k' m) = lock_priority (locks k m)) ->
  max_ceiling k' held = max_ceiling k held.
Proof.
  unfold max_ceiling. generalize PRI_MIN.
  induction held as [|e held IH]; intros z H; cbn [fold_left]; [reflexivity |].
  rewrite (H e (or_introl eq_refl)). apply IH. intros m Hm. apply H. now right.
Qed.

Lemma max_ceiling_nonneg (k : kernel) (held : list nat) : PRI_MIN <= max_ceiling k held.
Proof.
  unfold max_ceiling.
  assert (G : forall z a, a <= z ->
            a <= fold_left (fun acc h => Z.max acc (lock_priority (locks k h))) held z).
  { induction held as [|e held IH]; intros z a Ha; cbn [fold_left]; [exact Ha |].
    apply IH. lia. }
  apply G. lia.
Qed.

Lemma lock_release_critical_ok (l : nat) (k : kernel) :
  status (threads k (running k)) = THREAD_RUNNING ->
  holder (locks k l) = Some (running k) ->
  lock_release_critical l k =
    Ok (lock_release_loop l (running k) (lock_list (threads k (running k)))
          (set_donation_priority k (running k) PRI_MIN)).
Proof.
  intros Hs Hh. unfold lock_release_critical.
  rewrite (lock_held_by_current_thread_true l k Hs Hh). cbn [assert bind].
  rewrite (thread_current_running k Hs). cbn [bind].
  do 2 f_equal. cbn. unfold upd. now rewrite Nat.eqb_refl.
Qed.

(** The state [k1] in which [lock_release (l)] calls [sema_up]. *)
Lemma lock_release_critical_spec (l : nat) (k : kernel) :
  status (threads k (running k)) = THREAD_RUNNING ->
  holder (locks k l) = Some (running k) ->
  In l (lock_list (threads k (running k))) ->
  exists k1,
    lock_release_critical l k = Ok k1 /\
    release_frame (running k) l k k1 /\
    holder (locks k1 l) = None /\
    lock_priority (locks k1 l) = PRI_MIN /\
    lock_list (threads k1 (running k))
    = remaining_locks l (lock_list (threads k (running k))) /\
    donation_priority (threads k1 (running k))
    = max_ceiling k (remaining_locks l (lock_list (threads k (running k)))).
Proof.
  intros Hs Hh Hin.
  set (T := running k) in *.
  set (k0 := set_donation_priority k T PRI_MIN).
  exists (lock_release_loop l T (lock_list (threads k T)) k0).
  split; [now apply lock_release_critical_ok |].
  assert (F0 : release_frame T l k k0) by apply set_donation_priority_release_frame.
  assert (F1 := lock_release_loop_frame T l (lock_list (threads k T)) k0).
  split; [eapply release_frame_trans; eassumption |].
  destruct (lock_release_loop_lock l T (lock_list (threads k T)) k0) as [Hl _].
  destruct (Hl Hin) as [Hl1 Hl2].
  destruct (lock_release_loop_lists l T (fun m => lock_priority (locks k m))
              (lock_list (threads k T)) [] k0) as [L1 L2].
  - intros m _. reflexivity.
  - subst k0. cbn. unfold upd. now rewrite Nat.eqb_refl.
  - intros [].
  - repeat split; try assumption.
    rewrite L2. subst k0. cbn. unfold upd. rewrite Nat.eqb_refl. reflexivity.
Qed.

(** C1, as the code has it.  What [lock_release l] has done for a caller
    that holds [l], when its [sema_up] hands the processor to the scheduler:
    in the kernel [k'] in which the thread chosen by the scheduler goes on
    (the kernel in which [lock_release] returns when that thread is the
    caller itself) the lock has no holder and the ceiling [PRI_MIN], the
    caller's donated priority is the greatest ceiling of the locks it still
    holds (0 without any), and its effective priority is the greater of its
    base priority and that ceiling. *)
Theorem lock_release_resets_lock_and_donation (l : nat) (k : kernel) :
  status (threads k (running k)) = THREAD_RUNNING ->
  holder (locks k l) = Some (running k) ->
  In l (lock_list (threads k (running k))) ->
  (forall u, In u (waiters (lock_semaphore (locks k l))) ->
     status (threads k u) = THREAD_BLOCKED) ->
  exists k',
    lock_release l k = Ok k' /\
    holder (locks k' l) = None /\
    lock_priority (locks k' l) = PRI_MIN /\
    lock_list (threads k' (running k))
    = remaining_locks l (lock_list (threads k (running k))) /\
    donation_priority (threads k' (running k))
    = max_ceiling k' (lock_list (threads k' (running k))) /\
    donation_priority (threads k' (running k))
    = max_ceiling k (remaining_locks l (lock_list (threads k (running k)))) /\
    effective_priority (threads k' (running k))
    = Z.max (priority (threads k (running k)))
            (max_ceiling k' (lock_list (threads k' (running k)))).
Proof.
  intros Hs Hh Hin Hb.
  destruct (lock_release_critical_spec l k Hs Hh Hin)
    as (k1 & Hc & F & H1 & H2 & H3 & H4).
  destruct F as (F1 & F2 & F3 & F4 & F5 & F6 & F7 & F8 & F9 & F10 & F11 & F12 & F13 & F14 & F15).
  destruct (sema_up_total (LockSema l) k1) as [k' Hu].
  - rewrite F12, F4. exact Hs.
  - intros u. cbn [get_sema]. rewrite F2, F4. apply Hb.
  - exists k'. unfold lock_release. rewrite Hc. cbn [bind].
    split; [exact Hu |].
    apply sema_up_data_frame in Hu.
    destruct Hu as (D1 & D2 & D3 & _).
    specialize (D1 (running k)). apply thread_data_fields in D1.
    destruct D1 as (Dp & Dd & Dl & _).
    assert (Hll : lock_list (threads k' (running k))
                  = remaining_locks l (lock_list (threads k (running k))))
      by now rewrite Dl.
    assert (Hmc : max_ceiling k' (remaining_locks l (lock_list (threads k (running k))))
                  = max_ceiling k (remaining_locks l (lock_list (threads k (running k))))).
    { apply max_ceiling_ext. intros m Hm. rewrite D3.
      rewrite F1; [reflexivity |].
      intros ->. now apply (remaining_locks_not_In l (lock_list (threads k (running k)))). }
    assert (Hdon : donation_priority (threads k' (running k))
                   = max_ceiling k (remaining_locks l (lock_list (threads k (running k)))))
      by now rewrite Dd.
    repeat split.
    + now rewrite D2.
    + now rewrite D3.
    + exact Hll.
    + now rewrite Hll, Hmc.
    + exact Hdon.
    + rewrite effective_priority_max, Hll, Hmc, Hdon, Dp, F5. reflexivity.
Qed.

(** The kernel after [n] instructions from [k] ([k] itself when they
    cannot all be run). *)
Definition after (fuel n : nat) (k : kernel) : kernel :=
  match run fuel n k with
  | Ok k' => k'
  | _ => k
  end.

(** Simple donation.  Thread 0, of priority 20, takes lock 0 and lets
    thread 1 go, of priority 40, which asks for lock 0 and, having got it,
    sleeps on semaphore 1; thread 0 releases the lock.  Thread 2 is the idle
    thread. *)
Definition simple_donation : kernel :=
  boot [ (0%nat, new_thread 20 THREAD_RUNNING
                   [ILockAcquire 0; ISemaUp 0; ILockRelease 0]);
         (1%nat, new_thread 40 THREAD_BLOCKED
                   [ISemaDown 0; ILockAcquire 0; ISemaDown 1]);
         (2%nat, new_thread PRI_MIN THREAD_BLOCKED [IIdle]) ]
       (upd (fun _ => mkSemaphore 0 []) 0 (mkSemaphore 0 [1%nat]))
       [] 0%nat 2%nat.

(** C1, at the call of [lock_release] in [simple_donation] (four
    instructions in): thread 0 holds lock 0 with priority 40 donated by
    thread 1. *)
Lemma lock_release_resets_simple_donation :
  exists k',
    lock_release 0 (after 8 4 simple_donation) = Ok k' /\
    holder (locks k' 0%nat) = None /\
    lock_priority (locks k' 0%nat) = PRI_MIN /\
    lock_list (threads k' (running (after 8 4 simple_donation)))
    = remaining_locks 0
        (lock_list (threads (after 8 4 simple_donation)
                      (running (after 8 4 simple_donation)))) /\
    donation_priority (threads k' (running (after 8 4 simple_donation)))
    = max_ceiling k' (lock_list (threads k' (running (after 8 4 simple_donation)))) /\
    donation_priority (threads k' (running (after 8 4 simple_donation)))
    = max_ceiling (after 8 4 simple_donation)
        (remaining_locks 0
           (lock_list (threads (after 8 4 simple_donation)
                         (running (after 8 4 simple_donation))))) /\
    effective_priority (threads k' (running (after 8 4 simple_donation)))
    = Z.max (priority (threads (after 8 4 simple_donation)
                         (running (after 8 4 simple_donation))))
            (max_ceiling k' (lock_list (threads k'
                                          (running (after 8 4 simple_donation))))).
Proof.
  apply (lock_release_resets_lock_and_donation 0 (after 8 4 simple_donation)).
  - reflexivity.
  - reflexivity.
  - vm_compute. now left.
  - intros u Hu. vm_compute in Hu. destruct Hu as [<- | []]. reflexivity.
Defined.

(** C1 as it is stated fails in [simple_donation].  After four
    instructions thread 0 is about to call [lock_release] on lock 0, which
    it holds.  Three instructions later the call has returned (thread 0 runs
    again and has nothing left to run): in between, thread 1, woken by the
    call, has run and taken the lock, so the holder of the lock is thread 1
    and not null. *)
Lemma lock_release_returns_with_new_holder :
  observe (fun k => (running k, stack (threads k 0%nat), holder (locks k 0%nat),
                     effective_priority (threads k 0%nat)))
          (run 8 4 simple_donation)
  = Ok (0%nat, [ILockRelease 0], Some 0%nat, 40) /\
  observe (fun k => (running k, stack (threads k 0%nat), holder (locks k 0%nat),
                     effective_priority (threads k 0%nat)))
          (run 8 7 simple_donation)
  = Ok (0%nat, [], Some 1%nat, 20).
Proof. split; reflexivity. Qed.

(** ** The donation walk *)

(** The chain that [donate_priority_recursively] follows from [lock]: each
    lock with its holder, up to a holder that waits for no lock. *)
Inductive wait_chain (k : kernel) : option nat -> list (nat * nat) -> Prop :=
| wait_chain_end : wait_chain k None []
| wait_chain_step (l h : nat) (rest : list (nat * nat)) :
    holder (locks k l) = Some h ->
    wait_chain k (thread_lock (threads k h)) rest ->
    wait_chain k (Some l) ((l, h) :: rest).

(** [k'] differs from [k] at most in lock priorities and donated
    priorities, and these are what they were or have been raised to
    [prio]. *)
Definition donation_frame (prio : Z) (k k' : kernel) : Prop :=
  (forall l, holder (locks k' l) = holder (locks k l)) /\
  (forall l, lock_semaphore (locks k' l) = lock_semaphore (locks k l)) /\
  (forall l, lock_priority (locks k' l) = lock_priority (locks k l) \/
             lock_priority (locks k' l) = Z.max (lock_priority (locks k l)) prio) /\
  (forall t, status (threads k' t) = status (threads k t)) /\
  (forall t, priority (threads k' t) = priority (threads k t)) /\
  (forall t, lock_list (threads k' t) = lock_list (threads k t)) /\
  (forall t, thread_lock (threads k' t) = thread_lock (threads k t)) /\
  (forall t, stack (threads k' t) = stack (threads k t)) /\
  (forall t, donation_priority (threads k' t) = donation_priority (threads k t) \/
             donation_priority (threads k' t)
             = Z.max (donation_priority (threads k t)) prio) /\
  semas k' = semas k /\ waiter_sema k' = waiter_sema k /\ conds k' = conds k /\
  ready_list k' = ready_list k /\ running k' = running k /\
  idle_thread k' = idle_thread k /\ intr_context k' = intr_context k /\
  trace k' = trace k.

Lemma donation_frame_refl (prio : Z) (k : kernel) : donation_frame prio k k.
Proof. unfold donation_frame; repeat split; auto. Qed.

Lemma donation_frame_trans (prio : Z) (k1 k2 k3 : kernel) :
  donation_frame prio k1 k2 -> donation_frame prio k2 k3 -> donation_frame prio k1 k3.
Proof.
  unfold donation_frame.
  intros (A1 & A2 & A3 & A4 & A5 & A6 & A7 & A8 & A9 & A10 & A11 & A12 & A13 & A14
          & A15 & A16 & A17)
         (B1 & B2 & B3 & B4 & B5 & B6 & B7 & B8 & B9 & B10 & B11 & B12 & B13 & B14
          & B15 & B16 & B17).
  repeat split; try congruence; intros x;
    first [ now rewrite B1, A1 | now rewrite B2, A2 | now rewrite B4, A4
          | now rewrite B5, A5 | now rewrite B6, A6 | now rewrite B7, A7
          | now rewrite B8, A8
          | destruct (A3 x), (B3 x); lia
          | destruct (A9 x), (B9 x); lia ].
Qed.

(** One call of the walk: the lock and its holder are raised to [prio]. *)
Definition donate_step (l h : nat) (prio : Z) (k : kernel) : kernel :=
  let k1 := set_lock_priority k l
              (if lock_priority (locks k l) >? prio
               then lock_priority (locks k l) else prio) in
  set_donation_priority k1 h
    (if donation_priority (threads k1 h) >? prio
     then donation_priority (threads k1 h) else prio).

Lemma donate_step_frame (l h : nat) (prio : Z) (k : kernel) :
  donation_frame prio k (donate_step l h prio k) /\
  lock_priority (locks (donate_step l h prio k) l)
  = Z.max (lock_priority (locks k l)) prio /\
  donation_priority (threads (donate_step l h prio k) h)
  = Z.max (donation_priority (threads k h)) prio.
Proof.
  unfold donate_step, donation_frame. rewrite !gtb_max.
  repeat split; cbn; unfold upd; intros;
    repeat match goal with
           | |- context [Nat.eqb ?a ?b] => destruct (Nat.eqb_spec a b); subst
           end;
    cbn; auto; congruence.
Qed.

Lemma donate_unfold (fuel : nat) (l h : nat) (prio : Z) (k : kernel) :
  holder (locks k l) = Some h ->
  donate_priority_recursively (S fuel) (Some l) prio k
  = donate_priority_recursively fuel
      (thread_lock (threads k h)) prio (donate_step l h prio k).
Proof.
  intros Hh. cbn [donate_priority_recursively].
  assert (E : holder (locks (set_lock_priority k l
                 (if lock_priority (locks k l) >? prio
                  then lock_priority (locks k l) else prio)) l) = Some h).
  { cbn. unfold upd. rewrite Nat.eqb_refl. exact Hh. }
  rewrite E. unfold donate_step. f_equal.
  cbn. unfold upd. rewrite Nat.eqb_refl. reflexivity.
Qed.

Lemma donate_null_holder (fuel : nat) (l : nat) (prio : Z) (k : kernel) :
  holder (locks k l) = None ->
  donate_priority_recursively (S fuel) (Some l) prio k = Panic NULL_dereference.
Proof.
  intros Hh. cbn [donate_priority_recursively].
  assert (E : holder (locks (set_lock_priority k l
                 (if lock_priority (locks k l) >? prio
                  then lock_priority (locks k l) else prio)) l) = None).
  { cbn. unfold upd. rewrite Nat.eqb_refl. exact Hh. }
  now rewrite E.
Qed.

Lemma wait_chain_frame (prio : Z) (k k' : kernel) (lock : option nat)
    (chain : list (nat * nat)) :
  donation_frame prio k k' -> wait_chain k lock chain -> wait_chain k' lock chain.
Proof.
  intros (F1 & _ & _ & _ & _ & _ & F7 & _) H.
  induction H as [| l h rest Hh _ IH]; [constructor |].
  econstructor; [now rewrite F1 | now rewrite F7].
Qed.

(** The walk over a chain of [n] locks takes [n] calls, however large [n]
    is, and raises every lock and every holder of the chain. *)
Lemma donate_on_chain (chain : list (nat * nat)) :
  forall (k : kernel) (lock : option nat) (prio : Z),
    wait_chain k lock chain ->
    (forall fuel, (length chain <= fuel)%nat ->
       exists k',
         donate_priority_recursively fuel lock prio k = Ok k' /\
         donation_frame prio k k' /\
         forall l h, In (l, h) chain ->
           lock_priority (locks k' l) = Z.max (lock_priority (locks k l)) prio /\
           donation_priority (threads k' h)
           = Z.max (donation_priority (threads k h)) prio) /\
    (forall fuel, (fuel < length chain)%nat ->
       donate_priority_recursively fuel lock prio k = Diverge).
Proof.
  induction chain as [| [l h] rest IH]; intros k lock prio Hc.
  - inversion Hc; subst. split.
    + intros fuel _. exists k.
      split; [destruct fuel; reflexivity |].
      split; [apply donation_frame_refl | intros l h []].
    + intros fuel Hf. cbn in Hf. lia.
  - inversion Hc as [| l' h' rest' Hh Hrest]; subst.
    destruct (donate_step_frame l h prio k) as (F & Fl & Fh).
    assert (Hc2 := wait_chain_frame prio k _ _ _ F Hrest).
    destruct (IH _ _ prio Hc2) as [IH1 IH2].
    split.
    + intros fuel Hf. destruct fuel as [|fuel]; [cbn in Hf; lia |].
      cbn [length] in Hf. destruct (IH1 fuel) as (k' & Hd & F' & Hall); [lia |].
      exists k'. rewrite (donate_unfold fuel l h prio k Hh).
      split; [exact Hd |].
      split; [eapply donation_frame_trans; eassumption |].
      destruct F' as (_ & _ & G3 & _ & _ & _ & _ & _ & G9 & _).
      destruct F as (_ & _ & E3 & _ & _ & _ & _ & _ & E9 & _).
      intros l0 h0 [E | Hin].
      * injection E as <- <-.
        destruct (G3 l), (G9 h); split; lia.
      * destruct (Hall l0 h0 Hin) as [Hl0 Hh0].
        destruct (E3 l0), (E9 h0); split; lia.
    + intros fuel Hf. destruct fuel as [|fuel]; [reflexivity |].
      rewrite (donate_unfold fuel l h prio k Hh).
      apply IH2. cbn [length] in Hf. lia.
Qed.

(** On two locks that wait for each other the walk goes on for ever. *)
Lemma donate_on_cycle (fuel : nat) :
  forall (k : kernel) (a b ta tb : nat) (prio : Z),
    holder (locks k a) = Some ta -> thread_lock (threads k ta) = Some b ->
    holder (locks k b) = Some tb -> thread_lock (threads k tb) = Some a ->
    donate_priority_recursively fuel (Some a) prio k = Diverge.
Proof.
  induction fuel as [|fuel IH]; intros k a b ta tb prio Ha Hta Hb Htb;
    [reflexivity |].
  rewrite (donate_unfold fuel a ta prio k Ha), Hta.
  destruct (donate_step_frame a ta prio k) as (F & _).
  destruct F as (F1 & _ & _ & _ & _ & _ & F7 & _).
  apply (IH _ b a tb ta); now rewrite ?F1, ?F7.
Qed.

(** ** sema_down and lock_acquire, case by case *)

Lemma thread_block_running (k : kernel) :
  status (threads k (running k)) = THREAD_RUNNING ->
  intr_context k = false ->
  thread_block INTR_OFF k = schedule (set_status k (running k) THREAD_BLOCKED).
Proof.
  intros Hs Hi. unfold thread_block. rewrite Hi.
  cbn [negb intr_level_eqb assert bind].
  now rewrite (thread_current_running k Hs).
Qed.

(** The kernel in which a thread that finds the value 0 calls
    [thread_block]. *)
Definition enqueue_waiter (sema : sema_ptr) (again : instr) (k : kernel) : kernel :=
  let s := get_sema k sema in
  let k1 := set_sema k sema
              (mkSemaphore (value s) (list_push_back (waiters s) (running k))) in
  set_stack k1 (running k) (again :: stack (threads k1 (running k))).

Lemma sema_down_cases (sema : sema_ptr) (again : instr) (k : kernel) :
  status (threads k (running k)) = THREAD_RUNNING ->
  intr_context k = false ->
  (value (get_sema k sema) = 0 /\
   sema_down sema again k
   = (k3 <- thread_block INTR_OFF (enqueue_waiter sema again k) ;; Ok (false, k3))) \/
  (value (get_sema k sema) <> 0 /\
   sema_down sema again k
   = Ok (true, set_sema k sema
                 (mkSemaphore ((value (get_sema k sema) - 1) mod UINT_MODULUS)
                              (waiters (get_sema k sema))))).
Proof.
  intros Hs Hi. unfold sema_down. rewrite Hi. cbn [negb assert bind].
  rewrite (thread_current_running k Hs). cbn [bind].
  destruct (Z.eqb_spec (value (get_sema k sema)) 0) as [E | E].
  - left. split; [exact E | reflexivity].
  - right. split; [exact E | reflexivity].
Qed.

Lemma sema_down_inv (sema : sema_ptr) (again : instr) (k k' : kernel) (b : bool) :
  sema_down sema again k = Ok (b, k') ->
  status (threads k (running k)) = THREAD_RUNNING /\ intr_context k = false.
Proof.
  unfold sema_down. destruct (intr_context k); cbn [negb assert bind]; [discriminate |].
  destruct (thread_current k) as [t| |] eqn:E; cbn [bind]; try discriminate.
  apply thread_current_inv in E. intros _. split; [apply E | reflexivity].
Qed.

Lemma lock_held_by_current_thread_false (l : nat) (k : kernel) :
  status (threads k (running k)) = THREAD_RUNNING ->
  holder (locks k l) <> Some (running k) ->
  lock_held_by_current_thread l k = Ok false.
Proof.
  intros Hs Hh. unfold lock_held_by_current_thread.
  rewrite (thread_current_running k Hs). cbn [bind].
  destruct (holder (locks k l)) as [h|]; [| reflexivity].
  destruct (Nat.eqb_spec h (running k)); [congruence | reflexivity].
Qed.

(** [lock_acquire] on a lock whose semaphore is at 0: the walk, then the
    wait. *)
Lemma lock_acquire_contended (fuel : nat) (l : nat) (k : kernel) :
  status (threads k (running k)) = THREAD_RUNNING ->
  intr_context k = false ->
  holder (locks k l) <> Some (running k) ->
  value (lock_semaphore (locks k l)) = 0 ->
  lock_acquire fuel l k
  = (k2 <- donate_priority_recursively fuel (Some l)
             (effective_priority (threads k (running k))) k ;;
     lock_acquire_wait l (set_thread_lock k2 (running k) (Some l))).
Proof.
  intros Hs Hi Hh Hv. unfold lock_acquire, lock_try_acquire.
  rewrite Hi. cbn [negb assert bind].
  rewrite (lock_held_by_current_thread_false l k Hs Hh). cbn [negb assert bind].
  rewrite (thread_current_running k Hs). cbn [bind].
  unfold sema_try_down. cbn [get_sema]. rewrite Hv. cbn. reflexivity.
Qed.

(** [lock_acquire] on a lock whose semaphore is above 0. *)
Lemma lock_acquire_free (fuel : nat) (l : nat) (k : kernel) :
  status (threads k (running k)) = THREAD_RUNNING ->
  intr_context k = false ->
  holder (locks k l) <> Some (running k) ->
  value (lock_semaphore (locks k l)) > 0 ->
  lock_acquire fuel l k = (r <- lock_try_acquire l k ;; Ok (snd r)) /\
  lock_try_acquire l k
  = Ok (true,
        let k1 := set_sema k (LockSema l)
                    (mkSemaphore ((value (lock_semaphore (locks k l)) - 1)
                                  mod UINT_MODULUS)
                                 (waiters (lock_semaphore (locks k l)))) in
        let k2 := set_holder k1 l (Some (running k)) in
        set_lock_list k2 (running k)
          (list_push_front (lock_list (threads k2 (running k))) l)).
Proof.
  intros Hs Hi Hh Hv.
  assert (E : lock_try_acquire l k
              = Ok (true,
                    let k1 := set_sema k (LockSema l)
                                (mkSemaphore ((value (lock_semaphore (locks k l)) - 1)
                                              mod UINT_MODULUS)
                                             (waiters (lock_semaphore (locks k l)))) in
                    let k2 := set_holder k1 l (Some (running k)) in
                    set_lock_list k2 (running k)
                      (list_push_front (lock_list (threads k2 (running k))) l))).
  { unfold lock_try_acquire.
    rewrite (lock_held_by_current_thread_false l k Hs Hh). cbn [negb assert bind].
    rewrite (thread_current_running k Hs). cbn [bind].
    unfold sema_try_down. cbn [get_sema].
    destruct (Z.gtb_spec (value (lock_semaphore (locks k l))) 0); [reflexivity | lia]. }
  split; [| exact E].
  unfold lock_acquire. rewrite Hi. cbn [negb assert bind].
  rewrite (lock_held_by_current_thread_false l k Hs Hh). cbn [negb assert bind].
  rewrite (thread_current_running k Hs). cbn [bind].
  rewrite E. reflexivity.
Qed.

Lemma get_set_sema_other (k : kernel) (p q : sema_ptr) (s : semaphore) :
  q <> p -> get_sema (set_sema k p s) q = get_sema k q.
Proof.
  intros Hne. destruct p, q; cbn; try reflexivity; unfold upd;
    match goal with
    | |- context [Nat.eqb ?a ?b] => destruct (Nat.eqb_spec a b); subst
    end; try reflexivity; congruence.
Qed.

Lemma sema_ptr_eq_dec (p q : sema_ptr) : {p = q} + {p <> q}.
Proof. decide equality; apply Nat.eq_dec. Qed.

(** The fields of [enqueue_waiter]. *)
Lemma enqueue_waiter_fields (sema : sema_ptr) (again : instr) (k : kernel) :
  running (enqueue_waiter sema again k) = running k /\
  ready_list (enqueue_waiter sema again k) = ready_list k /\
  idle_thread (enqueue_waiter sema again k) = idle_thread k /\
  intr_context (enqueue_waiter sema again k) = intr_context k /\
  trace (enqueue_waiter sema again k) = trace k /\
  conds (enqueue_waiter sema again k) = conds k /\
  (forall t, status (threads (enqueue_waiter sema again k) t) = status (threads k t)) /\
  (forall t, priority (threads (enqueue_waiter sema again k) t)
             = priority (threads k t)) /\
  (forall t, donation_priority (threads (enqueue_waiter sema again k) t)
             = donation_priority (threads k t)) /\
  (forall t, lock_list (threads (enqueue_waiter sema again k) t)
             = lock_list (threads k t)) /\
  (forall t, thread_lock (threads (enqueue_waiter sema again k) t)
             = thread_lock (threads k t)) /\
  (forall t, stack (threads (enqueue_waiter sema again k) t)
             = if Nat.eqb t (running k) then again :: stack (threads k t)
               else stack (threads k t)) /\
  (forall l, holder (locks (enqueue_waiter sema again k) l) = holder (locks k l)) /\
  (forall l, lock_priority (locks (enqueue_waiter sema again k) l)
             = lock_priority (locks k l)) /\
  (forall q, get_sema (enqueue_waiter sema again k) q
             = if sema_ptr_eq_dec q sema
               then mkSemaphore (value (get_sema k sema))
                      (list_push_back (waiters (get_sema k sema)) (running k))
               else get_sema k q).
Proof.
  unfold enqueue_waiter.
  set (s1 := mkSemaphore (value (get_sema k sema))
               (list_push_back (waiters (get_sema k sema)) (running k))).
  assert (T : threads (set_sema k sema s1) = threads k) by apply threads_set_sema.
  assert (R : running (set_sema k sema s1) = running k) by apply running_set_sema.
  destruct (set_sema_data_frame k sema s1) as (_ & D2 & D3 & _).
  cbn. rewrite R, T.
  repeat split;
    try apply ready_list_set_sema; try apply idle_thread_set_sema;
    try apply intr_context_set_sema; try apply trace_set_sema;
    try apply conds_set_sema; try apply D2; try apply D3;
    try (intros t; unfold upd; destruct (Nat.eqb_spec t (running k)) as [-> | _];
         reflexivity).
  intros q. destruct (sema_ptr_eq_dec q sema) as [-> | Hne].
  - destruct sema; cbn; unfold upd; now rewrite Nat.eqb_refl.
  - rewrite <- (get_set_sema_other k sema q s1 Hne).
    destruct q; reflexivity.
Qed.

(** C2, as the code has it.  A call of [lock_acquire] whose
    [lock_try_acquire] fails walks the chain lock, holder, lock the holder
    waits for, and so on, and stops only at a holder that waits for no lock.
    Over a chain of [n] locks that ends so, the walk returns after [n] calls
    of [donate_priority_recursively], whatever [n] is (there is no bound on
    the depth: with fewer than [n] calls allowed it has not returned); every
    lock of the chain then has a ceiling, and every holder a donated
    priority, of at least the caller's effective priority, and the caller
    waits on the lock. *)
Theorem lock_acquire_walks_whole_chain (l : nat) (k : kernel)
    (chain : list (nat * nat)) :
  status (threads k (running k)) = THREAD_RUNNING ->
  intr_context k = false ->
  holder (locks k l) <> Some (running k) ->
  value (lock_semaphore (locks k l)) = 0 ->
  wait_chain k (Some l) chain ->
  (ready_list k = [] -> idle_thread k <> None) ->
  (forall fuel, (length chain <= fuel)%nat ->
     exists k',
       lock_acquire fuel l k = Ok k' /\
       thread_lock (threads k' (running k)) = Some l /\
       In (running k) (waiters (lock_semaphore (locks k' l))) /\
       forall l0 h0, In (l0, h0) chain ->
         lock_priority (locks k' l0)
         = Z.max (lock_priority (locks k l0))
                 (effective_priority (threads k (running k))) /\
         donation_priority (threads k' h0)
         = Z.max (donation_priority (threads k h0))
                 (effective_priority (threads k (running k)))) /\
  (forall fuel, (fuel < length chain)%nat -> lock_acquire fuel l k = Diverge).
Proof.
  intros Hs Hi Hh Hv Hc Hr.
  set (p := effective_priority (threads k (running k))).
  destruct (donate_on_chain chain k (Some l) p Hc) as [D1 D2].
  split.
  - intros fuel Hf. destruct (D1 fuel Hf) as (k2 & Hd & F & Hall).
    rewrite (lock_acquire_contended fuel l k Hs Hi Hh Hv). fold p.
    rewrite Hd. cbn [bind].
    destruct F as (F1 & F2 & F3 & F4 & F5 & F6 & F7 & F8 & F9 & F10 & F11 & F12
                   & F13 & F14 & F15 & F16 & F17).
    set (k3 := set_thread_lock k2 (running k) (Some l)).
    assert (K3 : running k3 = running k /\ intr_context k3 = false /\
                 ready_list k3 = ready_list k /\ idle_thread k3 = idle_thread k /\
                 locks k3 = locks k2 /\
                 (forall t, status (threads k3 t) = status (threads k t)) /\
                 (forall t, donation_priority (threads k3 t)
                            = donation_priority (threads k2 t)) /\
                 thread_lock (threads k3 (running k)) = Some l).
    { subst k3. cbn. rewrite F13, F14, F15, F16. repeat split; try assumption.
      - intros t. unfold upd. destruct (Nat.eqb_spec t (running k)) as [-> | _];
          cbn; apply F4.
      - intros t. unfold upd. destruct (Nat.eqb_spec t (running k)) as [-> | _];
          reflexivity.
      - unfold upd. now rewrite Nat.eqb_refl. }
    destruct K3 as (R3 & I3 & RL3 & ID3 & L3 & S3 & P3 & T3).
    assert (Hs3 : status (threads k3 (running k3)) = THREAD_RUNNING)
      by now rewrite R3, S3.
    assert (Hv3 : value (get_sema k3 (LockSema l)) = 0).
    { cbn [get_sema]. now rewrite L3, F2. }
    unfold lock_acquire_wait.
    destruct (sema_down_cases (LockSema l) (ILockWait l) k3 Hs3 I3)
      as [[_ ->] | [Hne _]]; [| congruence].
    set (k4 := enqueue_waiter (LockSema l) (ILockWait l) k3).
    destruct (enqueue_waiter_fields (LockSema l) (ILockWait l) k3)
      as (E1 & E2 & E3 & E4 & _ & _ & E7 & _ & E9 & _ & E11 & _ & _ & E14 & E15).
    fold k4 in E1, E2, E3, E4, E7, E9, E11, E14, E15.
    assert (Hs4 : status (threads k4 (running k4)) = THREAD_RUNNING)
      by now rewrite E1, E7.
    assert (Hi4 : intr_context k4 = false) by now rewrite E4.
    rewrite (thread_block_running k4 Hs4 Hi4).
    set (k5 := set_status k4 (running k4) THREAD_BLOCKED).
    assert (F45 : sched_frame k4 k5) by apply set_status_frame.
    destruct (schedule_total k5) as [k' Hk'].
    { change (status (upd (threads k4) (running k4)
                        (mkThread THREAD_BLOCKED
                           (priority (threads k4 (running k4)))
                           (donation_priority (threads k4 (running k4)))
                           (lock_list (threads k4 (running k4)))
                           (thread_lock (threads k4 (running k4)))
                           (stack (threads k4 (running k4))))
                        (running k4)) <> THREAD_RUNNING).
      unfold upd. rewrite Nat.eqb_refl. cbn. discriminate. }
    { change (ready_list k4 = [] -> idle_thread k4 <> None).
      rewrite E2, E3, RL3, ID3. exact Hr. }
    rewrite Hk'. cbn [bind].
    exists k'. split; [reflexivity |].
    apply schedule_frame in Hk'. destruct Hk' as [F5' _].
    destruct (sched_frame_trans _ _ _ F45 F5') as (S1 & _ & _ & _ & _ & _ & S7).
    assert (S7' := fun t => thread_data_fields _ _ (S7 t)).
    repeat split.
    + destruct (S7' (running k)) as (_ & _ & _ & -> & _). now rewrite E11.
    + rewrite S1. change (locks k4 l) with (locks k4 l).
      assert (G := E15 (LockSema l)). cbn [get_sema] in G. rewrite G.
      destruct (sema_ptr_eq_dec (LockSema l) (LockSema l)); [| congruence].
      cbn [waiters]. unfold list_push_back. apply in_or_app. right. left. exact R3.
    + rewrite S1, E14, L3. now apply (Hall l0 h0).
    + destruct (S7' h0) as (_ & -> & _). rewrite E9, P3. now apply (Hall l0 h0).
  - intros fuel Hf.
    rewrite (lock_acquire_contended fuel l k Hs Hi Hh Hv). fold p.
    now rewrite (D2 fuel Hf).
Qed.

(** Thread 0, of priority 40, asks for lock 1.  For [i] from 1 to 10,
    thread [i] holds lock [i]; for [i] from 1 to 9 it waits for lock
    [i + 1]; thread 10 is ready; thread 11 is the idle thread. *)
Definition long_chain : kernel :=
  mkKernel
    (fun t =>
       if Nat.eqb t 0 then new_thread 40 THREAD_RUNNING [ILockAcquire 1]
       else if Nat.leb t 9
            then mkThread THREAD_BLOCKED 10 PRI_MIN [t] (Some (S t)) [ILockWait (S t)]
            else if Nat.eqb t 10
                 then mkThread THREAD_READY 10 PRI_MIN [t] None []
                 else new_thread PRI_MIN THREAD_BLOCKED [IIdle])
    (fun l =>
       mkLock (Some l)
              (mkSemaphore 0 (if Nat.leb 2 l && Nat.leb l 10 then [Nat.pred l] else []))
              PRI_MIN)
    (fun _ => mkSemaphore 0 [])
    (fun _ => mkSemaphore 0 [])
    (fun _ => [])
    [10%nat] 0%nat (Some 11%nat) false [].

Definition long_chain_locks : list (nat * nat) :=
  map (fun i => (i, i)) (seq 1 10).

Lemma long_chain_wait_chain : wait_chain long_chain (Some 1%nat) long_chain_locks.
Proof.
  unfold long_chain_locks. cbn [seq map].
  repeat (eapply wait_chain_step; [reflexivity | cbn]).
  apply wait_chain_end.
Qed.

(** C2 on [long_chain]: ten locks are walked. *)
Lemma lock_acquire_walks_long_chain :
  (forall fuel, (length long_chain_locks <= fuel)%nat ->
     exists k',
       lock_acquire fuel 1 long_chain = Ok k' /\
       thread_lock (threads k' (running long_chain)) = Some 1%nat /\
       In (running long_chain) (waiters (lock_semaphore (locks k' 1%nat))) /\
       forall l0 h0, In (l0, h0) long_chain_locks ->
         lock_priority (locks k' l0)
         = Z.max (lock_priority (locks long_chain l0))
                 (effective_priority (threads long_chain (running long_chain))) /\
         donation_priority (threads k' h0)
         = Z.max (donation_priority (threads long_chain h0))
                 (effective_priority (threads long_chain (running long_chain)))) /\
  (forall fuel, (fuel < length long_chain_locks)%nat ->
     lock_acquire fuel 1 long_chain = Diverge).
Proof.
  apply (lock_acquire_walks_whole_chain 1 long_chain long_chain_locks).
  - reflexivity.
  - reflexivity.
  - cbn. discriminate.
  - reflexivity.
  - exact long_chain_wait_chain.
  - cbn. discriminate.
Defined.

(** The lock and the holder at depth ten are raised to 40. *)
Example long_chain_depth_ten :
  observe (fun k => (lock_priority (locks k 10%nat),
                     donation_priority (threads k 10%nat)))
          (lock_acquire 10 1 long_chain) = Ok (40, 40).
Proof. reflexivity. Qed.

(** A cycle.  Thread 0 takes lock 0 and wakes thread 1, which takes lock
    1 and asks for lock 0; thread 0 then asks for lock 1.  Thread 2, of
    lower priority, then asks for lock 0.  Thread 3 is the idle thread. *)
Definition wait_cycle : kernel :=
  boot [ (0%nat, new_thread 30 THREAD_RUNNING
                   [ILockAcquire 0; ISemaUp 0; ILockAcquire 1]);
         (1%nat, new_thread 31 THREAD_BLOCKED
                   [ISemaDown 0; ILockAcquire 1; ILockAcquire 0]);
         (2%nat, new_thread 20 THREAD_READY [ILockAcquire 0]);
         (3%nat, new_thread PRI_MIN THREAD_BLOCKED [IIdle]) ]
       (upd (fun _ => mkSemaphore 0 []) 0 (mkSemaphore 0 [1%nat]))
       [2%nat] 0%nat 3%nat.

Lemma set_stack_fields (k : kernel) (cur : nat) (v : list instr) :
  locks (set_stack k cur v) = locks k /\
  semas (set_stack k cur v) = semas k /\
  waiter_sema (set_stack k cur v) = waiter_sema k /\
  conds (set_stack k cur v) = conds k /\
  ready_list (set_stack k cur v) = ready_list k /\
  running (set_stack k cur v) = running k /\
  idle_thread (set_stack k cur v) = idle_thread k /\
  intr_context (set_stack k cur v) = intr_context k /\
  trace (set_stack k cur v) = trace k /\
  (forall t, status (threads (set_stack k cur v) t) = status (threads k t)) /\
  (forall t, priority (threads (set_stack k cur v) t) = priority (threads k t)) /\
  (forall t, donation_priority (threads (set_stack k cur v) t)
             = donation_priority (threads k t)) /\
  (forall t, lock_list (threads (set_stack k cur v) t) = lock_list (threads k t)) /\
  (forall t, thread_lock (threads (set_stack k cur v) t) = thread_lock (threads k t)) /\
  (forall t, stack (threads (set_stack k cur v) t)
             = if Nat.eqb t cur then v else stack (threads k t)) /\
  (forall p, get_sema (set_stack k cur v) p = get_sema k p).
Proof.
  cbn. repeat split; intros t; unfold upd;
    first [ destruct (Nat.eqb_spec t cur) as [-> | _]; reflexivity
          | destruct t; reflexivity ].
Qed.

(** A thread that asks for a lock on a cycle of two waiting threads never
    comes back from the walk. *)
Lemma step_lock_acquire_on_cycle (fuel : nat) (k : kernel) (l b ta tb : nat)
    (rest : list instr) :
  status (threads k (running k)) = THREAD_RUNNING ->
  stack (threads k (running k)) = ILockAcquire l :: rest ->
  intr_context k = false ->
  value (lock_semaphore (locks k l)) = 0 ->
  holder (locks k l) = Some ta -> ta <> running k ->
  thread_lock (threads k ta) = Some b ->
  holder (locks k b) = Some tb ->
  thread_lock (threads k tb) = Some l ->
  step fuel k = Diverge.
Proof.
  intros Hs Hst Hi Hv Hl Hne Hta Hb Htb.
  unfold step. rewrite (thread_current_running k Hs). cbn [bind].
  rewrite Hst. cbn [exec].
  destruct (set_stack_fields k (running k) rest)
    as (E1 & _ & _ & _ & _ & E6 & _ & E8 & _ & E10 & _ & _ & _ & E14 & _).
  rewrite lock_acquire_contended.
  - rewrite (donate_on_cycle fuel _ l b ta tb); [reflexivity | | | |];
      now rewrite ?E1, ?E14.
  - now rewrite E6, E10.
  - now rewrite E8.
  - rewrite E1, E6, Hl. congruence.
  - now rewrite E1.
Qed.

(** C2 as it is stated fails in [wait_cycle].  After six instructions
    threads 0 and 1 wait for each other's lock and thread 2 is about to call
    [lock_acquire] on lock 0; whatever number of calls the walk of this
    [lock_acquire] is allowed, it has not returned. *)
Lemma lock_acquire_walk_hangs_on_cycle :
  observe (fun k => (running k, stack (threads k 2%nat),
                     holder (locks k 0%nat), thread_lock (threads k 0%nat),
                     holder (locks k 1%nat), thread_lock (threads k 1%nat)))
          (run 8 6 wait_cycle)
  = Ok (2%nat, [ILockAcquire 0], Some 0%nat, Some 1%nat, Some 1%nat, Some 0%nat) /\
  forall fuel, step fuel (after 8 6 wait_cycle) = Diverge.
Proof.
  split; [reflexivity |].
  intros fuel.
  apply (step_lock_acquire_on_cycle fuel (after 8 6 wait_cycle) 0 1 0 1 []);
    try (vm_compute; reflexivity).
  vm_compute. discriminate.
Qed.

(** Thread 0 holds lock 2 and thread 1 holds lock 1.  Thread 1 asks for
    lock 2 and blocks; thread 0, its priority raised to 50, releases lock 2
    and keeps the processor, so that thread 1, woken, has not yet taken the
    lock: lock 2 has no holder and thread 1 still waits for it.  Thread 0
    then asks for lock 1.  Thread 2 is the idle thread. *)
Definition stale_wait : kernel :=
  boot [ (0%nat, new_thread 5 THREAD_RUNNING
                   [ILockAcquire 2; IYield; ISetPriority 50; ILockRelease 2;
                    ILockAcquire 1]);
         (1%nat, new_thread 10 THREAD_READY [ILockAcquire 1; ILockAcquire 2]);
         (2%nat, new_thread PRI_MIN THREAD_BLOCKED [IIdle]) ]
       (fun _ => mkSemaphore 0 [])
       [1%nat] 0%nat 2%nat.

(** The walk of [donate_priority_recursively] goes from lock 1 to its
    holder, thread 1, and on to lock 2, whose holder it reads without
    looking whether there is one. *)
Example lock_acquire_walk_reads_null_holder :
  observe (fun k => (running k, stack (threads k 0%nat),
                     holder (locks k 1%nat), thread_lock (threads k 1%nat),
                     holder (locks k 2%nat)))
          (run 8 6 stale_wait)
  = Ok (0%nat, [ILockAcquire 1], Some 1%nat, Some 2%nat, None) /\
  observe running (run 8 7 stale_wait) = Panic NULL_dereference.
Proof. split; vm_compute; reflexivity. Qed.

(** ** cond_signal and donated priorities *)

(** Threads 1 (priority 10) and 2 (priority 20) wait on condition 0 under
    lock 0, thread 1 holding lock 1 meanwhile.  Thread 3 (priority 50) then
    asks for lock 1 and so donates its priority to thread 1.  Thread 0
    (priority 5) then signals the condition.  Thread 4 is the idle
    thread. *)
Definition cond_donation : kernel :=
  boot [ (0%nat, new_thread 5 THREAD_RUNNING
                   [IYield; ISemaUp 0; ILockAcquire 0; ICondSignal 0 0; ILockRelease 0]);
         (1%nat, new_thread 10 THREAD_READY
                   [ILockAcquire 1; ILockAcquire 0; ICondWait 0 0 0]);
         (2%nat, new_thread 20 THREAD_READY
                   [ILockAcquire 0; ICondWait 0 0 0]);
         (3%nat, new_thread 50 THREAD_BLOCKED
                   [ISemaDown 0; ILockAcquire 1]);
         (4%nat, new_thread PRI_MIN THREAD_BLOCKED [IIdle]) ]
       (upd (fun _ => mkSemaphore 0 []) 0 (mkSemaphore 0 [3%nat]))
       [1; 2]%nat 0%nat 4%nat.

(** C4 at [cond_donation].  After twelve instructions thread 0 is about
    to signal condition 0, on which threads 1 and 2 wait; thread 1 has base
    priority 10 and, by donation, effective priority 50; thread 2 has
    priority 20.  [cond_signal] wakes thread 2 (the wake order so far being
    thread 3, at the start), and leaves thread 1 waiting. *)
Lemma cond_signal_orders_by_base_priority :
  observe (fun k => (running k, stack (threads k 0%nat), conds k 0%nat,
                     map (fun t => (priority (threads k t),
                                    effective_priority (threads k t)))
                         (conds k 0%nat),
                     wake_order k))
          (run 8 12 cond_donation)
  = Ok (0%nat, [ICondSignal 0 0; ILockRelease 0], [1; 2]%nat,
        [(10, 50); (20, 20)], [3%nat]) /\
  observe (fun k => (wake_order k, conds k 0%nat))
          (cond_signal 0 0 (set_stack (after 8 12 cond_donation) 0 [ILockRelease 0]))
  = Ok ([3; 2]%nat, [1%nat]) /\
  observe (fun k => (wake_order k, conds k 0%nat)) (run 8 13 cond_donation)
  = Ok ([3; 2]%nat, [1%nat]).
Proof. repeat split; vm_compute; reflexivity. Qed.

(** The sorting function reads the [priority] field alone. *)
Lemma cond_priority_cmp_base_only (k : kernel) (a b ta tb : nat)
    (ra rb : list nat) :
  waiters (waiter_sema k a) = ta :: ra ->
  waiters (waiter_sema k b) = tb :: rb ->
  cond_priority_cmp k a b = Ok (priority (threads k ta) >? priority (threads k tb)).
Proof. intros Ha Hb. unfold cond_priority_cmp. now rewrite Ha, Hb. Qed.

(** ** Semaphore value and waiters *)



(** ** The kernel functions taken apart *)

Lemma bind_Ok (A B : Type) (m : outcome A) (f : A -> outcome B) (b : B) :
  bind m f = Ok b -> exists a, m = Ok a /\ f a = Ok b.
Proof. destruct m as [a| |]; cbn; try discriminate. intros H. now exists a. Qed.

Lemma assert_Ok (c : bool) (w : panic) (u : unit) : assert c w = Ok u -> c = true.
Proof. destruct c; cbn; [reflexivity | discriminate]. Qed.

Ltac bind_inv H :=
  let a := fresh "a" in
  let Ha := fresh "Ha" in
  apply bind_Ok in H; destruct H as (a & Ha & H).

Lemma lock_held_by_current_thread_inv (l : nat) (k : kernel) (b : bool) :
  lock_held_by_current_thread l k = Ok b ->
  status (threads k (running k)) = THREAD_RUNNING /\
  (b = true <-> holder (locks k l) = Some (running k)).
Proof.
  unfold lock_held_by_current_thread. intros H. bind_inv H.
  apply thread_current_inv in Ha. destruct Ha as [-> Hs].
  injection H as <-. split; [exact Hs |].
  destruct (holder (locks k l)) as [h|]; [| split; discriminate].
  destruct (Nat.eqb_spec h (running k)) as [-> | Hne]; split; congruence.
Qed.

(** The kernel in which a yielding thread calls [schedule]. *)
Definition yield_prepare (k : kernel) : kernel :=
  let cur := running k in
  let k1 :=
    match idle_thread k with
    | Some i => if Nat.eqb cur i then k
                else set_ready_list k (list_push_back (ready_list k) cur)
    | None => set_ready_list k (list_push_back (ready_list k) cur)
    end in
  log (EvYield cur) (set_status k1 cur THREAD_READY).

Lemma thread_yield_decomp (k k' : kernel) :
  thread_yield k = Ok k' ->
  status (threads k (running k)) = THREAD_RUNNING /\
  intr_context k = false /\
  schedule (yield_prepare k) = Ok k'.
Proof.
  unfold thread_yield. intros H. bind_inv H.
  apply thread_current_inv in Ha. destruct Ha as [-> Hs].
  bind_inv H. apply assert_Ok in Ha. apply negb_true_iff in Ha.
  repeat split; assumption.
Qed.

Lemma sema_down_decomp (sema : sema_ptr) (again : instr) (k k' : kernel) (b : bool) :
  sema_down sema again k = Ok (b, k') ->
  status (threads k (running k)) = THREAD_RUNNING /\
  intr_context k = false /\
  ((b = false /\ value (get_sema k sema) = 0 /\
    schedule (set_status (enqueue_waiter sema again k) (running k) THREAD_BLOCKED)
    = Ok k') \/
   (b = true /\ value (get_sema k sema) <> 0 /\
    k' = set_sema k sema
           (mkSemaphore ((value (get_sema k sema) - 1) mod UINT_MODULUS)
                        (waiters (get_sema k sema))))).
Proof.
  intros H. destruct (sema_down_inv _ _ _ _ _ H) as [Hs Hi].
  split; [exact Hs |]. split; [exact Hi |].
  destruct (sema_down_cases sema again k Hs Hi) as [[Hv E] | [Hv E]];
    rewrite E in H.
  - left. bind_inv H. injection H as <- <-.
    destruct (enqueue_waiter_fields sema again k)
      as (E1 & _ & _ & E4 & _ & _ & E7 & _).
    rewrite thread_block_running in Ha by (now rewrite ?E1, ?E7, ?E4).
    rewrite E1 in Ha. repeat split; assumption.
  - right. injection H as <- <-. repeat split; assumption.
Qed.

Lemma sema_up_decomp (sema : sema_ptr) (k k' : kernel) :
  sema_up sema k = Ok k' ->
  exists k1,
    sema_up_wake sema k = Ok k1 /\
    ((intr_context k1 = true /\
      k' = set_sema k1 sema
             (mkSemaphore ((value (get_sema k1 sema) + 1) mod UINT_MODULUS)
                          (waiters (get_sema k1 sema)))) \/
     (intr_context k1 = false /\
      thread_yield (set_sema k1 sema
                      (mkSemaphore ((value (get_sema k1 sema) + 1) mod UINT_MODULUS)
                                   (waiters (get_sema k1 sema)))) = Ok k')).
Proof.
  unfold sema_up, sema_up_critical. intros H. bind_inv H. bind_inv Ha.
  injection Ha as <-. exists a0. split; [exact Ha0 |].
  rewrite intr_context_set_sema in H.
  destruct (intr_context a0); cbn [negb] in H.
  - left. injection H as <-. split; reflexivity.
  - right. split; [reflexivity | exact H].
Qed.

Lemma lock_try_acquire_decomp (l : nat) (k k' : kernel) (b : bool) :
  lock_try_acquire l k = Ok (b, k') ->
  status (threads k (running k)) = THREAD_RUNNING /\
  holder (locks k l) <> Some (running k) /\
  ((b = true /\ value (lock_semaphore (locks k l)) > 0 /\
    k' = (let k1 := set_sema k (LockSema l)
                      (mkSemaphore ((value (lock_semaphore (locks k l)) - 1)
                                    mod UINT_MODULUS)
                                   (waiters (lock_semaphore (locks k l)))) in
          let k2 := set_holder k1 l (Some (running k)) in
          set_lock_list k2 (running k)
            (list_push_front (lock_list (threads k2 (running k))) l))) \/
   (b = false /\ value (lock_semaphore (locks k l)) <= 0 /\ k' = k)).
Proof.
  unfold lock_try_acquire. intros H. bind_inv H.
  apply lock_held_by_current_thread_inv in Ha. destruct Ha as [Hs Hh].
  bind_inv H. apply assert_Ok in Ha. apply negb_true_iff in Ha. subst a.
  bind_inv H. apply thread_current_inv in Ha. destruct Ha as [-> _].
  split; [exact Hs |]. split; [intros E; apply Hh in E; discriminate |].
  unfold sema_try_down in H. cbn [get_sema] in H.
  destruct (Z.gtb_spec (value (lock_semaphore (locks k l))) 0) as [Hv | Hv].
  - left. injection H as <- <-. repeat split. lia.
  - right. injection H as <- <-. repeat split. lia.
Qed.

(** The end of [lock_acquire], once [sema_down] has returned. *)
Definition lock_acquire_tail (l : nat) (current_thread : nat) (k1 : kernel) : kernel :=
  let k2 := set_holder k1 l (Some current_thread) in
  let k3 := set_thread_lock k2 current_thread None in
  set_lock_list k3 current_thread
    (list_push_front (lock_list (threads k3 current_thread)) l).

Lemma lock_acquire_wait_decomp (l : nat) (k k' : kernel) :
  lock_acquire_wait l k = Ok k' ->
  exists b k1,
    sema_down (LockSema l) (ILockWait l) k = Ok (b, k1) /\
    ((b = true /\ k' = lock_acquire_tail l (running k) k1) \/
     (b = false /\ k' = k1)).
Proof.
  unfold lock_acquire_wait. intros H. bind_inv H. destruct a as [b k1].
  exists b, k1. split; [exact Ha |].
  destruct b; injection H as <-; [left | right]; split; reflexivity.
Qed.

Lemma lock_acquire_decomp (fuel : nat) (l : nat) (k k' : kernel) :
  lock_acquire fuel l k = Ok k' ->
  status (threads k (running k)) = THREAD_RUNNING /\
  intr_context k = false /\
  holder (locks k l) <> Some (running k) /\
  (lock_try_acquire l k = Ok (true, k') \/
   (lock_try_acquire l k = Ok (false, k) /\
    exists k2,
      donate_priority_recursively fuel (Some l)
        (effective_priority (threads k (running k))) k = Ok k2 /\
      lock_acquire_wait l (set_thread_lock k2 (running k) (Some l)) = Ok k')).
Proof.
  unfold lock_acquire. intros H. bind_inv H.
  apply assert_Ok in Ha. apply negb_true_iff in Ha. rename Ha into Hi.
  bind_inv H. apply lock_held_by_current_thread_inv in Ha. destruct Ha as [Hs Hh].
  bind_inv H. apply assert_Ok in Ha. apply negb_true_iff in Ha. subst a0.
  bind_inv H. apply thread_current_inv in Ha. destruct Ha as [-> _].
  bind_inv H. destruct a0 as [b k1].
  split; [exact Hs |]. split; [exact Hi |].
  split; [intros E; apply Hh in E; discriminate |].
  destruct b.
  - left. injection H as <-. exact Ha.
  - right. destruct (lock_try_acquire_decomp _ _ _ _ Ha) as (_ & _ & [[E _] | (_ & _ & ->)]);
      [discriminate |].
    split; [exact Ha |]. bind_inv H. exists a0. split; assumption.
Qed.

Lemma lock_release_decomp (l : nat) (k k' : kernel) :
  lock_release l k = Ok k' ->
  status (threads k (running k)) = THREAD_RUNNING /\
  holder (locks k l) = Some (running k) /\
  sema_up (LockSema l)
    (lock_release_loop l (running k) (lock_list (threads k (running k)))
       (set_donation_priority k (running k) PRI_MIN)) = Ok k'.
Proof.
  intros H.
  assert (P : status (threads k (running k)) = THREAD_RUNNING /\
              holder (locks k l) = Some (running k)).
  { unfold lock_release, lock_release_critical in H. bind_inv H. bind_inv Ha.
    apply lock_held_by_current_thread_inv in Ha0. destruct Ha0 as [Hs Hh].
    bind_inv Ha. apply assert_Ok in Ha0. subst a0.
    split; [exact Hs | now apply Hh]. }
  destruct P as [Hs Hh]. split; [exact Hs |]. split; [exact Hh |].
  unfold lock_release in H.
  rewrite (lock_release_critical_ok l k Hs Hh) in H. exact H.
Qed.

(** The kernel in which [cond_wait] calls [lock_release]. *)
Definition cond_wait_prepare (c l pos : nat) (k : kernel) : kernel :=
  let cur := running k in
  let k1 := sema_init (WaiterSema cur) 0 k in
  let k2 := set_conds k1 (upd (conds k1) c (list_insert_at pos (conds k1 c) cur)) in
  set_stack k2 cur (IWaiterDown :: ILockAcquire l :: stack (threads k2 cur)).

Lemma cond_wait_decomp (c l pos : nat) (k k' : kernel) :
  cond_wait c l pos k = Ok k' ->
  status (threads k (running k)) = THREAD_RUNNING /\
  intr_context k = false /\
  holder (locks k l) = Some (running k) /\
  lock_release l (cond_wait_prepare c l pos k) = Ok k'.
Proof.
  unfold cond_wait. intros H. bind_inv H.
  apply assert_Ok in Ha. apply negb_true_iff in Ha. rename Ha into Hi.
  bind_inv H. apply lock_held_by_current_thread_inv in Ha. destruct Ha as [Hs Hh].
  bind_inv H. apply assert_Ok in Ha. subst a0.
  bind_inv H. apply thread_current_inv in Ha. destruct Ha as [-> _].
  repeat split; try assumption. now apply Hh.
Qed.

(** The kernel in which [cond_signal] calls [sema_up] on the semaphore of
    the waiter [w], the other waiters being [rest]. *)
Definition cond_signal_prepare (c : nat) (rest : list nat) (k : kernel) : kernel :=
  let cur := running k in
  let k1 := set_conds k (upd (conds k) c rest) in
  set_stack k1 cur (IYield :: stack (threads k1 cur)).

Lemma cond_signal_decomp (c l : nat) (k k' : kernel) :
  cond_signal c l k = Ok k' ->
  status (threads k (running k)) = THREAD_RUNNING /\
  intr_context k = false /\
  holder (locks k l) = Some (running k) /\
  ((conds k c = [] /\ thread_yield k = Ok k') \/
   (exists w rest,
      conds k c <> [] /\
      list_sort (cond_priority_cmp k) (conds k c) = Ok (w :: rest) /\
      sema_up (WaiterSema w) (cond_signal_prepare c rest k) = Ok k')).
Proof.
  unfold cond_signal. intros H. bind_inv H.
  apply assert_Ok in Ha. apply negb_true_iff in Ha. rename Ha into Hi.
  bind_inv H. apply lock_held_by_current_thread_inv in Ha. destruct Ha as [Hs Hh].
  bind_inv H. apply assert_Ok in Ha. subst a0.
  bind_inv H. apply thread_current_inv in Ha. destruct Ha as [-> _].
  split; [exact Hs |]. split; [exact Hi |]. split; [now apply Hh |].
  destruct (conds k c) as [|x xs] eqn:Ec; cbn [list_empty negb] in H.
  - left. rewrite Hi in H. cbn [negb] in H. split; [reflexivity | exact H].
  - right. apply bind_Ok in H. destruct H as (sorted & Hsort & H).
    apply bind_Ok in H. destruct H as ([w rest] & Hpop & H).
    destruct sorted as [|y ys]; cbn in Hpop; [discriminate |].
    injection Hpop as -> ->.
    exists w, rest. split; [discriminate |]. split; [exact Hsort | exact H].
Qed.

Lemma cond_broadcast_decomp (c l : nat) (k k' : kernel) :
  cond_broadcast c l k = Ok k' ->
  (conds k c = [] /\ k' = k) \/
  (conds k c <> [] /\
   cond_signal c l
     (set_stack k (running k) (ICondBroadcast c l :: stack (threads k (running k))))
   = Ok k').
Proof.
  unfold cond_broadcast.
  destruct (conds k c) as [|x xs] eqn:Ec; cbn [list_empty negb].
  - intros H; injection H as <-. left. split; reflexivity.
  - intros H. right. split; [discriminate | exact H].
Qed.

Lemma thread_set_priority_decomp (p : Z) (k k' : kernel) :
  thread_set_priority p k = Ok k' ->
  status (threads k (running k)) = THREAD_RUNNING /\
  thread_yield (set_priority k (running k) p) = Ok k'.
Proof.
  unfold thread_set_priority. intros H. bind_inv H.
  apply thread_current_inv in Ha. destruct Ha as [-> Hs]. split; assumption.
Qed.

Lemma thread_exit_decomp (k k' : kernel) :
  thread_exit k = Ok k' ->
  status (threads k (running k)) = THREAD_RUNNING /\
  intr_context k = false /\
  schedule (set_status k (running k) THREAD_DYING) = Ok k'.
Proof.
  unfold thread_exit. intros H. bind_inv H.
  apply assert_Ok in Ha. apply negb_true_iff in Ha. rename Ha into Hi.
  bind_inv H. apply thread_current_inv in Ha. destruct Ha as [-> Hs].
  repeat split; assumption.
Qed.

Lemma thread_block_decomp (k k' : kernel) :
  thread_block INTR_OFF k = Ok k' ->
  status (threads k (running k)) = THREAD_RUNNING /\
  intr_context k = false /\
  schedule (set_status k (running k) THREAD_BLOCKED) = Ok k'.
Proof.
  unfold thread_block. intros H. bind_inv H.
  apply assert_Ok in Ha. apply negb_true_iff in Ha. rename Ha into Hi.
  cbn [intr_level_eqb assert bind] in H.
  bind_inv H. apply thread_current_inv in Ha. destruct Ha as [-> Hs].
  repeat split; assumption.
Qed.

Lemma idle_decomp (k k' : kernel) :
  idle k = Ok k' ->
  status (threads k (running k)) = THREAD_RUNNING /\
  intr_context k = false /\
  schedule (set_status
              (set_stack k (running k) (IIdle :: stack (threads k (running k))))
              (running k) THREAD_BLOCKED) = Ok k'.
Proof.
  unfold idle. intros H. bind_inv H.
  apply thread_current_inv in Ha. destruct Ha as [-> Hs].
  apply thread_block_decomp in H. destruct H as (_ & Hi & H).
  repeat split; assumption.
Qed.

(** ** Locks: holder and semaphore value *)

(** A lock is free with its semaphore at 1, or held with its semaphore
    at 0. *)
Definition lock_consistent (lk : lock) : Prop :=
  (holder lk = None /\ value (lock_semaphore lk) = 1) \/
  (holder lk <> None /\ value (lock_semaphore lk) = 0).

(** Every lock is consistent and stands in the lock list of its holder. *)
Definition locks_inv (k : kernel) : Prop :=
  (forall l, lock_consistent (locks k l)) /\
  (forall l t, holder (locks k l) = Some t -> In l (lock_list (threads k t))).

(** [k'] has the holders, the lock semaphore values and the lock lists of
    [k]. *)
Definition locks_frame (k k' : kernel) : Prop :=
  (forall l, holder (locks k' l) = holder (locks k l)) /\
  (forall l, value (lock_semaphore (locks k' l)) = value (lock_semaphore (locks k l))) /\
  (forall t, lock_list (threads k' t) = lock_list (threads k t)).

Lemma locks_frame_refl (k : kernel) : locks_frame k k.
Proof. unfold locks_frame; repeat split. Qed.

Lemma locks_frame_trans (k1 k2 k3 : kernel) :
  locks_frame k1 k2 -> locks_frame k2 k3 -> locks_frame k1 k3.
Proof.
  intros (A1 & A2 & A3) (B1 & B2 & B3).
  repeat split; intros x; [now rewrite B1, A1 | now rewrite B2, A2 | now rewrite B3, A3].
Qed.

Lemma locks_frame_inv (k k' : kernel) :
  locks_frame k k' -> locks_inv k -> locks_inv k'.
Proof.
  intros (F1 & F2 & F3) [I1 I2]. split.
  - intros l. unfold lock_consistent. rewrite F1, F2. apply I1.
  - intros l t. rewrite F1, F3. apply I2.
Qed.

Lemma sched_frame_locks_frame (k k' : kernel) : sched_frame k k' -> locks_frame k k'.
Proof.
  intros (A1 & _ & _ & _ & _ & _ & A7). unfold locks_frame. rewrite A1.
  repeat split. intros t. now destruct (thread_data_fields _ _ (A7 t)) as (_ & _ & -> & _).
Qed.

Lemma donation_frame_locks_frame (p : Z) (k k' : kernel) :
  donation_frame p k k' -> locks_frame k k'.
Proof.
  intros (F1 & F2 & _ & _ & _ & F6 & _). repeat split; try assumption.
  intros l. now rewrite F2.
Qed.

Lemma set_stack_locks_frame (k : kernel) (t : nat) (v : list instr) :
  locks_frame k (set_stack k t v).
Proof.
  destruct (set_stack_fields k t v) as (E1 & _ & _ & _ & _ & _ & _ & _ & _ & _ & _ & _ & E13 & _).
  unfold locks_frame. rewrite E1. repeat split. exact E13.
Qed.

Lemma set_thread_lock_locks_frame (k : kernel) (t : nat) (v : option nat) :
  locks_frame k (set_thread_lock k t v).
Proof. unfold locks_frame. frame_by_cases. Qed.

Lemma set_priority_locks_frame (k : kernel) (t : nat) (v : Z) :
  locks_frame k (set_priority k t v).
Proof. unfold locks_frame. frame_by_cases. Qed.

Lemma set_conds_locks_frame (k : kernel) (v : nat -> list nat) :
  locks_frame k (set_conds k v).
Proof. unfold locks_frame. frame_by_cases. Qed.

Lemma set_sema_locks_frame (k : kernel) (p : sema_ptr) (s : semaphore) :
  value s = value (get_sema k p) \/ (forall l, p <> LockSema l) ->
  locks_frame k (set_sema k p s).
Proof.
  intros H. unfold locks_frame. destruct p as [l | s0 | t]; cbn;
    try (repeat split; fail).
  destruct H as [H | H]; [| now elim (H l)].
  repeat split; intros m; unfold upd;
    destruct (Nat.eqb_spec m l) as [-> | _]; cbn; auto.
Qed.

Lemma enqueue_waiter_locks_frame (sema : sema_ptr) (again : instr) (k : kernel) :
  locks_frame k (enqueue_waiter sema again k).
Proof.
  destruct (enqueue_waiter_fields sema again k)
    as (_ & _ & _ & _ & _ & _ & _ & _ & _ & E10 & _ & _ & E13 & _ & E15).
  repeat split; try assumption.
  intros l. assert (G := E15 (LockSema l)). cbn [get_sema] in G. rewrite G.
  destruct (sema_ptr_eq_dec (LockSema l) sema) as [<- | _]; reflexivity.
Qed.

Lemma schedule_locks_frame (k k' : kernel) : schedule k = Ok k' -> locks_frame k k'.
Proof. intros H. apply sched_frame_locks_frame. now apply schedule_frame in H. Qed.

Lemma thread_yield_locks_frame (k k' : kernel) :
  thread_yield k = Ok k' -> locks_frame k k'.
Proof.
  intros H. apply sched_frame_locks_frame.
  now apply thread_yield_inv in H.
Qed.

Lemma sema_up_wake_locks_frame (sema : sema_ptr) (k k' : kernel) :
  sema_up_wake sema k = Ok k' ->
  locks_frame k k' /\ value (get_sema k' sema) = value (get_sema k sema).
Proof.
  intros H. apply sema_up_wake_inv in H.
  destruct H as [[_ ->] | (m & _ & _ & ->)];
    [split; [apply locks_frame_refl | reflexivity] |].
  set (s1 := mkSemaphore _ _).
  assert (F : sched_frame (set_sema k sema s1)
                (log (EvUnblock m)
                   (set_status
                      (set_ready_list (set_sema k sema s1)
                         (list_push_back (ready_list k) m)) m THREAD_READY))).
  { eapply sched_frame_trans; [apply set_ready_list_frame |].
    eapply sched_frame_trans; [apply set_status_frame | apply log_frame]. }
  split.
  - eapply locks_frame_trans; [| apply sched_frame_locks_frame; exact F].
    apply set_sema_locks_frame. left. reflexivity.
  - rewrite (get_sema_sched_frame _ _ sema F), get_set_sema_same. reflexivity.
Qed.

(** [sema_up] on a semaphore that is not that of a lock. *)
Lemma sema_up_locks_frame (sema : sema_ptr) (k k' : kernel) :
  (forall l, sema <> LockSema l) ->
  sema_up sema k = Ok k' -> locks_frame k k'.
Proof.
  intros Hp H. apply sema_up_decomp in H. destruct H as (k1 & Hw & H).
  apply sema_up_wake_locks_frame in Hw. destruct Hw as [F1 _].
  assert (F2 : locks_frame k1
                 (set_sema k1 sema
                    (mkSemaphore ((value (get_sema k1 sema) + 1) mod UINT_MODULUS)
                                 (waiters (get_sema k1 sema)))))
    by (apply set_sema_locks_frame; now right).
  destruct H as [[_ ->] | [_ H]].
  - eapply locks_frame_trans; eassumption.
  - apply thread_yield_locks_frame in H.
    eapply locks_frame_trans; [exact F1 |].
    eapply locks_frame_trans; eassumption.
Qed.

(** [sema_down] on a semaphore that is not that of a lock. *)
Lemma sema_down_locks_frame (sema : sema_ptr) (again : instr) (k k' : kernel) (b : bool) :
  (forall l, sema <> LockSema l) ->
  sema_down sema again k = Ok (b, k') -> locks_frame k k'.
Proof.
  intros Hp H. apply sema_down_decomp in H.
  destruct H as (_ & _ & [(_ & _ & H) | (_ & _ & ->)]).
  - apply schedule_locks_frame in H.
    eapply locks_frame_trans; [apply enqueue_waiter_locks_frame |].
    eapply locks_frame_trans; [| exact H].
    apply sched_frame_locks_frame, set_status_frame.
  - apply set_sema_locks_frame. now right.
Qed.

Lemma take_lock_inv (k k' : kernel) (l cur : nat) :
  locks_inv k ->
  value (lock_semaphore (locks k l)) <> 0 ->
  (forall m, holder (locks k' m)
             = if Nat.eqb m l then Some cur else holder (locks k m)) ->
  (forall m, value (lock_semaphore (locks k' m))
             = if Nat.eqb m l
               then (value (lock_semaphore (locks k l)) - 1) mod UINT_MODULUS
               else value (lock_semaphore (locks k m))) ->
  (forall t, lock_list (threads k' t)
             = if Nat.eqb t cur then l :: lock_list (threads k t)
               else lock_list (threads k t)) ->
  locks_inv k'.
Proof.
  intros [I1 I2] Hv Hh Hval Hl. split.
  - intros m. unfold lock_consistent. rewrite Hh, Hval.
    destruct (Nat.eqb_spec m l) as [-> | _]; [| apply I1].
    right. split; [discriminate |].
    destruct (I1 l) as [[_ E] | [_ E]]; [| congruence].
    rewrite E. reflexivity.
  - intros m t. rewrite Hh, Hl.
    destruct (Nat.eqb_spec m l) as [-> | Hm].
    + intros E. injection E as <-. rewrite Nat.eqb_refl. now left.
    + intros E. destruct (Nat.eqb t cur); [right |]; now apply I2.
Qed.

Lemma release_lock_inv (k k' : kernel) (l cur : nat) :
  locks_inv k ->
  holder (locks k l) = Some cur ->
  (forall m, holder (locks k' m) = if Nat.eqb m l then None else holder (locks k m)) ->
  (forall m, value (lock_semaphore (locks k' m))
             = if Nat.eqb m l
               then (value (lock_semaphore (locks k l)) + 1) mod UINT_MODULUS
               else value (lock_semaphore (locks k m))) ->
  (forall t, lock_list (threads k' t)
             = if Nat.eqb t cur then remaining_locks l (lock_list (threads k t))
               else lock_list (threads k t)) ->
  locks_inv k'.
Proof.
  intros [I1 I2] Hcur Hh Hval Hl. split.
  - intros m. unfold lock_consistent. rewrite Hh, Hval.
    destruct (Nat.eqb_spec m l) as [-> | _]; [| apply I1].
    left. split; [reflexivity |].
    destruct (I1 l) as [[E _] | [_ E]]; [congruence |].
    rewrite E. reflexivity.
  - intros m t. rewrite Hh, Hl.
    destruct (Nat.eqb_spec m l) as [-> | Hm]; [discriminate |].
    intros E. specialize (I2 m t E).
    destruct (Nat.eqb t cur); [| exact I2].
    unfold remaining_locks. apply filter_In. split; [exact I2 |].
    destruct (Nat.eqb_spec l m); [congruence | reflexivity].
Qed.

Lemma lock_try_acquire_locks_inv (l : nat) (k k' : kernel) (b : bool) :
  lock_try_acquire l k = Ok (b, k') -> locks_inv k -> locks_inv k'.
Proof.
  intros H I. apply lock_try_acquire_decomp in H.
  destruct H as (_ & _ & [(_ & Hv & ->) | (_ & _ & ->)]); [| exact I].
  apply (take_lock_inv k _ l (running k) I); [lia | | |];
    intros x; cbn; unfold upd;
    repeat match goal with
           | |- context [Nat.eqb ?a ?b] => destruct (Nat.eqb_spec a b); subst
           end; cbn; unfold list_push_front; congruence.
Qed.

Lemma lock_acquire_wait_locks_inv (l : nat) (k k' : kernel) :
  lock_acquire_wait l k = Ok k' -> locks_inv k -> locks_inv k'.
Proof.
  intros H I. apply lock_acquire_wait_decomp in H.
  destruct H as (b & k1 & Hd & H). apply sema_down_decomp in Hd.
  destruct Hd as (_ & _ & [(-> & _ & Hs) | (-> & Hv & ->)]).
  - destruct H as [[E _] | [_ ->]]; [discriminate |].
    eapply locks_frame_inv; [| exact I].
    eapply locks_frame_trans; [apply enqueue_waiter_locks_frame |].
    eapply locks_frame_trans; [| apply schedule_locks_frame; exact Hs].
    apply sched_frame_locks_frame, set_status_frame.
  - destruct H as [[_ ->] | [E _]]; [| discriminate].
    cbn [get_sema] in Hv.
    apply (take_lock_inv k _ l (running k) I Hv);
      intros x; unfold lock_acquire_tail; cbn; unfold upd;
      repeat match goal with
             | |- context [Nat.eqb ?a ?b] => destruct (Nat.eqb_spec a b); subst
             end; cbn; unfold list_push_front; congruence.
Qed.

(** Whenever the walk returns, it has changed lock priorities and donated
    priorities only. *)
Lemma donate_frame (fuel : nat) :
  forall (lock : option nat) (p : Z) (k k2 : kernel),
    donate_priority_recursively fuel lock p k = Ok k2 -> donation_frame p k k2.
Proof.
  induction fuel as [|fuel IH]; intros lock p k k2 Hd.
  - destruct lock; cbn in Hd; [discriminate |]. injection Hd as <-.
    apply donation_frame_refl.
  - destruct lock as [m|]; [| cbn in Hd; injection Hd as <-; apply donation_frame_refl].
    destruct (holder (locks k m)) as [h|] eqn:Eh.
    + rewrite (donate_unfold fuel m h p k Eh) in Hd.
      apply IH in Hd.
      eapply donation_frame_trans; [| exact Hd]. apply donate_step_frame.
    + rewrite (donate_null_holder fuel m p k Eh) in Hd. discriminate.
Qed.

Lemma lock_acquire_locks_inv (fuel : nat) (l : nat) (k k' : kernel) :
  lock_acquire fuel l k = Ok k' -> locks_inv k -> locks_inv k'.
Proof.
  intros H I. apply lock_acquire_decomp in H.
  destruct H as (_ & _ & _ & [H | (_ & k2 & Hd & H)]).
  - eapply lock_try_acquire_locks_inv; eassumption.
  - apply (lock_acquire_wait_locks_inv _ _ _ H).
    eapply locks_frame_inv; [| exact I].
    eapply locks_frame_trans; [| apply set_thread_lock_locks_frame].
    eapply donation_frame_locks_frame. eapply donate_frame. exact Hd.
Qed.

Lemma sema_up_lock_values (l : nat) (k k' : kernel) :
  sema_up (LockSema l) k = Ok k' ->
  forall m, value (lock_semaphore (locks k' m))
            = if Nat.eqb m l
              then (value (lock_semaphore (locks k l)) + 1) mod UINT_MODULUS
              else value (lock_semaphore (locks k m)).
Proof.
  intros H m. apply sema_up_decomp in H. destruct H as (k1 & Hw & H).
  apply sema_up_wake_locks_frame in Hw. destruct Hw as [(_ & F2 & _) Hv].
  cbn [get_sema] in Hv.
  assert (G : value (lock_semaphore
                (locks (set_sema k1 (LockSema l)
                          (mkSemaphore ((value (get_sema k1 (LockSema l)) + 1)
                                        mod UINT_MODULUS)
                                       (waiters (get_sema k1 (LockSema l))))) m))
              = if Nat.eqb m l
                then (value (lock_semaphore (locks k l)) + 1) mod UINT_MODULUS
                else value (lock_semaphore (locks k m))).
  { cbn. unfold upd. destruct (Nat.eqb_spec m l) as [-> | _]; cbn.
    - now rewrite Hv.
    - apply F2. }
  destruct H as [[_ ->] | [_ H]]; [exact G |].
  apply thread_yield_locks_frame in H. destruct H as (_ & Y2 & _).
  now rewrite Y2.
Qed.

Lemma lock_release_locks_inv (l : nat) (k k' : kernel) :
  lock_release l k = Ok k' -> locks_inv k -> locks_inv k'.
Proof.
  intros H I. apply lock_release_decomp in H. destruct H as (Hs & Hh & H).
  assert (Hin : In l (lock_list (threads k (running k)))) by now apply (proj2 I).
  destruct (lock_release_critical_spec l k Hs Hh Hin)
    as (k1 & Hc & F & H1 & _ & H3 & _).
  rewrite (lock_release_critical_ok l k Hs Hh) in Hc. injection Hc as Hc.
  rewrite Hc in H. clear Hc.
  destruct F as (F1 & F2 & F3 & _).
  assert (V := sema_up_lock_values l k1 k' H).
  apply sema_up_data_frame in H. destruct H as (D1 & D2 & _).
  apply (release_lock_inv k k' l (running k) I Hh).
  - intros m. rewrite D2. destruct (Nat.eqb_spec m l) as [-> | Hm]; [exact H1 |].
    now rewrite F1.
  - intros m. rewrite V. rewrite !F2. reflexivity.
  - intros t. destruct (thread_data_fields _ _ (D1 t)) as (_ & _ & -> & _).
    destruct (Nat.eqb_spec t (running k)) as [-> | Ht]; [exact H3 |].
    now rewrite F3.
Qed.

Lemma sema_init_locks_frame (t : nat) (v : Z) (k : kernel) :
  locks_frame k (sema_init (WaiterSema t) v k).
Proof. apply set_sema_locks_frame. right. discriminate. Qed.

Lemma cond_wait_locks_inv (c l pos : nat) (k k' : kernel) :
  cond_wait c l pos k = Ok k' -> locks_inv k -> locks_inv k'.
Proof.
  intros H I. apply cond_wait_decomp in H. destruct H as (_ & _ & _ & H).
  apply (lock_release_locks_inv _ _ _ H).
  eapply locks_frame_inv; [| exact I]. unfold cond_wait_prepare.
  eapply locks_frame_trans; [apply sema_init_locks_frame |].
  eapply locks_frame_trans; [apply set_conds_locks_frame |].
  apply set_stack_locks_frame.
Qed.

Lemma cond_signal_locks_inv (c l : nat) (k k' : kernel) :
  cond_signal c l k = Ok k' -> locks_inv k -> locks_inv k'.
Proof.
  intros H I. apply cond_signal_decomp in H.
  destruct H as (_ & _ & _ & [[_ H] | (w & rest & _ & _ & H)]).
  - eapply locks_frame_inv; [apply thread_yield_locks_frame; exact H | exact I].
  - eapply locks_frame_inv; [| exact I].
    eapply locks_frame_trans;
      [| apply (sema_up_locks_frame (WaiterSema w)); [discriminate | exact H]].
    unfold cond_signal_prepare.
    eapply locks_frame_trans; [apply set_conds_locks_frame |].
    apply set_stack_locks_frame.
Qed.

Lemma cond_broadcast_locks_inv (c l : nat) (k k' : kernel) :
  cond_broadcast c l k = Ok k' -> locks_inv k -> locks_inv k'.
Proof.
  intros H I. apply cond_broadcast_decomp in H.
  destruct H as [[_ ->] | [_ H]]; [exact I |].
  apply (cond_signal_locks_inv _ _ _ _ H).
  eapply locks_frame_inv; [apply set_stack_locks_frame | exact I].
Qed.

Lemma exec_locks_inv (fuel : nat) (i : instr) (k k' : kernel) :
  exec fuel i k = Ok k' -> locks_inv k -> locks_inv k'.
Proof.
  intros H I. destruct i; cbn [exec] in H.
  - bind_inv H. destruct a as [b k1]. injection H as <-.
    eapply locks_frame_inv; [| exact I].
    eapply sema_down_locks_frame; [| exact Ha]. discriminate.
  - injection H as <-.
    eapply locks_frame_inv; [| exact I].
    unfold sema_try_down. destruct (value (get_sema k (PlainSema s)) >? 0); cbn [snd].
    + apply set_sema_locks_frame. right. discriminate.
    + apply locks_frame_refl.
  - eapply locks_frame_inv; [| exact I].
    eapply sema_up_locks_frame; [| exact H]. discriminate.
  - eapply lock_acquire_locks_inv; eassumption.
  - bind_inv H. destruct a as [b k1]. injection H as <-.
    eapply lock_try_acquire_locks_inv; eassumption.
  - eapply lock_release_locks_inv; eassumption.
  - eapply cond_wait_locks_inv; eassumption.
  - eapply cond_signal_locks_inv; eassumption.
  - eapply cond_broadcast_locks_inv; eassumption.
  - apply thread_set_priority_decomp in H. destruct H as [_ H].
    eapply locks_frame_inv; [| exact I].
    eapply locks_frame_trans; [apply set_priority_locks_frame |].
    apply thread_yield_locks_frame. exact H.
  - eapply locks_frame_inv; [apply thread_yield_locks_frame; exact H | exact I].
  - eapply lock_acquire_wait_locks_inv; eassumption.
  - bind_inv H. destruct a as [b k1]. injection H as <-.
    eapply locks_frame_inv; [| exact I].
    eapply sema_down_locks_frame; [| exact Ha]. discriminate.
  - apply idle_decomp in H. destruct H as (_ & _ & H).
    eapply locks_frame_inv; [| exact I].
    eapply locks_frame_trans; [apply set_stack_locks_frame |].
    eapply locks_frame_trans; [apply sched_frame_locks_frame, set_status_frame |].
    apply schedule_locks_frame. exact H.
Qed.

Lemma step_locks_inv (fuel : nat) (k k' : kernel) :
  step fuel k = Ok k' -> locks_inv k -> locks_inv k'.
Proof.
  unfold step. intros H I. bind_inv H.
  apply thread_current_inv in Ha. destruct Ha as [-> _].
  destruct (stack (threads k (running k))) as [|i rest].
  - apply thread_exit_decomp in H. destruct H as (_ & _ & H).
    eapply locks_frame_inv; [| exact I].
    eapply locks_frame_trans; [apply sched_frame_locks_frame, set_status_frame |].
    apply schedule_locks_frame. exact H.
  - apply (exec_locks_inv _ _ _ _ H).
    eapply locks_frame_inv; [apply set_stack_locks_frame | exact I].
Qed.

Lemma run_locks_inv (fuel n : nat) :
  forall k k', run fuel n k = Ok k' -> locks_inv k -> locks_inv k'.
Proof.
  induction n as [|n IH]; intros k k' H I; cbn [run] in H.
  - now injection H as <-.
  - bind_inv H. apply (IH _ _ H). eapply step_locks_inv; eassumption.
Qed.

Lemma boot_locks_inv (ths : list (nat * thread)) (sems : nat -> semaphore)
    (ready : list nat) (cur idle_t : nat) :
  locks_inv (boot ths sems ready cur idle_t).
Proof.
  split.
  - intros l. left. split; reflexivity.
  - intros l t H. discriminate.
Qed.

Lemma lock_init_fields (l : nat) (k : kernel) :
  threads (lock_init l k) = threads k /\
  forall m, locks (lock_init l k) m
            = if Nat.eqb m l then mkLock None (mkSemaphore 1 []) PRI_MIN
              else locks k m.
Proof.
  split; [reflexivity |]. intros m. unfold lock_init. cbn. unfold upd.
  destruct (Nat.eqb_spec m l) as [-> | _]; [| reflexivity].
  rewrite ?Nat.eqb_refl. cbn. rewrite ?Nat.eqb_refl. reflexivity.
Qed.

Lemma lock_init_locks_inv (l : nat) (k : kernel) :
  locks_inv k -> locks_inv (lock_init l k).
Proof.
  intros [I1 I2]. destruct (lock_init_fields l k) as [T L]. split.
  - intros m. rewrite L. destruct (Nat.eqb m l); [| apply I1].
    left. split; reflexivity.
  - intros m t. rewrite L, T. destruct (Nat.eqb m l); [discriminate | apply I2].
Qed.

Lemma locks_inv_iff (k : kernel) (l : nat) :
  locks_inv k ->
  (holder (locks k l) = None <-> value (lock_semaphore (locks k l)) = 1).
Proof.
  intros [I1 _]. destruct (I1 l) as [[H V] | [H V]].
  - split; intros _; assumption.
  - split; intros E; [congruence | rewrite V in E; discriminate].
Qed.

(** C7.  [lock_init] leaves a lock with a null holder and its semaphore
    at 1.  Call a kernel consistent when each lock is either free with its
    semaphore at 1 or held with its semaphore at 0, and stands in the lock
    list of its holder.  In a consistent kernel the holder of a lock is null
    if and only if its semaphore is at 1.  Consistency holds after
    [lock_init], and is kept by [lock_acquire], [lock_try_acquire] and
    [lock_release], and by every run of the threads, whatever they call and
    however they are interleaved (a thread blocked in [lock_acquire]
    finishes its call in such a run). *)
Theorem lock_holder_null_iff_semaphore_one :
  (forall l k,
     holder (locks (lock_init l k) l) = None /\
     value (lock_semaphore (locks (lock_init l k) l)) = 1) /\
  (forall l k, locks_inv k -> locks_inv (lock_init l k)) /\
  (forall k l, locks_inv k ->
     (holder (locks k l) = None <-> value (lock_semaphore (locks k l)) = 1)) /\
  (forall fuel l k k', locks_inv k -> lock_acquire fuel l k = Ok k' -> locks_inv k') /\
  (forall l k b k', locks_inv k -> lock_try_acquire l k = Ok (b, k') -> locks_inv k') /\
  (forall l k k', locks_inv k -> lock_release l k = Ok k' -> locks_inv k') /\
  (forall fuel n k k', locks_inv k -> run fuel n k = Ok k' -> locks_inv k').
Proof.
  split; [intros l k; rewrite (proj2 (lock_init_fields l k)), Nat.eqb_refl;
          split; reflexivity |].
  split; [intros l k; apply lock_init_locks_inv |].
  split; [intros k l; apply locks_inv_iff |].
  split; [intros fuel l k k' I H; eapply lock_acquire_locks_inv; eassumption |].
  split; [intros l k b k' I H; eapply lock_try_acquire_locks_inv; eassumption |].
  split; [intros l k k' I H; eapply lock_release_locks_inv; eassumption |].
  intros fuel n k k' I H; eapply run_locks_inv; eassumption.
Qed.

(** C7 in [simple_donation], after the seven instructions in which lock 0
    goes from thread 0 to thread 1. *)
Lemma lock_holder_null_iff_simple_donation :
  locks_inv (after 8 7 simple_donation) /\
  (holder (locks (after 8 7 simple_donation) 0%nat) = None <->
   value (lock_semaphore (locks (after 8 7 simple_donation) 0%nat)) = 1).
Proof.
  destruct lock_holder_null_iff_semaphore_one as (_ & _ & Hiff & _ & _ & _ & Hrun).
  assert (I : locks_inv (after 8 7 simple_donation)).
  { apply (Hrun 8%nat 7%nat simple_donation).
    - apply boot_locks_inv.
    - vm_compute. reflexivity. }
  split; [exact I | now apply Hiff].
Defined.

(** ** The ready list and the waiter lists *)

(** No thread stands twice in the ready list or in a waiter list, nor in
    two waiter lists; the threads of the ready list are ready, those of the
    waiter lists blocked; the idle thread is on no waiter list. *)
Definition queues_inv (k : kernel) : Prop :=
  NoDup (ready_list k) /\
  (forall t, In t (ready_list k) -> status (threads k t) = THREAD_READY) /\
  (forall p, NoDup (waiters (get_sema k p))) /\
  (forall p t, In t (waiters (get_sema k p)) ->
     status (threads k t) = THREAD_BLOCKED) /\
  (forall p q t, In t (waiters (get_sema k p)) ->
     In t (waiters (get_sema k q)) -> p = q) /\
  (forall i p, idle_thread k = Some i -> ~ In i (waiters (get_sema k p))).

(** The idle thread runs [idle] and nothing else. *)
Definition idle_inv (k : kernel) : Prop :=
  forall i, idle_thread k = Some i -> stack (threads k i) = [IIdle].

(** [k'] has the statuses, the ready list, the waiter lists, the running
    and idle threads and the interrupt context of [k], and the stacks of [k]
    except perhaps that of the running thread. *)
Definition quiet (k k' : kernel) : Prop :=
  (forall t, status (threads k' t) = status (threads k t)) /\
  ready_list k' = ready_list k /\
  (forall p, waiters (get_sema k' p) = waiters (get_sema k p)) /\
  idle_thread k' = idle_thread k /\
  running k' = running k /\
  intr_context k' = intr_context k /\
  (forall t, t <> running k -> stack (threads k' t) = stack (threads k t)).

Lemma quiet_refl (k : kernel) : quiet k k.
Proof. unfold quiet; repeat split. Qed.

Lemma quiet_trans (k1 k2 k3 : kernel) : quiet k1 k2 -> quiet k2 k3 -> quiet k1 k3.
Proof.
  intros (A1 & A2 & A3 & A4 & A5 & A6 & A7) (B1 & B2 & B3 & B4 & B5 & B6 & B7).
  repeat split; try congruence; intros x;
    first [ now rewrite B1, A1 | now rewrite B3, A3
          | intros Hx; rewrite B7, A7; congruence ].
Qed.

Lemma quiet_queues_inv (k k' : kernel) : quiet k k' -> queues_inv k -> queues_inv k'.
Proof.
  intros (A1 & A2 & A3 & A4 & _) (I1 & I2 & I3 & I4 & I5 & I6).
  unfold queues_inv. rewrite A2, A4.
  repeat split; try assumption.
  - intros t. rewrite A1. apply I2.
  - intros p. rewrite A3. apply I3.
  - intros p t. rewrite A3, A1. apply I4.
  - intros p q t. rewrite !A3. apply I5.
  - intros i p. rewrite A3. apply I6.
Qed.

Lemma donation_frame_quiet (p : Z) (k k' : kernel) : donation_frame p k k' -> quiet k k'.
Proof.
  intros (F1 & F2 & F3 & F4 & F5 & F6 & F7 & F8 & F9 & F10 & F11 & F12 & F13 & F14
          & F15 & F16 & F17).
  unfold quiet. repeat split; try assumption.
  - intros q. destruct q; cbn; [now rewrite F2 | now rewrite F10 | now rewrite F11].
  - intros t _. apply F8.
Qed.

Lemma release_frame_quiet (cur l : nat) (k k' : kernel) :
  release_frame cur l k k' -> quiet k k'.
Proof.
  intros (F1 & F2 & F3 & F4 & F5 & F6 & F7 & F8 & F9 & F10 & F11 & F12 & F13 & F14 & F15).
  unfold quiet. repeat split; try assumption.
  - intros q. destruct q; cbn; [now rewrite F2 | now rewrite F8 | now rewrite F9].
  - intros t _. apply F7.
Qed.

Lemma set_stack_quiet (k : kernel) (v : list instr) : quiet k (set_stack k (running k) v).
Proof.
  destruct (set_stack_fields k (running k) v)
    as (_ & _ & _ & _ & E5 & E6 & E7 & E8 & _ & E10 & _ & _ & _ & _ & E15 & E16).
  unfold quiet. repeat split; try assumption;
    try (intros p; now rewrite E16).
  intros t Ht. rewrite E15. destruct (Nat.eqb_spec t (running k)); congruence.
Qed.

Ltac quiet_by_cases :=
  unfold quiet; repeat split; cbn; intros;
  repeat match goal with p : sema_ptr |- _ => destruct p end;
  cbn; unfold upd;
  repeat match goal with
         | |- context [Nat.eqb ?a ?b] => destruct (Nat.eqb_spec a b); subst
         end;
  cbn; try reflexivity; try congruence.

Lemma set_thread_lock_quiet (k : kernel) (t : nat) (v : option nat) :
  quiet k (set_thread_lock k t v).
Proof. quiet_by_cases. Qed.

Lemma set_priority_quiet (k : kernel) (t : nat) (v : Z) : quiet k (set_priority k t v).
Proof. quiet_by_cases. Qed.

Lemma set_holder_quiet (k : kernel) (l : nat) (v : option nat) :
  quiet k (set_holder k l v).
Proof. quiet_by_cases. Qed.

Lemma set_lock_list_quiet (k : kernel) (t : nat) (v : list nat) :
  quiet k (set_lock_list k t v).
Proof. quiet_by_cases. Qed.

Lemma set_conds_quiet (k : kernel) (v : nat -> list nat) : quiet k (set_conds k v).
Proof. quiet_by_cases. Qed.

(** Changing the value of a semaphore. *)
Lemma set_sema_quiet (k : kernel) (p : sema_ptr) (s : semaphore) :
  waiters s = waiters (get_sema k p) -> quiet k (set_sema k p s).
Proof.
  intros Hw. unfold quiet.
  rewrite threads_set_sema, ready_list_set_sema, idle_thread_set_sema,
    running_set_sema, intr_context_set_sema.
  repeat split. intros q. destruct (sema_ptr_eq_dec q p) as [-> | Hne].
  - now rewrite get_set_sema_same.
  - now rewrite get_set_sema_other.
Qed.

Lemma status_set_status (k : kernel) (t u : nat) (v : thread_status) :
  status (threads (set_status k t v) u)
  = if Nat.eqb u t then v else status (threads k u).
Proof. cbn. unfold upd. destruct (Nat.eqb u t); reflexivity. Qed.

Lemma get_sema_set_status (k : kernel) (t : nat) (v : thread_status) (p : sema_ptr) :
  get_sema (set_status k t v) p = get_sema k p.
Proof. destruct p; reflexivity. Qed.

Lemma stack_set_status (k : kernel) (t u : nat) (v : thread_status) :
  stack (threads (set_status k t v) u) = stack (threads k u).
Proof. cbn. unfold upd. destruct (Nat.eqb_spec u t) as [-> | _]; reflexivity. Qed.

Lemma list_max_thread_In (k : kernel) (l : list nat) (m : nat) :
  list_max (thread_priority_compare k) l = Some m -> In m l.
Proof.
  intros H. destruct (list_max_thread_priority k l m H) as (l1 & l2 & -> & _).
  apply in_or_app. right. now left.
Qed.

(** [schedule] keeps the queues in order. *)
Lemma schedule_queues_inv (k k' : kernel) :
  schedule k = Ok k' -> queues_inv k -> queues_inv k'.
Proof.
  intros H (I1 & I2 & I3 & I4 & I5 & I6).
  apply schedule_inv in H. destruct H as (_ & n & k1 & Hn & ->).
  unfold thread_schedule_tail. cbn [running set_running].
  destruct (next_thread_to_run_cases k) as [[Er E] | (m & Hm & E)];
    rewrite E in Hn; injection Hn as Hn <-.
  - (* the idle thread *)
    unfold queues_inv. cbn [ready_list set_status set_threads set_running idle_thread].
    rewrite Er. repeat split.
    + constructor.
    + intros t [].
    + intros p. rewrite get_sema_set_status. apply I3.
    + intros p t. rewrite get_sema_set_status, status_set_status. intros Hin.
      destruct (Nat.eqb_spec t n) as [-> | _]; [| now apply (I4 p)].
      now elim (I6 n p Hn).
    + intros p q t. rewrite !get_sema_set_status. apply I5.
    + intros i p. rewrite get_sema_set_status. apply I6.
  - (* a thread of the ready list *)
    subst n.
    assert (Hin := list_max_thread_In k _ m Hm).
    unfold queues_inv.
    cbn [ready_list set_status set_threads set_running set_ready_list idle_thread].
    repeat split.
    + now apply list_remove_NoDup.
    + intros t Ht. rewrite status_set_status.
      destruct (Nat.eqb_spec t m) as [-> | _].
      * now elim (list_remove_not_In m (ready_list k) I1).
      * apply I2. eapply list_remove_In. exact Ht.
    + intros p. rewrite get_sema_set_status. apply I3.
    + intros p t. rewrite get_sema_set_status, status_set_status. intros Ht.
      destruct (Nat.eqb_spec t m) as [-> | _]; [| now apply (I4 p)].
      specialize (I2 m Hin). specialize (I4 p m Ht). congruence.
    + intros p q t. rewrite !get_sema_set_status. apply I5.
    + intros i p. rewrite get_sema_set_status. apply I6.
Qed.

(** What [schedule] leaves alone. *)
Lemma schedule_ctl (k k' : kernel) :
  schedule k = Ok k' ->
  idle_thread k' = idle_thread k /\ intr_context k' = intr_context k /\
  forall t, stack (threads k' t) = stack (threads k t).
Proof.
  intros H. apply schedule_frame in H.
  destruct H as [(_ & _ & _ & _ & A5 & A6 & A7) _].
  repeat split; try assumption.
  intros t. now destruct (thread_data_fields _ _ (A7 t)) as (_ & _ & _ & _ & ->).
Qed.

(** A running thread that goes to sleep on a semaphore. *)
Lemma block_queues_inv (sema : sema_ptr) (again : instr) (k : kernel) :
  queues_inv k ->
  status (threads k (running k)) = THREAD_RUNNING ->
  idle_thread k <> Some (running k) ->
  queues_inv (set_status (enqueue_waiter sema again k) (running k) THREAD_BLOCKED).
Proof.
  intros (I1 & I2 & I3 & I4 & I5 & I6) Hs Hi.
  destruct (enqueue_waiter_fields sema again k)
    as (_ & E2 & E3 & _ & _ & _ & E7 & _ & _ & _ & _ & _ & _ & _ & E15).
  assert (Hnw : forall q, ~ In (running k) (waiters (get_sema k q))).
  { intros q Hin. specialize (I4 q _ Hin). congruence. }
  assert (W : forall q t,
            In t (waiters (get_sema (enqueue_waiter sema again k) q)) ->
            (t = running k /\ q = sema) \/
            (t <> running k /\ In t (waiters (get_sema k q)))).
  { intros q t. rewrite E15.
    destruct (sema_ptr_eq_dec q sema) as [-> | Hq]; cbn [waiters].
    - unfold list_push_back. intros Hin. apply in_app_or in Hin.
      destruct Hin as [Hin | [<- | []]].
      + right. split; [| exact Hin]. intros ->. now apply (Hnw sema).
      + left. split; reflexivity.
    - intros Hin. right. split; [| exact Hin]. intros ->. now apply (Hnw q). }
  unfold queues_inv. cbn [ready_list set_status set_threads idle_thread].
  rewrite E2, E3. repeat split.
  - exact I1.
  - intros t Ht. rewrite status_set_status, E7.
    destruct (Nat.eqb_spec t (running k)) as [-> | _]; [| now apply I2].
    specialize (I2 _ Ht). congruence.
  - intros q. rewrite get_sema_set_status, E15.
    destruct (sema_ptr_eq_dec q sema) as [-> | _]; [| apply I3].
    cbn [waiters]. unfold list_push_back. apply NoDup_app.
    + apply I3.
    + repeat constructor. intros [].
    + intros t Ht [<- | []]. now apply (Hnw sema).
  - intros q t. rewrite get_sema_set_status, status_set_status, E7. intros Hin.
    destruct (W q t Hin) as [[-> _] | [Hne Hin']].
    + now rewrite Nat.eqb_refl.
    + destruct (Nat.eqb_spec t (running k)); [congruence | now apply (I4 q)].
  - intros q1 q2 t. rewrite !get_sema_set_status. intros H1 H2.
    destruct (W q1 t H1) as [[Et1 Eq1] | [Hne1 H1']];
      destruct (W q2 t H2) as [[Et2 Eq2] | [Hne2 H2']]; try congruence.
    now apply (I5 q1 q2 t).
  - intros i q Hidle. rewrite get_sema_set_status. intros Hin.
    destruct (W q i Hin) as [[Ei _] | [_ Hin']]; [congruence |].
    now apply (I6 i q).
Qed.

(** A running thread that changes its status and stays off the lists. *)
Lemma set_status_queues_inv (k : kernel) (v : thread_status) :
  queues_inv k ->
  status (threads k (running k)) = THREAD_RUNNING ->
  queues_inv (set_status k (running k) v).
Proof.
  intros (I1 & I2 & I3 & I4 & I5 & I6) Hs.
  unfold queues_inv. cbn [ready_list set_status set_threads idle_thread].
  repeat split; try assumption.
  - intros t Ht. rewrite status_set_status.
    destruct (Nat.eqb_spec t (running k)) as [-> | _]; [| now apply I2].
    specialize (I2 _ Ht). congruence.
  - intros p t. rewrite get_sema_set_status, status_set_status. intros Ht.
    destruct (Nat.eqb_spec t (running k)) as [-> | _]; [| now apply (I4 p)].
    specialize (I4 p _ Ht). congruence.
Qed.

(** A running thread that goes to the back of the ready list. *)
Lemma yield_prepare_queues_inv (k : kernel) :
  queues_inv k ->
  status (threads k (running k)) = THREAD_RUNNING ->
  queues_inv (yield_prepare k).
Proof.
  intros I Hs.
  assert (G : queues_inv (set_status
                            (set_ready_list k (list_push_back (ready_list k) (running k)))
                            (running k) THREAD_READY)).
  { destruct I as (I1 & I2 & I3 & I4 & I5 & I6).
    assert (Hnr : ~ In (running k) (ready_list k)).
    { intros Hin. specialize (I2 _ Hin). congruence. }
    unfold queues_inv.
    cbn [ready_list set_status set_threads set_ready_list idle_thread].
    repeat split; try assumption.
    - unfold list_push_back. apply NoDup_app; [exact I1 | | ].
      + repeat constructor. intros [].
      + intros t Ht [<- | []]. now apply Hnr.
    - intros t Ht. rewrite status_set_status.
      destruct (Nat.eqb_spec t (running k)) as [-> | Hne]; [reflexivity |].
      cbn [threads set_ready_list]. apply I2.
      unfold list_push_back in Ht. apply in_app_or in Ht.
      destruct Ht as [Ht | [<- | []]]; [exact Ht | congruence].
    - intros p t. rewrite get_sema_set_status, status_set_status. intros Ht.
      destruct (Nat.eqb_spec t (running k)) as [-> | _]; [| now apply (I4 p)].
      assert (Ht' : In (running k) (waiters (get_sema k p)))
        by (destruct p; exact Ht).
      specialize (I4 p _ Ht'). congruence. }
  assert (L : forall k1, queues_inv k1 -> queues_inv (log (EvYield (running k)) k1)).
  { intros k1 H. exact H. }
  unfold yield_prepare. apply L.
  destruct (idle_thread k) as [i|]; [| exact G].
  destruct (Nat.eqb (running k) i); [| exact G].
  now apply set_status_queues_inv.
Qed.

Lemma get_sema_ready_log (k : kernel) (r : list nat) (e : event) (p : sema_ptr) :
  get_sema (log e k) p = get_sema k p /\
  get_sema (set_ready_list k r) p = get_sema k p.
Proof. destruct p; split; reflexivity. Qed.

(** The waiter of highest priority goes from the waiter list to the ready
    list. *)
Lemma sema_up_wake_queues_inv (sema : sema_ptr) (k k' : kernel) :
  sema_up_wake sema k = Ok k' -> queues_inv k -> queues_inv k'.
Proof.
  intros H I. apply sema_up_wake_inv in H.
  destruct H as [[_ ->] | (m & Hm & Hs & ->)]; [exact I |].
  destruct I as (I1 & I2 & I3 & I4 & I5 & I6).
  assert (Hin := list_max_thread_In k _ m Hm).
  set (s1 := mkSemaphore (value (get_sema k sema))
               (list_remove m (waiters (get_sema k sema)))).
  assert (G : forall q, get_sema (set_sema k sema s1) q
                        = if sema_ptr_eq_dec q sema then s1 else get_sema k q).
  { intros q. destruct (sema_ptr_eq_dec q sema) as [-> | Hq];
      [apply get_set_sema_same | now apply get_set_sema_other]. }
  assert (W : forall q t, In t (waiters (get_sema (set_sema k sema s1) q)) ->
                          In t (waiters (get_sema k q)) /\ t <> m).
  { intros q t. rewrite G. destruct (sema_ptr_eq_dec q sema) as [-> | Hq].
    - cbn [waiters s1]. intros Ht. split; [eapply list_remove_In; exact Ht |].
      intros ->. now apply (list_remove_not_In m _ (I3 sema)).
    - intros Ht. split; [exact Ht |]. intros ->. apply Hq.
      now apply (I5 q sema m). }
  assert (Hnr : ~ In m (ready_list k)).
  { intros Hr. specialize (I2 _ Hr). congruence. }
  unfold queues_inv.
  cbn [ready_list log set_status set_threads set_ready_list idle_thread].
  rewrite idle_thread_set_sema.
  assert (E : forall q, get_sema
                (log (EvUnblock m)
                   (set_status
                      (set_ready_list (set_sema k sema s1)
                         (list_push_back (ready_list k) m)) m THREAD_READY)) q
              = get_sema (set_sema k sema s1) q)
    by (intros q; destruct q; reflexivity).
  assert (S : forall t, status (threads
                (log (EvUnblock m)
                   (set_status
                      (set_ready_list (set_sema k sema s1)
                         (list_push_back (ready_list k) m)) m THREAD_READY)) t)
              = if Nat.eqb t m then THREAD_READY else status (threads k t)).
  { intros t. cbn [threads log]. rewrite status_set_status.
    cbn [threads set_ready_list]. now rewrite threads_set_sema. }
  repeat split.
  - unfold list_push_back. apply NoDup_app; [exact I1 | | ].
    + repeat constructor. intros [].
    + intros t Ht [<- | []]. now apply Hnr.
  - intros t Ht. rewrite S.
    destruct (Nat.eqb_spec t m) as [-> | Hne]; [reflexivity |].
    apply I2. unfold list_push_back in Ht. apply in_app_or in Ht.
    destruct Ht as [Ht | [<- | []]]; [exact Ht | congruence].
  - intros q. rewrite E, G. destruct (sema_ptr_eq_dec q sema); [| apply I3].
    cbn [waiters s1]. now apply list_remove_NoDup.
  - intros q t. rewrite E, S. intros Ht. destruct (W q t Ht) as [Ht' Hne].
    destruct (Nat.eqb_spec t m); [congruence | now apply (I4 q)].
  - intros q1 q2 t. rewrite !E. intros H1 H2.
    apply (I5 q1 q2 t); [apply (W q1 t H1) | apply (W q2 t H2)].
  - intros i q Hi. rewrite E. intros Ht. apply (I6 i q Hi). apply (W q i Ht).
Qed.

(** What the wake-up leaves alone. *)
Lemma sema_up_wake_ctl (sema : sema_ptr) (k k' : kernel) :
  sema_up_wake sema k = Ok k' ->
  idle_thread k' = idle_thread k /\ intr_context k' = intr_context k /\
  running k' = running k /\
  (forall t, stack (threads k' t) = stack (threads k t)) /\
  waiters (get_sema k' sema) = match list_max (thread_priority_compare k)
                                       (waiters (get_sema k sema)) with
                               | Some m => list_remove m (waiters (get_sema k sema))
                               | None => waiters (get_sema k sema)
                               end.
Proof.
  intros H. assert (D := sema_up_wake_data_frame _ _ _ H).
  destruct D as (D1 & _ & _ & _ & D5 & D6).
  apply sema_up_wake_inv in H.
  destruct H as [[Hw ->] | (m & Hm & Hs & ->)].
  - repeat split. rewrite Hw. reflexivity.
  - rewrite Hm. repeat split; try assumption.
    + cbn. apply running_set_sema.
    + intros t. now destruct (thread_data_fields _ _ (D1 t)) as (_ & _ & _ & _ & ->).
    + match goal with
      | |- waiters (get_sema ?K sema) = _ =>
          assert (E : get_sema K sema
                      = get_sema (set_sema k sema
                                    (mkSemaphore (value (get_sema k sema))
                                       (list_remove m (waiters (get_sema k sema)))))
                                 sema) by (destruct sema; reflexivity)
      end.
      rewrite E, get_set_sema_same. reflexivity.
Qed.

Lemma sema_init_queues_inv (t : nat) (v : Z) (k : kernel) :
  queues_inv k -> queues_inv (sema_init (WaiterSema t) v k).
Proof.
  intros (I1 & I2 & I3 & I4 & I5 & I6). unfold sema_init.
  assert (G : forall q, get_sema (set_sema k (WaiterSema t) (mkSemaphore v [])) q
                        = if sema_ptr_eq_dec q (WaiterSema t)
                          then mkSemaphore v [] else get_sema k q).
  { intros q. destruct (sema_ptr_eq_dec q (WaiterSema t)) as [-> | Hq];
      [apply get_set_sema_same | now apply get_set_sema_other]. }
  assert (W : forall q u,
            In u (waiters (get_sema (set_sema k (WaiterSema t) (mkSemaphore v [])) q)) ->
            In u (waiters (get_sema k q))).
  { intros q u. rewrite G. destruct (sema_ptr_eq_dec q (WaiterSema t)); [intros [] | auto]. }
  unfold queues_inv.
  rewrite ready_list_set_sema, idle_thread_set_sema, threads_set_sema.
  repeat split; try assumption.
  - intros q. rewrite G. destruct (sema_ptr_eq_dec q (WaiterSema t)); [constructor | apply I3].
  - intros q u Hu. apply (I4 q). now apply W.
  - intros q1 q2 u H1 H2. apply (I5 q1 q2 u); now apply W.
  - intros i q Hi Hin. apply (I6 i q Hi). now apply W.
Qed.

(** [k'] keeps the queues in order if [k] does, and has the idle thread
    and the interrupt context of [k], and its stacks except perhaps that of
    the thread running in [k]. *)
Definition qstep (k k' : kernel) : Prop :=
  (queues_inv k -> queues_inv k') /\
  idle_thread k' = idle_thread k /\
  intr_context k' = intr_context k /\
  (forall t, t <> running k -> stack (threads k' t) = stack (threads k t)).

Lemma qstep_trans (k1 k2 k3 : kernel) :
  qstep k1 k2 -> running k2 = running k1 -> qstep k2 k3 -> qstep k1 k3.
Proof.
  intros (A1 & A2 & A3 & A4) R (B1 & B2 & B3 & B4).
  split; [auto |]. split; [congruence |]. split; [congruence |].
  intros t Ht. rewrite B4, A4; congruence.
Qed.

Lemma quiet_qstep (k k' : kernel) : quiet k k' -> qstep k k'.
Proof.
  intros Q. split; [now apply quiet_queues_inv |].
  destruct Q as (_ & _ & _ & Q4 & _ & Q6 & Q7). repeat split; assumption.
Qed.

Lemma quiet_running (k k' : kernel) : quiet k k' -> running k' = running k.
Proof. intros Q. apply Q. Qed.

Lemma schedule_qstep (k k' : kernel) : schedule k = Ok k' -> qstep k k'.
Proof.
  intros H. split; [now apply schedule_queues_inv |].
  destruct (schedule_ctl _ _ H) as (C1 & C2 & C3).
  repeat split; try assumption. intros t _. apply C3.
Qed.

Lemma thread_yield_qstep (k k' : kernel) : thread_yield k = Ok k' -> qstep k k'.
Proof.
  intros H. apply thread_yield_decomp in H. destruct H as (Hs & _ & H).
  apply schedule_qstep in H.
  assert (P : qstep k (yield_prepare k) /\ running (yield_prepare k) = running k).
  { split; [| unfold yield_prepare;
               destruct (idle_thread k) as [i|];
               [destruct (Nat.eqb (running k) i) |]; reflexivity].
    split; [intros I; now apply yield_prepare_queues_inv |].
    unfold yield_prepare.
    destruct (idle_thread k) as [i|] eqn:Ei;
      [destruct (Nat.eqb (running k) i) |];
      cbn [idle_thread intr_context log set_status set_threads set_ready_list];
      (repeat split; [exact Ei || reflexivity | ]);
      intros t _; cbn [threads log]; rewrite stack_set_status; reflexivity. }
  destruct P as [P R]. eapply qstep_trans; eassumption.
Qed.

Lemma sema_up_qstep (sema : sema_ptr) (k k' : kernel) :
  sema_up sema k = Ok k' -> qstep k k'.
Proof.
  intros H. apply sema_up_decomp in H. destruct H as (k1 & Hw & H).
  assert (W : qstep k k1 /\ running k1 = running k).
  { destruct (sema_up_wake_ctl _ _ _ Hw) as (C1 & C2 & C3 & C4 & _).
    split; [| exact C3].
    split; [intros I; eapply sema_up_wake_queues_inv; eassumption |].
    repeat split; try assumption. intros t _. apply C4. }
  destruct W as [W R1].
  set (k2 := set_sema k1 sema _) in H.
  assert (Q : quiet k1 k2) by (apply set_sema_quiet; reflexivity).
  assert (W2 : qstep k k2)
    by (eapply qstep_trans; [exact W | exact R1 | now apply quiet_qstep]).
  destruct H as [[_ ->] | [_ H]]; [exact W2 |].
  eapply qstep_trans; [exact W2 | | now apply thread_yield_qstep].
  rewrite (quiet_running _ _ Q). exact R1.
Qed.

Lemma sema_down_qstep (sema : sema_ptr) (again : instr) (k k' : kernel) (b : bool) :
  sema_down sema again k = Ok (b, k') ->
  idle_thread k <> Some (running k) ->
  qstep k k'.
Proof.
  intros H Hidle. apply sema_down_decomp in H.
  destruct H as (Hs & _ & [(_ & _ & H) | (_ & _ & ->)]).
  - apply schedule_qstep in H.
    destruct (enqueue_waiter_fields sema again k)
      as (E1 & _ & E3 & E4 & _ & _ & _ & _ & _ & _ & _ & E12 & _).
    eapply qstep_trans; [| | exact H].
    + split; [intros I; now apply block_queues_inv |].
      cbn [idle_thread intr_context set_status set_threads].
      repeat split; try assumption.
      intros t Ht. rewrite stack_set_status, E12.
      destruct (Nat.eqb_spec t (running k)); congruence.
    + cbn [running set_status set_threads]. exact E1.
  - apply quiet_qstep. apply set_sema_quiet. reflexivity.
Qed.

Lemma lock_try_acquire_quiet (l : nat) (k k' : kernel) (b : bool) :
  lock_try_acquire l k = Ok (b, k') -> quiet k k'.
Proof.
  intros H. apply lock_try_acquire_decomp in H.
  destruct H as (_ & _ & [(_ & _ & ->) | (_ & _ & ->)]); [| apply quiet_refl].
  cbv zeta.
  set (k1 := set_sema k (LockSema l) _).
  apply (quiet_trans k k1); [apply set_sema_quiet; reflexivity |].
  apply (quiet_trans k1 (set_holder k1 l (Some (running k))));
    [apply set_holder_quiet | apply set_lock_list_quiet].
Qed.

Lemma lock_acquire_tail_quiet (l cur : nat) (k : kernel) :
  quiet k (lock_acquire_tail l cur k).
Proof.
  unfold lock_acquire_tail. cbv zeta.
  set (k2 := set_holder k l (Some cur)).
  apply (quiet_trans k k2); [apply set_holder_quiet |].
  apply (quiet_trans k2 (set_thread_lock k2 cur None));
    [apply set_thread_lock_quiet | apply set_lock_list_quiet].
Qed.

Lemma lock_acquire_wait_qstep (l : nat) (k k' : kernel) :
  lock_acquire_wait l k = Ok k' ->
  idle_thread k <> Some (running k) ->
  qstep k k'.
Proof.
  intros H Hidle. apply lock_acquire_wait_decomp in H.
  destruct H as (b & k1 & Hd & H).
  assert (Hq := sema_down_qstep _ _ _ _ _ Hd Hidle).
  apply sema_down_decomp in Hd.
  destruct Hd as (_ & _ & [(-> & _ & _) | (-> & _ & E)]).
  - destruct H as [[E _] | [_ ->]]; [discriminate | exact Hq].
  - destruct H as [[_ ->] | [E' _]]; [| discriminate].
    eapply qstep_trans; [exact Hq | | apply quiet_qstep, lock_acquire_tail_quiet].
    rewrite E. apply running_set_sema.
Qed.

Lemma lock_acquire_qstep (fuel : nat) (l : nat) (k k' : kernel) :
  lock_acquire fuel l k = Ok k' ->
  idle_thread k <> Some (running k) ->
  qstep k k'.
Proof.
  intros H Hidle. apply lock_acquire_decomp in H.
  destruct H as (_ & _ & _ & [H | (_ & k2 & Hd & H)]).
  - apply quiet_qstep. eapply lock_try_acquire_quiet. exact H.
  - apply donate_frame in Hd. apply donation_frame_quiet in Hd.
    assert (Q : quiet k (set_thread_lock k2 (running k) (Some l)))
      by (eapply quiet_trans; [exact Hd | apply set_thread_lock_quiet]).
    apply (qstep_trans k (set_thread_lock k2 (running k) (Some l)) k');
      [apply quiet_qstep; exact Q | apply (quiet_running _ _ Q) |].
    apply (lock_acquire_wait_qstep l); [exact H |].
    destruct Q as (_ & _ & _ & Q4 & Q5 & _). now rewrite Q4, Q5.
Qed.

Lemma lock_release_qstep (l : nat) (k k' : kernel) :
  lock_release l k = Ok k' -> qstep k k'.
Proof.
  intros H. apply lock_release_decomp in H. destruct H as (_ & _ & H).
  set (k0 := set_donation_priority k (running k) PRI_MIN) in H.
  assert (Q : quiet k (lock_release_loop l (running k)
                         (lock_list (threads k (running k))) k0)).
  { eapply release_frame_quiet. eapply release_frame_trans.
    - apply (set_donation_priority_release_frame (running k) l).
    - apply lock_release_loop_frame. }
  eapply qstep_trans;
    [apply quiet_qstep; exact Q | apply (quiet_running _ _ Q) |].
  now apply sema_up_qstep in H.
Qed.

Lemma cond_wait_qstep (c l pos : nat) (k k' : kernel) :
  cond_wait c l pos k = Ok k' -> qstep k k'.
Proof.
  intros H. apply cond_wait_decomp in H. destruct H as (_ & _ & _ & H).
  apply lock_release_qstep in H.
  assert (P : qstep k (cond_wait_prepare c l pos k) /\
              running (cond_wait_prepare c l pos k) = running k).
  { split; [| reflexivity]. unfold cond_wait_prepare.
    set (k1 := sema_init (WaiterSema (running k)) 0 k).
    assert (Q : quiet k1
                  (set_stack
                     (set_conds k1
                        (upd (conds k1) c
                           (list_insert_at pos (conds k1 c) (running k))))
                     (running k)
                     (IWaiterDown :: ILockAcquire l
                      :: stack (threads
                                  (set_conds k1
                                     (upd (conds k1) c
                                        (list_insert_at pos (conds k1 c) (running k))))
                                  (running k))))).
    { eapply quiet_trans; [apply set_conds_quiet |].
      apply (set_stack_quiet (set_conds k1 _)). }
    apply quiet_qstep in Q. destruct Q as (Q1 & Q2 & Q3 & Q4).
    split; [| split; [| split]].
    - intros I. apply Q1. now apply sema_init_queues_inv.
    - rewrite Q2. apply idle_thread_set_sema.
    - rewrite Q3. apply intr_context_set_sema.
    - intros t Ht. rewrite Q4.
      + unfold k1, sema_init. now rewrite threads_set_sema.
      + unfold k1, sema_init. now rewrite running_set_sema. }
  destruct P as [P R]. eapply qstep_trans; eassumption.
Qed.

Lemma cond_signal_qstep (c l : nat) (k k' : kernel) :
  cond_signal c l k = Ok k' -> qstep k k'.
Proof.
  intros H. apply cond_signal_decomp in H.
  destruct H as (_ & _ & _ & [[_ H] | (w & rest & _ & _ & H)]).
  - now apply thread_yield_qstep.
  - apply sema_up_qstep in H.
    assert (Q : quiet k (cond_signal_prepare c rest k)).
    { unfold cond_signal_prepare.
      eapply quiet_trans; [apply set_conds_quiet |].
      apply (set_stack_quiet (set_conds k _)). }
    eapply qstep_trans; [apply quiet_qstep; exact Q | apply (quiet_running _ _ Q) | exact H].
Qed.

Lemma cond_broadcast_qstep (c l : nat) (k k' : kernel) :
  cond_broadcast c l k = Ok k' -> qstep k k'.
Proof.
  intros H. apply cond_broadcast_decomp in H.
  destruct H as [[_ ->] | [_ H]]; [apply quiet_qstep, quiet_refl |].
  apply cond_signal_qstep in H.
  eapply qstep_trans; [apply quiet_qstep, set_stack_quiet | reflexivity | exact H].
Qed.

Lemma idle_qstep (k k' : kernel) : idle k = Ok k' -> qstep k k'.
Proof.
  intros H. apply idle_decomp in H. destruct H as (Hs & _ & H).
  apply schedule_qstep in H.
  set (k1 := set_stack k (running k) (IIdle :: stack (threads k (running k)))) in *.
  assert (Q : quiet k k1) by apply set_stack_quiet.
  eapply qstep_trans; [| | exact H].
  - split.
    + intros I. apply (set_status_queues_inv k1 THREAD_BLOCKED).
      * now apply (quiet_queues_inv _ _ Q).
      * destruct Q as (Q1 & _). rewrite Q1. exact Hs.
    + destruct Q as (_ & _ & _ & Q4 & _ & Q6 & Q7).
      cbn [idle_thread intr_context set_status set_threads].
      repeat split; try assumption.
      intros t Ht. rewrite stack_set_status. now apply Q7.
  - reflexivity.
Qed.

Lemma exec_qstep (fuel : nat) (i : instr) (k k' : kernel) :
  exec fuel i k = Ok k' ->
  idle_thread k <> Some (running k) ->
  qstep k k'.
Proof.
  intros H Hidle. destruct i; cbn [exec] in H.
  - bind_inv H. destruct a as [b k1]. injection H as <-.
    eapply sema_down_qstep; eassumption.
  - injection H as <-. apply quiet_qstep.
    unfold sema_try_down. destruct (value (get_sema k (PlainSema s)) >? 0); cbn [snd].
    + apply set_sema_quiet. reflexivity.
    + apply quiet_refl.
  - eapply sema_up_qstep; eassumption.
  - eapply lock_acquire_qstep; eassumption.
  - bind_inv H. destruct a as [b k1]. injection H as <-.
    apply quiet_qstep. eapply lock_try_acquire_quiet; eassumption.
  - eapply lock_release_qstep; eassumption.
  - eapply cond_wait_qstep; eassumption.
  - eapply cond_signal_qstep; eassumption.
  - eapply cond_broadcast_qstep; eassumption.
  - apply thread_set_priority_decomp in H. destruct H as [_ H].
    apply thread_yield_qstep in H.
    eapply qstep_trans; [apply quiet_qstep, set_priority_quiet | reflexivity | exact H].
  - now apply thread_yield_qstep.
  - eapply lock_acquire_wait_qstep; eassumption.
  - bind_inv H. destruct a as [b k1]. injection H as <-.
    eapply sema_down_qstep; eassumption.
  - now apply idle_qstep.
Qed.

Lemma step_queues_inv (fuel : nat) (k k' : kernel) :
  step fuel k = Ok k' ->
  queues_inv k /\ idle_inv k -> queues_inv k' /\ idle_inv k'.
Proof.
  unfold step. intros H [I J]. bind_inv H.
  apply thread_current_inv in Ha. destruct Ha as [-> Hs].
  destruct (stack (threads k (running k))) as [|i rest] eqn:Est.
  - (* the thread exits *)
    apply thread_exit_decomp in H. destruct H as (_ & _ & H).
    destruct (schedule_ctl _ _ H) as (C1 & _ & C3).
    split.
    + apply (schedule_queues_inv _ _ H). now apply set_status_queues_inv.
    + intros i0. rewrite C1, C3, stack_set_status. apply J.
  - set (k0 := set_stack k (running k) rest) in H.
    assert (Q : quiet k k0) by apply set_stack_quiet.
    assert (I0 : queues_inv k0) by now apply (quiet_queues_inv _ _ Q).
    destruct Q as (Q1 & _ & _ & Q4 & Q5 & _ & Q7).
    destruct (idle_thread k) as [i0|] eqn:Ei.
    + destruct (Nat.eq_dec i0 (running k)) as [-> | Hne].
      * (* the idle thread *)
        assert (E := J _ Ei). rewrite Est in E. injection E as -> ->.
        cbn [exec] in H. assert (Hq := idle_qstep _ _ H).
        destruct Hq as (Hq1 & Hq2 & _).
        split; [now apply Hq1 |].
        apply idle_decomp in H. destruct H as (_ & _ & H).
        destruct (schedule_ctl _ _ H) as (_ & _ & C3).
        intros i1. rewrite Hq2, Q4. intros E. injection E as <-.
        rewrite C3, stack_set_status. subst k0. cbn. unfold upd.
        now rewrite !Nat.eqb_refl.
      * (* another thread *)
        assert (Hq : qstep k0 k').
        { eapply exec_qstep; [exact H |]. rewrite Q4, Q5. congruence. }
        destruct Hq as (Hq1 & Hq2 & _ & Hq4).
        split; [now apply Hq1 |].
        intros i1. rewrite Hq2, Q4. intros E. injection E as <-.
        rewrite Hq4 by (rewrite Q5; exact Hne).
        rewrite Q7 by exact Hne. now apply J.
    + assert (Hq : qstep k0 k').
      { eapply exec_qstep; [exact H |]. rewrite Q4. discriminate. }
      destruct Hq as (Hq1 & Hq2 & _).
      split; [now apply Hq1 |].
      intros i1. rewrite Hq2, Q4. discriminate.
Qed.

Lemma run_queues_inv (fuel n : nat) :
  forall k k', run fuel n k = Ok k' ->
               queues_inv k /\ idle_inv k -> queues_inv k' /\ idle_inv k'.
Proof.
  induction n as [|n IH]; intros k k' H I; cbn [run] in H.
  - now injection H as <-.
  - bind_inv H. apply (IH _ _ H). eapply step_queues_inv; eassumption.
Qed.

Lemma sema_down_waiters (sema : sema_ptr) (again : instr) (k k' : kernel) (b : bool) :
  sema_down sema again k = Ok (b, k') ->
  (b = false ->
   value (get_sema k sema) = 0 /\
   waiters (get_sema k' sema) = waiters (get_sema k sema) ++ [running k]) /\
  (b = true ->
   value (get_sema k sema) <> 0 /\
   waiters (get_sema k' sema) = waiters (get_sema k sema)).
Proof.
  intros H. apply sema_down_decomp in H.
  destruct H as (_ & _ & [(-> & Hv & H) | (-> & Hv & ->)]).
  - split; [intros _ | discriminate]. split; [exact Hv |].
    apply schedule_frame in H. destruct H as [F _].
    rewrite (get_sema_sched_frame _ _ sema F), get_sema_set_status.
    destruct (enqueue_waiter_fields sema again k) as (_ & _ & _ & _ & _ & _ & _ & _ & _ & _ & _ & _ & _ & _ & E15).
    rewrite E15. destruct (sema_ptr_eq_dec sema sema); [reflexivity | congruence].
  - split; [discriminate | intros _]. split; [exact Hv |].
    now rewrite get_set_sema_same.
Qed.

(** C9.  Start from a kernel in which the queues are in order (no thread
    twice on a list or on two lists, ready threads on the ready list,
    blocked threads on the waiter lists) and the idle thread runs [idle].
    Then in every kernel that the threads reach, whatever they call and
    however they are interleaved, no waiter list holds a thread twice.
    [sema_up] takes the thread it wakes off the waiter list: when it has
    made that thread ready the thread is no longer on the list.  A thread
    is appended to the list by [sema_down] only when it finds the value 0,
    and is then blocked; when it finds another value the list is left as it
    is. *)
Theorem waiter_lists_hold_each_thread_once :
  (forall fuel n k k',
     queues_inv k -> idle_inv k -> run fuel n k = Ok k' ->
     forall sema, NoDup (waiters (get_sema k' sema))) /\
  (forall sema k,
     queues_inv k -> waiters (get_sema k sema) <> [] ->
     exists t k1,
       sema_up_critical sema k = Ok k1 /\
       In t (waiters (get_sema k sema)) /\
       ~ In t (waiters (get_sema k1 sema)) /\
       status (threads k1 t) = THREAD_READY /\
       ready_list k1 = ready_list k ++ [t]) /\
  (forall sema again k b k',
     sema_down sema again k = Ok (b, k') ->
     (b = false ->
      value (get_sema k sema) = 0 /\
      waiters (get_sema k' sema) = waiters (get_sema k sema) ++ [running k]) /\
     (b = true ->
      value (get_sema k sema) <> 0 /\
      waiters (get_sema k' sema) = waiters (get_sema k sema))).
Proof.
  split; [| split].
  - intros fuel n k k' I J H sema.
    destruct (run_queues_inv fuel n k k' H (conj I J)) as [(_ & _ & I3 & _) _].
    apply I3.
  - intros sema k I Hne.
    assert (Hm : exists t, list_max (thread_priority_compare k)
                             (waiters (get_sema k sema)) = Some t).
    { destruct (waiters (get_sema k sema)); [congruence | eexists; reflexivity]. }
    destruct Hm as [t Hm]. assert (Hin := list_max_thread_In k _ t Hm).
    destruct I as (_ & _ & I3 & I4 & _).
    destruct (sema_up_critical_some sema k t Hm (I4 sema t Hin))
      as (k1 & Hc & Hw & _ & Hs & Hr & _).
    exists t, k1. repeat split; try assumption.
    rewrite Hw. apply list_remove_not_In. apply I3.
  - intros sema again k b k' H. eapply sema_down_waiters. exact H.
Qed.

(** Wake, then steal.  Thread 1 is blocked in [sema_down] on semaphore 0.
    Thread 0, of higher priority, calls [sema_up], which wakes thread 1, and
    then takes the value itself by [sema_down]; it then sleeps on semaphore
    1, and thread 1, back in its loop, finds the value 0.  Thread 2 is the
    idle thread. *)
Definition wake_then_steal : kernel :=
  boot [ (0%nat, new_thread 40 THREAD_RUNNING [ISemaUp 0; ISemaDown 0; ISemaDown 1]);
         (1%nat, new_thread 10 THREAD_BLOCKED [ISemaDown 0]);
         (2%nat, new_thread PRI_MIN THREAD_BLOCKED [IIdle]) ]
       (upd (fun _ => mkSemaphore 0 []) 0 (mkSemaphore 0 [1%nat]))
       [] 0%nat 2%nat.

Lemma wake_then_steal_queues_inv : queues_inv wake_then_steal /\ idle_inv wake_then_steal.
Proof.
  assert (W : forall p t, In t (waiters (get_sema wake_then_steal p)) ->
                          p = PlainSema 0 /\ t = 1%nat).
  { intros p t. destruct p as [l | s | u]; cbn; try tauto.
    unfold upd. destruct (Nat.eqb_spec s 0) as [-> | _]; cbn; [| tauto].
    intros [<- | []]. split; reflexivity. }
  split.
  - unfold queues_inv. repeat split.
    + constructor.
    + intros t [].
    + intros p. destruct p as [l | s | u]; cbn; try constructor.
      unfold upd. destruct (Nat.eqb s 0); cbn; repeat constructor. intros [].
    + intros p t H. destruct (W p t H) as [_ ->]. reflexivity.
    + intros p q t Hp Hq. destruct (W p t Hp) as [-> _], (W q t Hq) as [-> _].
      reflexivity.
    + intros i p E H. cbn in E. injection E as <-.
      destruct (W p _ H) as [_ E]. discriminate.
  - intros i E. cbn in E. injection E as <-. reflexivity.
Qed.

(** C9 in [wake_then_steal]: after four instructions thread 1 has put
    itself back on the waiter list of semaphore 0, on which it stands
    once. *)
Lemma waiter_lists_after_wake_then_steal :
  observe (fun k => (value (semas k 0%nat), waiters (semas k 0%nat),
                     status (threads k 1%nat)))
          (run 0 4 wake_then_steal)
  = Ok (0, [1%nat], THREAD_BLOCKED) /\
  forall sema, NoDup (waiters (get_sema (after 0 4 wake_then_steal) sema)).
Proof.
  split; [vm_compute; reflexivity |].
  apply (proj1 waiter_lists_hold_each_thread_once 0%nat 4%nat wake_then_steal).
  - apply wake_then_steal_queues_inv.
  - apply wake_then_steal_queues_inv.
  - vm_compute. reflexivity.
Defined.





(** * The scheduler, call by call *)

(** What [schedule] does to the threads: the chosen one becomes the running
    thread, and nothing else changes in the thread structures. *)
Lemma schedule_threads (k k' : kernel) :
  schedule k = Ok k' ->
  (forall t, status (threads k' t)
             = if Nat.eqb t (running k') then THREAD_RUNNING
               else status (threads k t)) /\
  (forall t, thread_data (threads k' t) = thread_data (threads k t)).
Proof.
  intros H. destruct (schedule_frame _ _ H) as [(_ & _ & _ & _ & _ & _ & F) _].
  split; [| exact F].
  apply schedule_inv in H. destruct H as (_ & n & k1 & Hn & ->).
  intros t. unfold thread_schedule_tail. cbn [running set_running set_status set_threads].
  rewrite status_set_status. cbn [running set_running].
  destruct (Nat.eqb t n); [reflexivity |].
  destruct (next_thread_to_run_cases k) as [[_ E] | (m & _ & E)];
    rewrite E in Hn; injection Hn as _ <-; reflexivity.
Qed.

(** [schedule] with threads ready: one of greatest effective priority is
    taken off the ready list and runs. *)
Lemma schedule_ready (k k' : kernel) :
  schedule k = Ok k' ->
  ready_list k <> [] ->
  In (running k') (ready_list k) /\
  ready_list k' = list_remove (running k') (ready_list k) /\
  (forall u, In u (ready_list k) ->
     effective_priority (threads k u)
     <= effective_priority (threads k (running k'))).
Proof.
  intros H Hr. apply schedule_inv in H. destruct H as (_ & n & k1 & Hn & ->).
  destruct (next_thread_to_run_cases k) as [[Er _] | (m & Hm & E)]; [congruence |].
  rewrite E in Hn. injection Hn as <- <-.
  unfold thread_schedule_tail. cbn [running set_running set_status set_threads ready_list
                                    set_ready_list].
  split; [now apply list_max_thread_In in Hm |]. split; [reflexivity |].
  destruct (list_max_thread_priority k _ m Hm) as (l1 & l2 & E' & H1 & H2).
  intros u Hu. rewrite E' in Hu. apply in_app_or in Hu.
  destruct Hu as [Hu | [<- | Hu]]; [now apply H1 | lia |].
  specialize (H2 u Hu). lia.
Qed.

(** [schedule] with no thread ready: the idle thread runs. *)
Lemma schedule_empty (k k' : kernel) :
  schedule k = Ok k' ->
  ready_list k = [] ->
  idle_thread k = Some (running k') /\ ready_list k' = [].
Proof.
  intros H Hr. apply schedule_inv in H. destruct H as (_ & n & k1 & Hn & ->).
  destruct (next_thread_to_run_cases k) as [[_ E] | (m & Hm & _)].
  - rewrite E in Hn. injection Hn as Hn <-.
    unfold thread_schedule_tail. cbn [running set_running set_status set_threads ready_list].
    split; assumption.
  - rewrite Hr in Hm. discriminate.
Qed.

(** The kernel in which a yielding thread other than the idle thread calls
    [schedule]. *)
Lemma yield_prepare_fields (k : kernel) :
  idle_thread k <> Some (running k) ->
  ready_list (yield_prepare k) = ready_list k ++ [running k] /\
  running (yield_prepare k) = running k /\
  (forall t, status (threads (yield_prepare k) t)
             = if Nat.eqb t (running k) then THREAD_READY else status (threads k t)) /\
  (forall t, thread_data (threads (yield_prepare k) t) = thread_data (threads k t)).
Proof.
  intros Hi.
  assert (E : yield_prepare k
              = log (EvYield (running k))
                  (set_status (set_ready_list k (list_push_back (ready_list k) (running k)))
                     (running k) THREAD_READY)).
  { unfold yield_prepare. destruct (idle_thread k) as [i|]; [| reflexivity].
    destruct (Nat.eqb_spec (running k) i) as [E | _]; [| reflexivity].
    elim Hi. now rewrite E. }
  rewrite E. cbn [ready_list log set_status set_threads set_ready_list running threads].
  split; [reflexivity |]. split; [reflexivity |]. split.
  - intros t. unfold upd. destruct (Nat.eqb t (running k)); reflexivity.
  - intros t. unfold upd. destruct (Nat.eqb_spec t (running k)) as [-> | _]; reflexivity.
Qed.

(** thread_yield, by a thread other than the idle thread.  The caller goes
    to the back of the ready list and a thread of greatest effective
    priority among the ready threads and the caller runs next; the caller
    itself when it is above every ready thread, another thread when a ready
    thread is above it.  No priority changes. *)
Theorem thread_yield_runs_a_highest_thread (k k' : kernel) :
  thread_yield k = Ok k' ->
  idle_thread k <> Some (running k) ->
  In (running k') (ready_list k ++ [running k]) /\
  ready_list k' = list_remove (running k') (ready_list k ++ [running k]) /\
  status (threads k' (running k')) = THREAD_RUNNING /\
  (forall u, In u (ready_list k ++ [running k]) ->
     effective_priority (threads k u)
     <= effective_priority (threads k (running k'))) /\
  (forall t, effective_priority (threads k' t) = effective_priority (threads k t)) /\
  ((forall u, In u (ready_list k) ->
      effective_priority (threads k u)
      < effective_priority (threads k (running k))) ->
   running k' = running k /\
   (~ In (running k) (ready_list k) -> ready_list k' = ready_list k)) /\
  ((exists u, In u (ready_list k) /\
      effective_priority (threads k (running k))
      < effective_priority (threads k u)) ->
   running k' <> running k /\
   status (threads k' (running k)) = THREAD_READY /\
   In (running k) (ready_list k')).
Proof.
  intros H Hi. apply thread_yield_decomp in H. destruct H as (Hs & _ & H).
  destruct (yield_prepare_fields k Hi) as (Er & Erun & Est & Ed).
  assert (Hne : ready_list (yield_prepare k) <> [])
    by (rewrite Er; intros E; now apply app_eq_nil in E as [_ E]).
  destruct (schedule_ready _ _ H Hne) as (Hin & Hrl & Hmax).
  destruct (schedule_threads _ _ H) as (Hst & Hd).
  rewrite Er in Hin, Hrl.
  assert (Eff : forall t, effective_priority (threads (yield_prepare k) t)
                          = effective_priority (threads k t))
    by (intros t; apply thread_data_effective, Ed).
  assert (Hmax' : forall u, In u (ready_list k ++ [running k]) ->
                    effective_priority (threads k u)
                    <= effective_priority (threads k (running k'))).
  { intros u Hu. rewrite <- !Eff. apply Hmax. now rewrite Er. }
  split; [exact Hin |]. split; [exact Hrl |].
  split; [rewrite Hst, Nat.eqb_refl; reflexivity |].
  split; [exact Hmax' |].
  split; [intros t; rewrite <- Eff; apply thread_data_effective, Hd |].
  split.
  - intros Hlt.
    assert (R : running k' = running k).
    { apply in_app_or in Hin. destruct Hin as [Hin | [E | []]]; [| now symmetry].
      specialize (Hlt _ Hin).
      assert (Hc : In (running k) (ready_list k ++ [running k]))
        by (apply in_or_app; right; now left).
      specialize (Hmax' _ Hc). lia. }
    split; [exact R |]. intros Hnin. rewrite Hrl, R.
    rewrite <- (app_nil_r (ready_list k)) at 2.
    now apply list_remove_middle.
  - intros (u & Hu & Hlt).
    assert (R : running k' <> running k).
    { intros E. assert (Hc : In u (ready_list k ++ [running k]))
        by (apply in_or_app; now left).
      specialize (Hmax' _ Hc). rewrite E in Hmax'. lia. }
    split; [exact R |]. split.
    + rewrite Hst, Est, Nat.eqb_refl.
      destruct (Nat.eqb_spec (running k) (running k')); [congruence | reflexivity].
    + rewrite Hrl. apply list_remove_In_other; [congruence |].
      apply in_or_app. right. now left.
Qed.

(** thread_yield in [signal_no_waiter]: thread 0 (priority 31) yields to
    thread 1 (priority 40) and waits on the ready list. *)
Lemma thread_yield_to_higher_at_signal_no_waiter :
  exists k',
    thread_yield signal_no_waiter = Ok k' /\
    running k' <> running signal_no_waiter /\
    status (threads k' (running signal_no_waiter)) = THREAD_READY /\
    In (running signal_no_waiter) (ready_list k').
Proof.
  destruct (thread_yield_total signal_no_waiter) as [k' Hk']; try reflexivity.
  exists k'. split; [exact Hk' |].
  apply (thread_yield_runs_a_highest_thread signal_no_waiter k' Hk').
  - discriminate.
  - exists 1%nat. split; [now left | reflexivity].
Defined.

(** thread_block.  It fails its first assertion in an interrupt context,
    whatever the interrupt level, and its second when it is called with
    interrupts on; called with interrupts off, [schedule] fails its own when
    there is neither a ready thread nor an idle thread.  Otherwise, with
    interrupts off, the caller is left blocked and off the ready list, and a
    ready thread of greatest effective priority runs, or the idle thread when
    none is ready; a caller other than the idle thread has given the
    processor away. *)
Theorem thread_block_hands_the_processor_over (k : kernel) :
  status (threads k (running k)) = THREAD_RUNNING ->
  (intr_context k = true ->
   forall level, thread_block level k = Panic ASSERT_not_intr_context) /\
  (intr_context k = false -> thread_block INTR_ON k = Panic ASSERT_intr_off) /\
  (intr_context k = false -> ready_list k = [] -> idle_thread k = None ->
   thread_block INTR_OFF k = Panic ASSERT_is_thread) /\
  (intr_context k = false -> (ready_list k = [] -> idle_thread k <> None) ->
   exists k',
     thread_block INTR_OFF k = Ok k' /\
     (forall t, status (threads k' t)
                = if Nat.eqb t (running k') then THREAD_RUNNING
                  else if Nat.eqb t (running k) then THREAD_BLOCKED
                       else status (threads k t)) /\
     (ready_list k = [] -> idle_thread k = Some (running k') /\ ready_list k' = []) /\
     (ready_list k <> [] ->
      In (running k') (ready_list k) /\
      ready_list k' = list_remove (running k') (ready_list k) /\
      forall u, In u (ready_list k) ->
        effective_priority (threads k u)
        <= effective_priority (threads k (running k'))) /\
     (~ In (running k) (ready_list k) -> idle_thread k <> Some (running k) ->
      running k' <> running k /\
      status (threads k' (running k)) = THREAD_BLOCKED /\
      ~ In (running k) (ready_list k'))).
Proof.
  intros Hs. split; [| split; [| split]].
  - intros Hi level. unfold thread_block. rewrite Hi. reflexivity.
  - intros Hi. unfold thread_block. rewrite Hi. reflexivity.
  - intros Hi Hr Hn. rewrite (thread_block_running k Hs Hi).
    unfold schedule, next_thread_to_run.
    cbn [ready_list set_status set_threads idle_thread running]. rewrite Hr, Hn.
    cbn [list_empty]. rewrite status_set_status, Nat.eqb_refl. reflexivity.
  - intros Hi Hidle. rewrite (thread_block_running k Hs Hi).
    set (k1 := set_status k (running k) THREAD_BLOCKED).
    assert (S1 : forall t, status (threads k1 t)
                           = if Nat.eqb t (running k) then THREAD_BLOCKED
                             else status (threads k t))
      by (intros t; apply status_set_status).
    assert (D1 : forall t, effective_priority (threads k1 t)
                           = effective_priority (threads k t)).
    { intros t. apply thread_data_effective.
      destruct (set_status_frame k (running k) THREAD_BLOCKED) as (_ & _ & _ & _ & _ & _ & F).
      apply F. }
    destruct (schedule_total k1) as [k' Hk'].
    + rewrite S1, Nat.eqb_refl. discriminate.
    + exact Hidle.
    + exists k'. split; [exact Hk' |].
      destruct (schedule_threads _ _ Hk') as [Hst _].
      split; [intros t; rewrite Hst, S1; reflexivity |].
      split; [intros Hr; now apply (schedule_empty k1 k' Hk') |].
      assert (R : ready_list k <> [] ->
                  In (running k') (ready_list k) /\
                  ready_list k' = list_remove (running k') (ready_list k) /\
                  forall u, In u (ready_list k) ->
                    effective_priority (threads k u)
                    <= effective_priority (threads k (running k'))).
      { intros Hr. destruct (schedule_ready k1 k' Hk' Hr) as (A & B & C).
        split; [exact A |]. split; [exact B |].
        intros u Hu. rewrite <- !D1. now apply C. }
      split; [exact R |].
      intros Hnin Hnidle.
      assert (Hne : running k' <> running k).
      { destruct (ready_list k) as [|x xs] eqn:Er.
        - destruct (schedule_empty k1 k' Hk' Er) as [E _]. cbn in E. congruence.
        - destruct R as (A & _); [discriminate |]. intros E. rewrite E in A.
          now apply Hnin. }
      split; [exact Hne |]. split.
      * rewrite Hst, S1, Nat.eqb_refl.
        destruct (Nat.eqb_spec (running k) (running k')); [congruence | reflexivity].
      * destruct (ready_list k) as [|x xs] eqn:Er.
        -- destruct (schedule_empty k1 k' Hk' Er) as [_ ->]. intros [].
        -- destruct R as (_ & -> & _); [discriminate |].
           intros Hin. apply list_remove_In in Hin. now apply Hnin.
Qed.

(** thread_block in [signal_no_waiter]: with interrupts on the call fails;
    with interrupts off thread 0 blocks and thread 1, the only ready thread,
    runs. *)
Lemma thread_block_at_signal_no_waiter :
  thread_block INTR_ON signal_no_waiter = Panic ASSERT_intr_off /\
  exists k',
    thread_block INTR_OFF signal_no_waiter = Ok k' /\
    running k' <> running signal_no_waiter /\
    status (threads k' (running signal_no_waiter)) = THREAD_BLOCKED /\
    ~ In (running signal_no_waiter) (ready_list k').
Proof.
  destruct (thread_block_hands_the_processor_over signal_no_waiter eq_refl)
    as (_ & Hon & _ & H).
  split; [apply Hon; reflexivity |].
  destruct H as (k' & Hk' & _ & _ & _ & H); [reflexivity | discriminate |].
  exists k'. split; [exact Hk' |]. apply H.
  - intros [E | []]. discriminate.
  - discriminate.
Defined.

(** thread_unblock.  It fails its assertion on a thread that is not
    blocked.  On a blocked thread it makes the thread ready at the back of
    the ready list and returns to its caller: the running thread is the same,
    whatever the priority of the thread made ready.  Unblocking the same
    thread again fails the assertion. *)
Theorem thread_unblock_appends_and_returns (t : nat) (k : kernel) :
  (status (threads k t) <> THREAD_BLOCKED ->
   thread_unblock t k = Panic ASSERT_thread_blocked) /\
  (status (threads k t) = THREAD_BLOCKED ->
   exists k',
     thread_unblock t k = Ok k' /\
     running k' = running k /\
     ready_list k' = ready_list k ++ [t] /\
     status (threads k' t) = THREAD_READY /\
     thread_data (threads k' t) = thread_data (threads k t) /\
     (forall u, u <> t -> threads k' u = threads k u) /\
     thread_unblock t k' = Panic ASSERT_thread_blocked).
Proof.
  split.
  - intros Hs. unfold thread_unblock.
    destruct (status (threads k t)); try reflexivity. congruence.
  - intros Hs. unfold thread_unblock at 1. rewrite Hs. cbn [thread_status_eqb assert bind].
    eexists. split; [reflexivity |].
    cbn [running log set_status set_threads set_ready_list ready_list threads].
    unfold upd. rewrite Nat.eqb_refl.
    split; [reflexivity |]. split; [reflexivity |]. split; [reflexivity |].
    split; [reflexivity |]. split.
    + intros u Hu. destruct (Nat.eqb_spec u t); [congruence | reflexivity].
    + unfold thread_unblock. cbn [threads log set_status set_threads]. unfold upd.
      rewrite Nat.eqb_refl. reflexivity.
Qed.

(** init_thread.  A priority outside PRI_MIN..PRI_MAX fails the assertion.
    Otherwise the thread goes to the back of the list of all threads and is
    left blocked with that base priority, no donated priority, no lock held
    and none awaited, so that its effective priority is its base priority;
    no other thread is touched, nor the ready list, a semaphore, a lock or a
    condition, and [thread_unblock] then makes the thread ready. *)
Theorem init_thread_checks_the_priority (t : nat) (prio : Z) (all_list : list nat)
    (k : kernel) :
  (prio < PRI_MIN \/ PRI_MAX < prio ->
   init_thread t prio all_list k = Panic ASSERT_priority_range) /\
  (PRI_MIN <= prio <= PRI_MAX ->
   exists k',
     init_thread t prio all_list k = Ok (all_list ++ [t], k') /\
     status (threads k' t) = THREAD_BLOCKED /\
     priority (threads k' t) = prio /\
     donation_priority (threads k' t) = PRI_MIN /\
     lock_list (threads k' t) = [] /\
     thread_lock (threads k' t) = None /\
     effective_priority (threads k' t) = prio /\
     (forall u, u <> t -> threads k' u = threads k u) /\
     ready_list k' = ready_list k /\ running k' = running k /\
     (forall p, get_sema k' p = get_sema k p) /\
     locks k' = locks k /\ conds k' = conds k /\
     idle_thread k' = idle_thread k /\ intr_context k' = intr_context k /\
     exists k'',
       thread_unblock t k' = Ok k'' /\
       ready_list k'' = ready_list k ++ [t] /\
       status (threads k'' t) = THREAD_READY).
Proof.
  unfold PRI_MIN, PRI_MAX. split.
  - intros Hp. unfold init_thread, PRI_MIN, PRI_MAX.
    destruct (Z.leb_spec 0 prio); destruct (Z.leb_spec prio 63);
      try reflexivity; lia.
  - intros Hp. unfold init_thread, PRI_MIN, PRI_MAX.
    destruct (Z.leb_spec 0 prio); destruct (Z.leb_spec prio 63); try lia.
    cbn [andb assert bind]. eexists. split; [reflexivity |].
    cbn [threads set_threads ready_list running]. unfold upd. rewrite Nat.eqb_refl.
    cbn [status priority donation_priority lock_list thread_lock].
    repeat (split; [reflexivity |]).
    split; [unfold effective_priority; cbn [priority donation_priority];
            destruct (Z.gtb_spec 0 prio); lia |].
    split; [intros u Hu; destruct (Nat.eqb_spec u t); [congruence | reflexivity] |].
    split; [reflexivity |]. split; [reflexivity |].
    split; [intros p; destruct p; reflexivity |].
    split; [reflexivity |]. split; [reflexivity |].
    split; [reflexivity |]. split; [reflexivity |].
    unfold thread_unblock. cbn [threads set_threads]. unfold upd. rewrite Nat.eqb_refl.
    cbn [status thread_status_eqb assert bind]. eexists. split; [reflexivity |].
    cbn [ready_list log set_status set_threads set_ready_list threads]. unfold upd.
    rewrite Nat.eqb_refl. split; reflexivity.
Qed.

(** ** The scheduler's choice *)





(** * Semaphores, locks and conditions, call by call *)

(** ** Interrupt context *)

(** What may sleep or yield fails its assertion when called from an
    interrupt handler: sema_down, lock_acquire, cond_wait, cond_signal,
    thread_yield, thread_block and thread_exit, and thread_set_priority as
    well, which ends in thread_yield. *)
Theorem calls_that_yield_fail_in_interrupt_context (k : kernel) :
  intr_context k = true ->
  status (threads k (running k)) = THREAD_RUNNING ->
  (forall sema again, sema_down sema again k = Panic ASSERT_not_intr_context) /\
  (forall fuel l, lock_acquire fuel l k = Panic ASSERT_not_intr_context) /\
  (forall c l pos, cond_wait c l pos k = Panic ASSERT_not_intr_context) /\
  (forall c l, cond_signal c l k = Panic ASSERT_not_intr_context) /\
  thread_yield k = Panic ASSERT_not_intr_context /\
  (forall level, thread_block level k = Panic ASSERT_not_intr_context) /\
  thread_exit k = Panic ASSERT_not_intr_context /\
  (forall p, thread_set_priority p k = Panic ASSERT_not_intr_context).
Proof.
  intros Hi Hs.
  assert (Y : forall k0, intr_context k0 = true ->
                status (threads k0 (running k0)) = THREAD_RUNNING ->
                thread_yield k0 = Panic ASSERT_not_intr_context).
  { intros k0 Hi0 Hs0. unfold thread_yield.
    rewrite (thread_current_running k0 Hs0). cbn [bind]. rewrite Hi0. reflexivity. }
  split; [intros sema again; unfold sema_down; rewrite Hi; reflexivity |].
  split; [intros fuel l; unfold lock_acquire; rewrite Hi; reflexivity |].
  split; [intros c l pos; unfold cond_wait; rewrite Hi; reflexivity |].
  split; [intros c l; unfold cond_signal; rewrite Hi; reflexivity |].
  split; [now apply Y |].
  split; [intros level; unfold thread_block; rewrite Hi; reflexivity |].
  split; [unfold thread_exit; rewrite Hi; reflexivity |].
  intros p. unfold thread_set_priority.
  rewrite (thread_current_running k Hs). cbn [bind]. apply Y.
  - exact Hi.
  - cbn [running set_priority set_threads threads]. unfold upd.
    rewrite Nat.eqb_refl. exact Hs.
Qed.

(** The kernel [k] with an interrupt handler running on top of its running
    thread. *)
Definition in_handler (k : kernel) : kernel :=
  mkKernel (threads k) (locks k) (semas k) (waiter_sema k) (conds k) (ready_list k)
           (running k) (idle_thread k) true (trace k).

Lemma calls_that_yield_fail_in_handler :
  sema_down (PlainSema 0) (ISemaDown 0) (in_handler five_waiters)
  = Panic ASSERT_not_intr_context /\
  thread_set_priority 10 (in_handler five_waiters) = Panic ASSERT_not_intr_context.
Proof.
  destruct (calls_that_yield_fail_in_interrupt_context (in_handler five_waiters)
              eq_refl eq_refl) as (H1 & _ & _ & _ & _ & _ & _ & H8).
  split; [apply H1 | apply H8].
Defined.

(** What [sema_up] has done to the semaphores when it returns. *)
Lemma sema_up_semaphores (sema : sema_ptr) (k k' : kernel) :
  sema_up sema k = Ok k' ->
  forall q, get_sema k' q
            = if sema_ptr_eq_dec q sema
              then mkSemaphore
                     ((value (get_sema k sema) + 1) mod UINT_MODULUS)
                     (match list_max (thread_priority_compare k)
                              (waiters (get_sema k sema)) with
                      | Some m => list_remove m (waiters (get_sema k sema))
                      | None => waiters (get_sema k sema)
                      end)
              else get_sema k q.
Proof.
  intros H q. apply sema_up_decomp in H. destruct H as (k1 & Hw & H).
  assert (V : value (get_sema k1 sema) = value (get_sema k sema)).
  { apply sema_up_wake_inv in Hw. destruct Hw as [[_ ->] | (m & _ & _ & ->)];
      [reflexivity |].
    match goal with
    | |- value (get_sema ?K sema) = _ =>
        assert (E : get_sema K sema
                    = get_sema (set_sema k sema
                                  (mkSemaphore (value (get_sema k sema))
                                     (list_remove m (waiters (get_sema k sema)))))
                               sema) by (destruct sema; reflexivity)
    end.
    rewrite E, get_set_sema_same. reflexivity. }
  assert (O : forall q, q <> sema -> get_sema k1 q = get_sema k q).
  { intros q0 Hq. apply sema_up_wake_inv in Hw.
    destruct Hw as [[_ ->] | (m & _ & _ & ->)]; [reflexivity |].
    match goal with
    | |- get_sema ?K q0 = _ =>
        assert (E : get_sema K q0
                    = get_sema (set_sema k sema
                                  (mkSemaphore (value (get_sema k sema))
                                     (list_remove m (waiters (get_sema k sema)))))
                               q0) by (destruct q0; reflexivity)
    end.
    rewrite E. now apply get_set_sema_other. }
  destruct (sema_up_wake_ctl _ _ _ Hw) as (_ & _ & _ & _ & W).
  set (k2 := set_sema k1 sema
               (mkSemaphore ((value (get_sema k1 sema) + 1) mod UINT_MODULUS)
                            (waiters (get_sema k1 sema)))) in H.
  assert (G : get_sema k2 q
              = if sema_ptr_eq_dec q sema
                then mkSemaphore
                       ((value (get_sema k sema) + 1) mod UINT_MODULUS)
                       (match list_max (thread_priority_compare k)
                                (waiters (get_sema k sema)) with
                        | Some m => list_remove m (waiters (get_sema k sema))
                        | None => waiters (get_sema k sema)
                        end)
                else get_sema k q).
  { unfold k2. destruct (sema_ptr_eq_dec q sema) as [-> | Hq].
    - rewrite get_set_sema_same, V, W. reflexivity.
    - rewrite get_set_sema_other by exact Hq. now apply O. }
  destruct H as [[_ ->] | [_ H]]; [exact G |].
  apply thread_yield_inv in H. destruct H as (_ & _ & F & _).
  now rewrite (get_sema_sched_frame _ _ q F).
Qed.

(** sema_up may be called from an interrupt handler: it wakes the waiter of
    highest priority and adds 1 to the value as elsewhere, and returns
    without calling thread_yield, the same thread running. *)
Theorem sema_up_in_interrupt_context_returns (sema : sema_ptr) (k : kernel) :
  intr_context k = true ->
  (forall u, In u (waiters (get_sema k sema)) ->
     status (threads k u) = THREAD_BLOCKED) ->
  exists k',
    sema_up sema k = Ok k' /\
    sema_up_critical sema k = Ok k' /\
    running k' = running k /\
    yielded (trace k') = yielded (trace k) /\
    value (get_sema k' sema) = (value (get_sema k sema) + 1) mod UINT_MODULUS /\
    (forall t, In t (waiters (get_sema k sema)) \/
               status (threads k' t) = status (threads k t)) /\
    (waiters (get_sema k sema) <> [] ->
     exists t, In t (waiters (get_sema k sema)) /\
               ready_list k' = ready_list k ++ [t] /\
               status (threads k' t) = THREAD_READY).
Proof.
  intros Hi Hb.
  assert (C : exists k', sema_up_critical sema k = Ok k' /\
                intr_context k' = true /\ running k' = running k /\
                yielded (trace k') = yielded (trace k) /\
                (forall t, In t (waiters (get_sema k sema)) \/
                           status (threads k' t) = status (threads k t)) /\
                (waiters (get_sema k sema) <> [] ->
                 exists t, In t (waiters (get_sema k sema)) /\
                           ready_list k' = ready_list k ++ [t] /\
                           status (threads k' t) = THREAD_READY)).
  { destruct (list_max (thread_priority_compare k) (waiters (get_sema k sema)))
      as [m|] eqn:Hm.
    - assert (Hin := list_max_thread_In k _ m Hm).
      unfold sema_up_critical.
      rewrite (sema_up_wake_some sema k m Hm (Hb m Hin)). cbn [bind].
      eexists. split; [reflexivity |].
      rewrite intr_context_set_sema, running_set_sema, trace_set_sema, threads_set_sema,
        ready_list_set_sema.
      cbn [intr_context running trace threads ready_list log set_status set_threads
           set_ready_list yielded].
      rewrite intr_context_set_sema, running_set_sema, trace_set_sema, threads_set_sema.
      split; [exact Hi |]. split; [reflexivity |]. split; [reflexivity |]. split.
      + intros t. unfold upd. destruct (Nat.eqb_spec t m) as [-> | _];
          [left; exact Hin | right; reflexivity].
      + intros _. exists m. split; [exact Hin |]. split; [reflexivity |].
        unfold upd. now rewrite Nat.eqb_refl.
    - assert (Hw : waiters (get_sema k sema) = [])
        by (destruct (waiters (get_sema k sema)); [reflexivity | discriminate]).
      unfold sema_up_critical, sema_up_wake. rewrite Hw. cbn [list_empty negb bind].
      eexists. split; [reflexivity |].
      rewrite intr_context_set_sema, running_set_sema, trace_set_sema, threads_set_sema.
      split; [exact Hi |]. split; [reflexivity |]. split; [reflexivity |].
      split; [intros t; now right | congruence]. }
  destruct C as (k' & Hc & Hi' & Hr & Hy & Hst & Hw).
  exists k'.
  assert (U : sema_up sema k = Ok k')
    by (unfold sema_up; rewrite Hc; cbn [bind]; rewrite Hi'; reflexivity).
  split; [exact U |]. split; [exact Hc |]. split; [exact Hr |]. split; [exact Hy |].
  split; [| split; assumption].
  rewrite (sema_up_semaphores _ _ _ U sema).
  destruct (sema_ptr_eq_dec sema sema); [reflexivity | congruence].
Qed.

Lemma sema_up_in_handler_returns :
  exists k',
    sema_up (PlainSema 0) (in_handler five_waiters) = Ok k' /\
    running k' = running (in_handler five_waiters) /\
    yielded (trace k') = yielded (trace (in_handler five_waiters)).
Proof.
  destruct (sema_up_in_interrupt_context_returns (PlainSema 0) (in_handler five_waiters))
    as (k' & H1 & _ & H3 & H4 & _).
  - reflexivity.
  - assert (E : waiters (get_sema (in_handler five_waiters) (PlainSema 0))
               = [1; 2; 3; 4; 5]%nat) by reflexivity.
    intros u Hu. rewrite E in Hu.
    destruct Hu as [<- | [<- | [<- | [<- | [<- | []]]]]]; reflexivity.
  - exists k'. repeat split; assumption.
Defined.

(** ** Assertions on the holder of a lock *)

(** A lock is not recursive: lock_acquire and lock_try_acquire on a lock
    that the caller holds fail their assertion; so does a second
    lock_acquire after one that took a free lock. *)
Theorem lock_acquire_of_a_held_lock_fails (fuel : nat) (l : nat) (k : kernel) :
  status (threads k (running k)) = THREAD_RUNNING ->
  intr_context k = false ->
  (holder (locks k l) = Some (running k) ->
   lock_acquire fuel l k = Panic ASSERT_lock_not_held /\
   lock_try_acquire l k = Panic ASSERT_lock_not_held) /\
  (holder (locks k l) <> Some (running k) ->
   value (lock_semaphore (locks k l)) > 0 ->
   exists k',
     lock_acquire fuel l k = Ok k' /\
     holder (locks k' l) = Some (running k) /\
     running k' = running k /\
     lock_acquire fuel l k' = Panic ASSERT_lock_not_held /\
     lock_try_acquire l k' = Panic ASSERT_lock_not_held).
Proof.
  intros Hs Hi.
  assert (P : forall k0, status (threads k0 (running k0)) = THREAD_RUNNING ->
                intr_context k0 = false ->
                holder (locks k0 l) = Some (running k0) ->
                lock_acquire fuel l k0 = Panic ASSERT_lock_not_held /\
                lock_try_acquire l k0 = Panic ASSERT_lock_not_held).
  { intros k0 Hs0 Hi0 Hh0. unfold lock_acquire, lock_try_acquire.
    rewrite Hi0, (lock_held_by_current_thread_true l k0 Hs0 Hh0). split; reflexivity. }
  split; [now apply P |].
  intros Hh Hv. destruct (lock_acquire_free fuel l k Hs Hi Hh Hv) as [E1 E2].
  rewrite E1, E2. cbn [bind snd]. eexists. split; [reflexivity |].
  match goal with |- holder (locks ?K l) = _ /\ _ => set (k' := K) end.
  assert (Hh' : holder (locks k' l) = Some (running k))
    by (unfold k'; cbn; unfold upd; now rewrite Nat.eqb_refl).
  assert (Hr' : running k' = running k) by reflexivity.
  assert (Hs' : status (threads k' (running k')) = THREAD_RUNNING).
  { rewrite Hr'. unfold k'. cbn. unfold upd. rewrite Nat.eqb_refl. exact Hs. }
  split; [exact Hh' |]. split; [exact Hr' |].
  apply P; [exact Hs' | exact Hi | now rewrite Hr'].
Qed.

Lemma lock_acquire_twice_fails_at_boot :
  exists k',
    lock_acquire 0 0 five_waiters = Ok k' /\
    lock_acquire 0 0 k' = Panic ASSERT_lock_not_held.
Proof.
  destruct (lock_acquire_of_a_held_lock_fails 0 0 five_waiters eq_refl eq_refl)
    as [_ H].
  destruct H as (k' & H1 & _ & _ & H4 & _); [discriminate | reflexivity |].
  exists k'. split; assumption.
Defined.

(** lock_release, cond_wait and cond_signal fail their assertion when the
    caller does not hold the lock, be the lock free or held by another
    thread. *)
Theorem calls_by_a_thread_that_does_not_hold_the_lock_fail (l : nat) (k : kernel) :
  status (threads k (running k)) = THREAD_RUNNING ->
  holder (locks k l) <> Some (running k) ->
  lock_release l k = Panic ASSERT_lock_held /\
  (intr_context k = false ->
   (forall c pos, cond_wait c l pos k = Panic ASSERT_lock_held) /\
   (forall c, cond_signal c l k = Panic ASSERT_lock_held)).
Proof.
  intros Hs Hh.
  assert (E := lock_held_by_current_thread_false l k Hs Hh).
  split.
  - unfold lock_release, lock_release_critical. rewrite E. reflexivity.
  - intros Hi. split.
    + intros c pos. unfold cond_wait. rewrite Hi, E. reflexivity.
    + intros c. unfold cond_signal. rewrite Hi, E. reflexivity.
Qed.

Lemma lock_release_of_a_free_lock_fails_at_boot :
  lock_release 0 five_waiters = Panic ASSERT_lock_held /\
  cond_signal 0 0 five_waiters = Panic ASSERT_lock_held.
Proof.
  destruct (calls_by_a_thread_that_does_not_hold_the_lock_fail 0 five_waiters eq_refl)
    as [H1 H2]; [discriminate |].
  split; [exact H1 |]. now apply H2.
Defined.

(** ** sema_try_down, sema_down and sema_up *)

(** What [set_sema] changes: the one semaphore. *)
Lemma get_set_sema (k : kernel) (p q : sema_ptr) (s : semaphore) :
  get_sema (set_sema k p s) q = if sema_ptr_eq_dec q p then s else get_sema k q.
Proof.
  destruct (sema_ptr_eq_dec q p) as [-> | Hq];
    [apply get_set_sema_same | now apply get_set_sema_other].
Qed.

(** sema_try_down is sema_down without the wait.  On a semaphore of
    positive value both take 1 off the value and return, in the same kernel,
    the caller still running.  On a semaphore at 0 sema_try_down gives false
    and leaves the kernel as it is, where sema_down puts the caller to sleep
    at the back of the waiters. *)
Theorem sema_try_down_is_sema_down_without_the_wait
    (sema : sema_ptr) (again : instr) (k : kernel) :
  status (threads k (running k)) = THREAD_RUNNING ->
  intr_context k = false ->
  0 <= value (get_sema k sema) ->
  (ready_list k = [] -> idle_thread k <> None) ->
  (value (get_sema k sema) > 0 ->
   exists k',
     sema_try_down sema k = (true, k') /\
     sema_down sema again k = Ok (true, k') /\
     value (get_sema k' sema) = (value (get_sema k sema) - 1) mod UINT_MODULUS /\
     waiters (get_sema k' sema) = waiters (get_sema k sema) /\
     (forall q, q <> sema -> get_sema k' q = get_sema k q) /\
     threads k' = threads k /\ ready_list k' = ready_list k /\
     running k' = running k) /\
  (value (get_sema k sema) = 0 ->
   sema_try_down sema k = (false, k) /\
   exists k',
     sema_down sema again k = Ok (false, k') /\
     waiters (get_sema k' sema) = waiters (get_sema k sema) ++ [running k] /\
     value (get_sema k' sema) = 0 /\
     status (threads k' (running k))
     = (if Nat.eqb (running k) (running k') then THREAD_RUNNING else THREAD_BLOCKED) /\
     stack (threads k' (running k)) = again :: stack (threads k (running k))).
Proof.
  intros Hs Hi Hv Hidle. split.
  - intros Hpos.
    destruct (sema_down_cases sema again k Hs Hi) as [[E _] | [_ E]]; [lia |].
    unfold sema_try_down. destruct (Z.gtb_spec (value (get_sema k sema)) 0); [| lia].
    eexists. split; [reflexivity |]. split; [exact E |].
    rewrite get_set_sema_same, threads_set_sema, ready_list_set_sema, running_set_sema.
    cbn [value waiters]. repeat split.
    intros q Hq. now apply get_set_sema_other.
  - intros Hz. split.
    + unfold sema_try_down. rewrite Hz. reflexivity.
    + destruct (sema_down_cases sema again k Hs Hi) as [[_ E] | [E _]]; [| lia].
      rewrite E.
      destruct (enqueue_waiter_fields sema again k)
        as (E1 & E2 & E3 & E4 & _ & _ & E7 & _ & _ & _ & _ & E12 & _ & _ & E15).
      rewrite thread_block_running by (now rewrite ?E1, ?E7, ?E4).
      rewrite E1.
      set (k1 := set_status (enqueue_waiter sema again k) (running k) THREAD_BLOCKED).
      destruct (schedule_total k1) as [k' Hk'].
      * unfold k1. cbn [running set_status set_threads]. rewrite E1.
        rewrite status_set_status, Nat.eqb_refl. discriminate.
      * unfold k1. cbn [ready_list idle_thread set_status set_threads].
        now rewrite E2, E3.
      * rewrite Hk'. cbn [bind]. exists k'. split; [reflexivity |].
        destruct (schedule_frame _ _ Hk') as [F _].
        destruct (schedule_threads _ _ Hk') as [Hst Hd].
        rewrite (get_sema_sched_frame _ _ sema F).
        unfold k1 at 1 2. rewrite get_sema_set_status, E15.
        destruct (sema_ptr_eq_dec sema sema) as [_ | N]; [| congruence].
        cbn [waiters value]. split; [reflexivity |]. split; [exact Hz |]. split.
        -- rewrite Hst. unfold k1. rewrite status_set_status, Nat.eqb_refl. reflexivity.
        -- destruct (thread_data_fields _ _ (Hd (running k))) as (_ & _ & _ & _ & ->).
           unfold k1. rewrite stack_set_status, E12, Nat.eqb_refl. reflexivity.
Qed.

Lemma sema_try_down_at_five_waiters :
  sema_try_down (PlainSema 0) five_waiters = (false, five_waiters) /\
  exists k',
    sema_down (PlainSema 0) (ISemaDown 0) five_waiters = Ok (false, k') /\
    waiters (get_sema k' (PlainSema 0))
    = waiters (get_sema five_waiters (PlainSema 0)) ++ [running five_waiters].
Proof.
  destruct (sema_try_down_is_sema_down_without_the_wait
              (PlainSema 0) (ISemaDown 0) five_waiters) as [_ H];
    [reflexivity | reflexivity | vm_compute; discriminate | discriminate |].
  destruct H as (H1 & k' & H2 & H3 & _); [reflexivity |].
  split; [exact H1 |]. exists k'. split; assumption.
Defined.

(** sema_up, up to its yield, followed by sema_try_down gives back the
    semaphore as it was, when nobody waits on it and its value is below
    UINT_MAX.  At UINT_MAX the increment of the [unsigned] value wraps to 0:
    the semaphore is then empty and sema_try_down fails. *)
Theorem sema_up_then_sema_try_down (sema : sema_ptr) (k : kernel) :
  waiters (get_sema k sema) = [] ->
  0 <= value (get_sema k sema) < UINT_MODULUS ->
  exists k1,
    sema_up_critical sema k = Ok k1 /\
    threads k1 = threads k /\ ready_list k1 = ready_list k /\ running k1 = running k /\
    (value (get_sema k sema) < UINT_MODULUS - 1 ->
     value (get_sema k1 sema) = value (get_sema k sema) + 1 /\
     fst (sema_try_down sema k1) = true /\
     (forall q, value (get_sema (snd (sema_try_down sema k1)) q) = value (get_sema k q) /\
                waiters (get_sema (snd (sema_try_down sema k1)) q)
                = waiters (get_sema k q))) /\
    (value (get_sema k sema) = UINT_MODULUS - 1 ->
     value (get_sema k1 sema) = 0 /\
     sema_try_down sema k1 = (false, k1)).
Proof.
  intros Hw Hv. unfold sema_up_critical, sema_up_wake. rewrite Hw.
  cbn [list_empty negb bind]. eexists. split; [reflexivity |].
  rewrite threads_set_sema, ready_list_set_sema, running_set_sema.
  repeat (split; [reflexivity |]).
  rewrite get_set_sema_same. cbn [value].
  assert (M : UINT_MODULUS = 4294967296) by reflexivity.
  split.
  - intros Hlt.
    assert (E : (value (get_sema k sema) + 1) mod UINT_MODULUS
                = value (get_sema k sema) + 1) by (apply Z.mod_small; lia).
    rewrite E. split; [reflexivity |].
    unfold sema_try_down. rewrite get_set_sema_same. cbn [value waiters]. rewrite ?E.
    destruct (Z.gtb_spec (value (get_sema k sema) + 1) 0); [| lia].
    cbn [fst snd]. split; [reflexivity |].
    intros q. rewrite !get_set_sema.
    destruct (sema_ptr_eq_dec q sema) as [-> | _]; [| split; reflexivity].
    cbn [value waiters]. rewrite Hw. split; [| reflexivity].
    replace (value (get_sema k sema) + 1 - 1) with (value (get_sema k sema)) by lia.
    apply Z.mod_small. lia.
  - intros He.
    assert (Z0 : (value (get_sema k sema) + 1) mod UINT_MODULUS = 0)
      by (rewrite He; reflexivity).
    rewrite Z0. split; [reflexivity |].
    unfold sema_try_down. rewrite get_set_sema_same. cbn [value]. rewrite ?Z0.
    reflexivity.
Qed.

Lemma sema_up_then_sema_try_down_at_boot :
  exists k1,
    sema_up_critical (PlainSema 1) five_waiters = Ok k1 /\
    value (get_sema k1 (PlainSema 1)) = value (get_sema five_waiters (PlainSema 1)) + 1 /\
    fst (sema_try_down (PlainSema 1) k1) = true.
Proof.
  destruct (sema_up_then_sema_try_down (PlainSema 1) five_waiters)
    as (k1 & H1 & _ & _ & _ & H5 & _);
    [reflexivity | split; [vm_compute; discriminate | vm_compute; reflexivity] |].
  exists k1. split; [exact H1 |].
  destruct H5 as (A & B & _); [reflexivity |]. split; assumption.
Defined.

(** ** lock_try_acquire, lock_acquire and lock_release *)

(** Taking a free lock. *)
Lemma lock_take_fields (fuel : nat) (l : nat) (k : kernel) :
  status (threads k (running k)) = THREAD_RUNNING ->
  intr_context k = false ->
  holder (locks k l) <> Some (running k) ->
  value (lock_semaphore (locks k l)) > 0 ->
  exists k',
    lock_try_acquire l k = Ok (true, k') /\
    lock_acquire fuel l k = Ok k' /\
    holder (locks k' l) = Some (running k) /\
    lock_list (threads k' (running k)) = l :: lock_list (threads k (running k)) /\
    lock_semaphore (locks k' l)
    = mkSemaphore ((value (lock_semaphore (locks k l)) - 1) mod UINT_MODULUS)
                  (waiters (lock_semaphore (locks k l))) /\
    running k' = running k /\ ready_list k' = ready_list k /\
    intr_context k' = intr_context k /\ trace k' = trace k /\
    (forall t, status (threads k' t) = status (threads k t) /\
               priority (threads k' t) = priority (threads k t) /\
               donation_priority (threads k' t) = donation_priority (threads k t) /\
               thread_lock (threads k' t) = thread_lock (threads k t) /\
               stack (threads k' t) = stack (threads k t)) /\
    (forall t, t <> running k -> threads k' t = threads k t) /\
    (forall m, lock_priority (locks k' m) = lock_priority (locks k m)) /\
    (forall m, m <> l -> locks k' m = locks k m).
Proof.
  intros Hs Hi Hh Hv. destruct (lock_acquire_free fuel l k Hs Hi Hh Hv) as [E1 E2].
  rewrite E1, E2. cbn [bind snd]. eexists. split; [reflexivity |].
  split; [reflexivity |].
  cbn. unfold upd. rewrite !Nat.eqb_refl. cbn.
  repeat (split; [reflexivity |]).
  split; [| split; [| split]].
  - intros t. destruct (Nat.eqb_spec t (running k)) as [-> | _]; repeat split.
  - intros t Ht. destruct (Nat.eqb_spec t (running k)); [congruence | reflexivity].
  - intros m. destruct (Nat.eqb_spec m l) as [-> | _]; reflexivity.
  - intros m Hm. destruct (Nat.eqb_spec m l); [congruence | reflexivity].
Qed.

(** lock_try_acquire on a lock held by another thread gives false and
    leaves the kernel as it is: nobody is given a priority and the caller
    does not wait.  On a free lock it does what lock_acquire does: the caller
    holds the lock, which is at the front of its lock list, and still runs;
    no priority has changed. *)
Theorem lock_try_acquire_takes_or_leaves (fuel : nat) (l : nat) (k : kernel) :
  status (threads k (running k)) = THREAD_RUNNING ->
  intr_context k = false ->
  holder (locks k l) <> Some (running k) ->
  (value (lock_semaphore (locks k l)) <= 0 -> lock_try_acquire l k = Ok (false, k)) /\
  (value (lock_semaphore (locks k l)) > 0 ->
   exists k',
     lock_try_acquire l k = Ok (true, k') /\
     lock_acquire fuel l k = Ok k' /\
     holder (locks k' l) = Some (running k) /\
     lock_list (threads k' (running k)) = l :: lock_list (threads k (running k)) /\
     value (lock_semaphore (locks k' l))
     = (value (lock_semaphore (locks k l)) - 1) mod UINT_MODULUS /\
     running k' = running k /\ ready_list k' = ready_list k /\
     (forall t, status (threads k' t) = status (threads k t) /\
                priority (threads k' t) = priority (threads k t) /\
                donation_priority (threads k' t) = donation_priority (threads k t)) /\
     (forall m, lock_priority (locks k' m) = lock_priority (locks k m)) /\
     (forall m, m <> l -> locks k' m = locks k m)).
Proof.
  intros Hs Hi Hh. split.
  - intros Hv. unfold lock_try_acquire.
    rewrite (lock_held_by_current_thread_false l k Hs Hh). cbn [bind negb assert].
    rewrite (thread_current_running k Hs). cbn [bind].
    unfold sema_try_down. cbn [get_sema].
    destruct (Z.gtb_spec (value (lock_semaphore (locks k l))) 0); [lia | reflexivity].
  - intros Hv. destruct (lock_take_fields fuel l k Hs Hi Hh Hv)
      as (k' & A1 & A2 & A3 & A4 & A5 & A6 & A7 & _ & _ & A10 & _ & A12 & A13).
    exists k'. rewrite A5. cbn [value].
    repeat (split; [assumption || reflexivity |]).
    split; [| split; assumption].
    intros t. destruct (A10 t) as (B1 & B2 & B3 & _). repeat split; assumption.
Qed.

Lemma lock_try_acquire_takes_at_boot :
  exists k',
    lock_try_acquire 0 five_waiters = Ok (true, k') /\
    lock_acquire 0 0 five_waiters = Ok k' /\
    holder (locks k' 0%nat) = Some (running five_waiters).
Proof.
  destruct (lock_try_acquire_takes_or_leaves 0 0 five_waiters) as [_ H];
    [reflexivity | reflexivity | discriminate |].
  destruct H as (k' & H1 & H2 & H3 & _); [reflexivity |].
  exists k'. repeat split; assumption.
Defined.

Lemma remaining_locks_id (l : nat) (held : list nat) :
  ~ In l held -> remaining_locks l held = held.
Proof.
  unfold remaining_locks. induction held as [|h held IH]; [reflexivity |].
  intros Hn. cbn [filter].
  destruct (Nat.eqb_spec l h) as [-> | _]; [elim Hn; now left |].
  cbn [negb]. f_equal. apply IH. intros Hin. apply Hn. now right.
Qed.

(** lock_acquire of a free lock followed by lock_release.  Take a lock as
    lock_init leaves it, and a caller whose donated priority is the greatest
    ceiling of the locks it holds.  After the two calls every lock has the
    holder, the ceiling and the semaphore it had, and every thread the
    priorities, the lock list and the awaited lock it had; in between the
    caller holds the lock, and lock_release has yielded once. *)
Theorem lock_acquire_then_lock_release (fuel : nat) (l : nat) (k : kernel) :
  status (threads k (running k)) = THREAD_RUNNING ->
  intr_context k = false ->
  locks k l = mkLock None (mkSemaphore 1 []) PRI_MIN ->
  ~ In l (lock_list (threads k (running k))) ->
  donation_priority (threads k (running k))
  = max_ceiling k (lock_list (threads k (running k))) ->
  exists k1 k2,
    lock_acquire fuel l k = Ok k1 /\
    holder (locks k1 l) = Some (running k) /\
    running k1 = running k /\
    lock_release l k1 = Ok k2 /\
    (forall m, holder (locks k2 m) = holder (locks k m)) /\
    (forall m, lock_priority (locks k2 m) = lock_priority (locks k m)) /\
    (forall m, lock_semaphore (locks k2 m) = lock_semaphore (locks k m)) /\
    (forall t, thread_data (threads k2 t) = thread_data (threads k t)) /\
    yielded (trace k2) = running k :: yielded (trace k) /\
    wake_order k2 = wake_order k.
Proof.
  intros Hs Hi Hl Hnin Hd.
  assert (Hh : holder (locks k l) <> Some (running k)) by (rewrite Hl; discriminate).
  assert (Hv : value (lock_semaphore (locks k l)) > 0) by (rewrite Hl; reflexivity).
  destruct (lock_take_fields fuel l k Hs Hi Hh Hv)
    as (k1 & _ & A2 & A3 & A4 & A5 & A6 & A7 & A8 & A9 & A10 & A11 & A12 & A13).
  exists k1.
  assert (Hs1 : status (threads k1 (running k1)) = THREAD_RUNNING)
    by (rewrite A6; now rewrite (proj1 (A10 (running k)))).
  assert (Hh1 : holder (locks k1 l) = Some (running k1)) by now rewrite A6.
  assert (Hin1 : In l (lock_list (threads k1 (running k1))))
    by (rewrite A6, A4; now left).
  destruct (lock_release_critical_spec l k1 Hs1 Hh1 Hin1)
    as (k2 & Hc & F & R1 & R2 & R3 & R4).
  rewrite A6 in *.
  destruct F as (F1 & F2 & F3 & F4 & F5 & F6 & F7 & F8 & F9 & F10 & F11 & F12 & F13
                 & F14 & F15).
  assert (W2 : waiters (get_sema k2 (LockSema l)) = []).
  { cbn [get_sema]. rewrite F2, A5. rewrite Hl. reflexivity. }
  destruct (sema_up_total (LockSema l) k2) as [k3 Hk3].
  { rewrite F12, A6, F4. now rewrite (proj1 (A10 (running k))). }
  { rewrite W2. intros u []. }
  exists k3. split; [exact A2 |]. split; [exact A3 |]. split; [reflexivity |].
  split; [unfold lock_release; rewrite Hc; exact Hk3 |].
  assert (S := sema_up_semaphores _ _ _ Hk3).
  destruct (sema_up_data_frame _ _ _ Hk3) as (D1 & D2 & D3 & _).
  assert (Y : trace k3 = EvYield (running k) :: trace k).
  { apply sema_up_decomp in Hk3. destruct Hk3 as (k2' & Hw & H).
    unfold sema_up_wake in Hw. rewrite W2 in Hw. cbn [list_empty negb] in Hw.
    injection Hw as <-.
    destruct H as [[Hi2 _] | [_ H]]; [rewrite F14, A8 in Hi2; congruence |].
    apply thread_yield_inv in H. destruct H as (_ & _ & _ & T).
    rewrite T, running_set_sema, trace_set_sema, F12, A6, F15, A9. reflexivity. }
  split; [| split; [| split; [| split; [| split]]]].
  - intros m. rewrite D2. destruct (Nat.eqb_spec m l) as [-> | Hm].
    + rewrite R1, Hl. reflexivity.
    + rewrite F1 by exact Hm. now rewrite A13.
  - intros m. rewrite D3. destruct (Nat.eqb_spec m l) as [-> | Hm].
    + rewrite R2, Hl. reflexivity.
    + rewrite F1 by exact Hm. now rewrite A13.
  - intros m. assert (G := S (LockSema m)). cbn [get_sema] in G. rewrite G.
    destruct (sema_ptr_eq_dec (LockSema m) (LockSema l)) as [E | Hm].
    + injection E as ->. cbn [get_sema] in W2. rewrite W2. cbn [list_max].
      rewrite F2, A5, Hl. reflexivity.
    + rewrite F2. rewrite A13 by congruence. reflexivity.
  - intros t. rewrite D1. destruct (Nat.eqb_spec t (running k)) as [-> | Ht].
    + unfold thread_data. rewrite F5, F6, F7, R3, R4, A4.
      destruct (A10 (running k)) as (_ & -> & _ & -> & ->).
      cbn [remaining_locks filter]. rewrite Nat.eqb_refl. cbn [negb].
      fold (remaining_locks l (lock_list (threads k (running k)))).
      rewrite (remaining_locks_id l _ Hnin), Hd.
      rewrite (max_ceiling_ext k k1); [reflexivity |]. intros m _. apply A12.
    + rewrite F3 by exact Ht. now rewrite A11.
  - rewrite Y. reflexivity.
  - unfold wake_order. rewrite Y. reflexivity.
Qed.

Lemma lock_acquire_then_lock_release_at_boot :
  exists k1 k2,
    lock_acquire 0 0 five_waiters = Ok k1 /\
    holder (locks k1 0%nat) = Some (running five_waiters) /\
    lock_release 0 k1 = Ok k2 /\
    (forall m, holder (locks k2 m) = holder (locks five_waiters m)) /\
    (forall t, thread_data (threads k2 t) = thread_data (threads five_waiters t)).
Proof.
  destruct (lock_acquire_then_lock_release 0 0 five_waiters)
    as (k1 & k2 & H1 & H2 & _ & H4 & H5 & _ & _ & H8 & _);
    try reflexivity.
  - intros [].
  - exists k1, k2. repeat split; assumption.
Defined.

(** ** donate_priority_recursively *)

(** Whenever the walk of donate_priority_recursively returns, whatever the
    locks it went through, it has lowered nothing: every lock ceiling and
    every donated priority is what it was or has been raised to the priority
    donated, so that no effective priority has gone down and none has gone
    above the greater of its old value and the priority donated.  Base
    priorities, holders, lock lists, awaited locks, statuses, semaphores and
    the ready list are as they were. *)
Theorem donation_only_raises (fuel : nat) (lock : option nat) (p : Z) (k k' : kernel) :
  donate_priority_recursively fuel lock p k = Ok k' ->
  (forall l, lock_priority (locks k l) <= lock_priority (locks k' l)
             <= Z.max (lock_priority (locks k l)) p) /\
  (forall t, donation_priority (threads k t) <= donation_priority (threads k' t)
             <= Z.max (donation_priority (threads k t)) p) /\
  (forall t, effective_priority (threads k t) <= effective_priority (threads k' t)
             <= Z.max (effective_priority (threads k t)) p) /\
  (forall t, priority (threads k' t) = priority (threads k t) /\
             status (threads k' t) = status (threads k t) /\
             lock_list (threads k' t) = lock_list (threads k t) /\
             thread_lock (threads k' t) = thread_lock (threads k t)) /\
  (forall l, holder (locks k' l) = holder (locks k l) /\
             lock_semaphore (locks k' l) = lock_semaphore (locks k l)) /\
  semas k' = semas k /\ ready_list k' = ready_list k /\ running k' = running k.
Proof.
  intros H. apply donate_frame in H.
  destruct H as (F1 & F2 & F3 & F4 & F5 & F6 & F7 & F8 & F9 & F10 & F11 & F12 & F13
                 & F14 & _).
  split; [intros l; destruct (F3 l) as [-> | ->]; lia |].
  split; [intros t; destruct (F9 t) as [-> | ->]; lia |].
  split.
  - intros t. rewrite !effective_priority_max, F5.
    destruct (F9 t) as [-> | ->]; lia.
  - split; [intros t; repeat split; auto |].
    split; [intros l; split; auto |]. repeat split; assumption.
Qed.

Lemma donation_only_raises_on_long_chain :
  exists k',
    donate_priority_recursively 10 (Some 1%nat) 40 long_chain = Ok k' /\
    (forall t, effective_priority (threads long_chain t)
               <= effective_priority (threads k' t)
               <= Z.max (effective_priority (threads long_chain t)) 40).
Proof.
  destruct (donate_on_chain long_chain_locks long_chain (Some 1%nat) 40
              long_chain_wait_chain) as [D _].
  destruct (D 10%nat (le_n 10)) as (k' & Hd & _).
  exists k'. split; [exact Hd |].
  apply (donation_only_raises 10 (Some 1%nat) 40 long_chain k' Hd).
Defined.

(** * The threads at work: what an instruction can do *)

(** An instruction either leaves the scheduling of the threads alone, or
    ends in a call of [schedule] by the thread that ran it. *)

(** [k'] has the base and donated priorities of [k]. *)
Definition same_priorities (k k' : kernel) : Prop :=
  forall t, priority (threads k' t) = priority (threads k t) /\
            donation_priority (threads k' t) = donation_priority (threads k t).

(** [k'] is [k] as far as the scheduler is concerned. *)
Definition calm (k k' : kernel) : Prop := quiet k k' /\ same_priorities k k'.

Lemma calm_refl (k : kernel) : calm k k.
Proof. split; [apply quiet_refl | intros t; split; reflexivity]. Qed.

Lemma calm_trans (k1 k2 k3 : kernel) : calm k1 k2 -> calm k2 k3 -> calm k1 k3.
Proof.
  intros [Q1 P1] [Q2 P2]. split; [eapply quiet_trans; eassumption |].
  intros t. destruct (P1 t) as [A B]. destruct (P2 t) as [C D]. split; congruence.
Qed.

Lemma same_threads_calm (k k' : kernel) :
  quiet k k' -> threads k' = threads k -> calm k k'.
Proof. intros Q E. split; [exact Q |]. intros t. rewrite E. split; reflexivity. Qed.

Lemma set_sema_calm (k : kernel) (p : sema_ptr) (s : semaphore) :
  waiters s = waiters (get_sema k p) -> calm k (set_sema k p s).
Proof.
  intros Hw. apply same_threads_calm; [now apply set_sema_quiet | apply threads_set_sema].
Qed.

Lemma set_holder_calm (k : kernel) (l : nat) (v : option nat) : calm k (set_holder k l v).
Proof. apply same_threads_calm; [apply set_holder_quiet | reflexivity]. Qed.

Lemma set_conds_calm (k : kernel) (v : nat -> list nat) : calm k (set_conds k v).
Proof. apply same_threads_calm; [apply set_conds_quiet | reflexivity]. Qed.

Lemma set_lock_list_calm (k : kernel) (t : nat) (v : list nat) :
  calm k (set_lock_list k t v).
Proof.
  split; [apply set_lock_list_quiet |].
  intros u. cbn. unfold upd. destruct (Nat.eqb_spec u t) as [-> | _]; split; reflexivity.
Qed.

Lemma set_thread_lock_calm (k : kernel) (t : nat) (v : option nat) :
  calm k (set_thread_lock k t v).
Proof.
  split; [apply set_thread_lock_quiet |].
  intros u. cbn. unfold upd. destruct (Nat.eqb_spec u t) as [-> | _]; split; reflexivity.
Qed.

Lemma set_stack_calm (k : kernel) (v : list instr) : calm k (set_stack k (running k) v).
Proof.
  split; [apply set_stack_quiet |].
  destruct (set_stack_fields k (running k) v)
    as (_ & _ & _ & _ & _ & _ & _ & _ & _ & _ & E11 & E12 & _).
  intros t. split; [apply E11 | apply E12].
Qed.

(** [t] has in [k1] the status it has in [k], or was blocked and has been
    made ready. *)
Definition kept_or_woken (k k1 : kernel) (t : nat) : Prop :=
  status (threads k1 t) = status (threads k t) \/
  (status (threads k t) = THREAD_BLOCKED /\ status (threads k1 t) = THREAD_READY).

Lemma kept_or_woken_trans (k k1 k2 : kernel) (t : nat) :
  kept_or_woken k k1 t -> kept_or_woken k1 k2 t -> kept_or_woken k k2 t.
Proof.
  intros [A | [A1 A2]] [B | [B1 B2]].
  - left. congruence.
  - right. split; congruence.
  - right. split; congruence.
  - congruence.
Qed.

(** [k1] is reached from [k] without a call of [schedule]: the same thread
    runs, and threads may have been woken, but not the idle thread. *)
Definition drift (k k1 : kernel) : Prop :=
  running k1 = running k /\
  idle_thread k1 = idle_thread k /\
  intr_context k1 = intr_context k /\
  (forall t, kept_or_woken k k1 t) /\
  (queues_inv k -> queues_inv k1) /\
  (queues_inv k -> forall i, idle_thread k = Some i ->
     status (threads k1 i) = status (threads k i)).

Lemma drift_trans (k1 k2 k3 : kernel) : drift k1 k2 -> drift k2 k3 -> drift k1 k3.
Proof.
  intros (A1 & A2 & A3 & A4 & A5 & A6) (B1 & B2 & B3 & B4 & B5 & B6).
  split; [congruence |]. split; [congruence |]. split; [congruence |].
  split; [intros t; eapply kept_or_woken_trans; [apply A4 | apply B4] |].
  split; [auto |].
  intros I i Ei. rewrite B6; [now apply A6 | now apply A5 | congruence].
Qed.

Lemma quiet_drift (k k' : kernel) : quiet k k' -> drift k k'.
Proof.
  intros Q. assert (I := quiet_queues_inv _ _ Q).
  destruct Q as (Q1 & _ & _ & Q4 & Q5 & Q6 & _).
  split; [exact Q5 |]. split; [exact Q4 |]. split; [exact Q6 |].
  split; [intros t; left; apply Q1 |]. split; [exact I |].
  intros _ i _. apply Q1.
Qed.

Lemma sema_up_wake_drift (sema : sema_ptr) (k k1 : kernel) :
  sema_up_wake sema k = Ok k1 -> drift k k1.
Proof.
  intros H. destruct (sema_up_wake_ctl _ _ _ H) as (C1 & C2 & C3 & _).
  assert (I := sema_up_wake_queues_inv _ _ _ H).
  split; [exact C3 |]. split; [exact C1 |]. split; [exact C2 |].
  apply sema_up_wake_inv in H. destruct H as [[_ ->] | (m & Hm & Hs & ->)].
  - split; [intros t; now left |]. split; [exact I |]. reflexivity.
  - split; [| split; [exact I |]].
    + intros t. unfold kept_or_woken. cbn [threads log]. rewrite status_set_status.
      cbn [threads set_ready_list]. rewrite threads_set_sema.
      destruct (Nat.eqb_spec t m) as [-> | _]; [right; split; [exact Hs | reflexivity] |].
      now left.
    + intros (_ & _ & _ & _ & _ & Q6) i Ei.
      cbn [threads log]. rewrite status_set_status.
      cbn [threads set_ready_list]. rewrite threads_set_sema.
      destruct (Nat.eqb_spec i m) as [-> | _]; [| reflexivity].
      elim (Q6 m sema Ei). eapply list_max_thread_In. exact Hm.
Qed.

Lemma sema_init_drift (t : nat) (v : Z) (k : kernel) :
  drift k (sema_init (WaiterSema t) v k).
Proof.
  unfold drift, sema_init.
  rewrite running_set_sema, idle_thread_set_sema, intr_context_set_sema.
  split; [reflexivity |]. split; [reflexivity |]. split; [reflexivity |].
  split; [| split].
  - intros u. left. now rewrite threads_set_sema.
  - apply sema_init_queues_inv.
  - intros _ i _. now rewrite threads_set_sema.
Qed.

(** [k1] is the kernel in which the thread running in [k] calls
    [schedule], having changed its own status. *)
Definition handoff (k k1 : kernel) : Prop :=
  running k1 = running k /\
  idle_thread k1 = idle_thread k /\
  intr_context k1 = intr_context k /\
  (forall t, t <> running k -> kept_or_woken k k1 t) /\
  (queues_inv k -> idle_thread k <> Some (running k) -> queues_inv k1) /\
  (queues_inv k -> forall i, idle_thread k = Some i -> i <> running k ->
     status (threads k1 i) = status (threads k i)).

(** The thread running in [k] has called [schedule], which gave [k']. *)
Definition switched (k k' : kernel) : Prop :=
  exists k1, schedule k1 = Ok k' /\ handoff k k1.

Lemma drift_switched (k k0 k' : kernel) : drift k k0 -> switched k0 k' -> switched k k'.
Proof.
  intros (A1 & A2 & A3 & A4 & A5 & A6) (k1 & H & B1 & B2 & B3 & B4 & B5 & B6).
  exists k1. split; [exact H |].
  split; [congruence |]. split; [congruence |]. split; [congruence |].
  split; [| split].
  - intros t Ht. eapply kept_or_woken_trans; [apply A4 |]. apply B4. congruence.
  - intros I Hi. apply B5; [auto |]. now rewrite A1, A2.
  - intros I i Ei Hne. rewrite B6; [now apply A6 | now apply A5 | congruence | congruence].
Qed.

Lemma calm_switched (k k0 k' : kernel) : calm k k0 -> switched k0 k' -> switched k k'.
Proof. intros [Q _]. apply drift_switched. now apply quiet_drift. Qed.

Lemma thread_yield_switched (k k' : kernel) : thread_yield k = Ok k' -> switched k k'.
Proof.
  intros H. apply thread_yield_decomp in H. destruct H as (Hs & _ & H).
  exists (yield_prepare k). split; [exact H |].
  assert (E : forall t, t <> running k ->
                status (threads (yield_prepare k) t) = status (threads k t)).
  { intros t Ht. unfold yield_prepare.
    destruct (idle_thread k) as [i|]; [destruct (Nat.eqb (running k) i) |];
      cbn [threads log]; rewrite status_set_status;
      (destruct (Nat.eqb_spec t (running k)); [congruence | reflexivity]). }
  unfold handoff.
  split; [unfold yield_prepare; destruct (idle_thread k) as [i|];
          [destruct (Nat.eqb (running k) i) |]; reflexivity |].
  split; [unfold yield_prepare; destruct (idle_thread k) as [i|] eqn:Ei;
          [destruct (Nat.eqb (running k) i) |];
          cbn [idle_thread log set_status set_threads set_ready_list]; exact Ei |].
  split; [unfold yield_prepare; destruct (idle_thread k) as [i|];
          [destruct (Nat.eqb (running k) i) |]; reflexivity |].
  split; [intros t Ht; left; now apply E |].
  split; [intros I _; now apply yield_prepare_queues_inv |].
  intros _ i _ Hne. now apply E.
Qed.

Lemma sema_up_switched (sema : sema_ptr) (k k' : kernel) :
  sema_up sema k = Ok k' -> intr_context k = false -> switched k k'.
Proof.
  intros H Hi. apply sema_up_decomp in H. destruct H as (k1 & Hw & H).
  assert (D := sema_up_wake_drift _ _ _ Hw).
  destruct H as [[Hi1 _] | [_ H]].
  - destruct D as (_ & _ & D3 & _). congruence.
  - apply thread_yield_switched in H.
    eapply drift_switched; [exact D |].
    eapply drift_switched; [| exact H].
    apply quiet_drift, set_sema_quiet. reflexivity.
Qed.

Lemma sema_down_shape (sema : sema_ptr) (again : instr) (k k' : kernel) (b : bool) :
  sema_down sema again k = Ok (b, k') ->
  (b = false /\ switched k k') \/ (b = true /\ calm k k').
Proof.
  intros H. apply sema_down_decomp in H.
  destruct H as (Hs & _ & [(-> & _ & H) | (-> & _ & ->)]).
  - left. split; [reflexivity |].
    exists (set_status (enqueue_waiter sema again k) (running k) THREAD_BLOCKED).
    split; [exact H |].
    destruct (enqueue_waiter_fields sema again k)
      as (E1 & _ & E3 & E4 & _ & _ & E7 & _).
    unfold handoff. cbn [running idle_thread intr_context set_status set_threads].
    split; [exact E1 |]. split; [exact E3 |]. split; [exact E4 |].
    split; [| split].
    + intros t Ht. left. rewrite status_set_status, E7.
      destruct (Nat.eqb_spec t (running k)); [congruence | reflexivity].
    + intros I Hi. now apply block_queues_inv.
    + intros _ i _ Hne. rewrite status_set_status, E7.
      destruct (Nat.eqb_spec i (running k)); [congruence | reflexivity].
  - right. split; [reflexivity |]. apply set_sema_calm. reflexivity.
Qed.

Lemma lock_try_acquire_calm (l : nat) (k k' : kernel) (b : bool) :
  lock_try_acquire l k = Ok (b, k') -> calm k k'.
Proof.
  intros H. apply lock_try_acquire_decomp in H.
  destruct H as (_ & _ & [(_ & _ & ->) | (_ & _ & ->)]); [| apply calm_refl].
  cbv zeta.
  set (k1 := set_sema k (LockSema l) _).
  apply (calm_trans k k1); [apply set_sema_calm; reflexivity |].
  apply (calm_trans k1 (set_holder k1 l (Some (running k))));
    [apply set_holder_calm | apply set_lock_list_calm].
Qed.

Lemma lock_acquire_tail_calm (l cur : nat) (k : kernel) :
  calm k (lock_acquire_tail l cur k).
Proof.
  unfold lock_acquire_tail. cbv zeta.
  set (k2 := set_holder k l (Some cur)).
  apply (calm_trans k k2); [apply set_holder_calm |].
  apply (calm_trans k2 (set_thread_lock k2 cur None));
    [apply set_thread_lock_calm | apply set_lock_list_calm].
Qed.

Lemma lock_acquire_wait_shape (l : nat) (k k' : kernel) :
  lock_acquire_wait l k = Ok k' ->
  (value (lock_semaphore (locks k l)) = 0 /\ switched k k') \/
  (value (lock_semaphore (locks k l)) <> 0 /\ calm k k').
Proof.
  intros H. apply lock_acquire_wait_decomp in H.
  destruct H as (b & k1 & Hd & H).
  assert (Hq := sema_down_shape _ _ _ _ _ Hd).
  apply sema_down_decomp in Hd.
  destruct Hd as (_ & _ & [(-> & Hv & _) | (-> & Hv & E)]).
  - destruct H as [[E _] | [_ ->]]; [discriminate |].
    destruct Hq as [[_ Hq] | [E _]]; [| discriminate]. left. split; assumption.
  - destruct H as [[_ ->] | [E' _]]; [| discriminate].
    destruct Hq as [[E' _] | [_ Hq]]; [discriminate |]. right. split; [exact Hv |].
    eapply calm_trans; [exact Hq | apply lock_acquire_tail_calm].
Qed.

Lemma lock_acquire_shape (fuel : nat) (l : nat) (k k' : kernel) :
  lock_acquire fuel l k = Ok k' ->
  0 <= value (lock_semaphore (locks k l)) ->
  switched k k' \/ calm k k'.
Proof.
  intros H Hv. apply lock_acquire_decomp in H.
  destruct H as (_ & _ & _ & [H | (Ht & k2 & Hd & H)]).
  - right. eapply lock_try_acquire_calm. exact H.
  - left. apply lock_try_acquire_decomp in Ht.
    destruct Ht as (_ & _ & [(E & _) | (_ & Hle & _)]); [discriminate |].
    apply donate_frame in Hd.
    assert (V : value (lock_semaphore (locks (set_thread_lock k2 (running k) (Some l)) l))
                = 0).
    { destruct Hd as (_ & F2 & _).
      change (locks (set_thread_lock k2 (running k) (Some l))) with (locks k2).
      rewrite F2. lia. }
    apply donation_frame_quiet in Hd.
    assert (Q : quiet k (set_thread_lock k2 (running k) (Some l)))
      by (eapply quiet_trans; [exact Hd | apply set_thread_lock_quiet]).
    eapply drift_switched; [apply quiet_drift; exact Q |].
    destruct (lock_acquire_wait_shape _ _ _ H) as [[_ S] | [N _]]; [exact S | congruence].
Qed.

Lemma lock_release_switched (l : nat) (k k' : kernel) :
  lock_release l k = Ok k' -> intr_context k = false -> switched k k'.
Proof.
  intros H Hi. apply lock_release_decomp in H. destruct H as (_ & _ & H).
  set (k0 := set_donation_priority k (running k) PRI_MIN) in H.
  assert (Q : quiet k (lock_release_loop l (running k)
                         (lock_list (threads k (running k))) k0)).
  { eapply release_frame_quiet. eapply release_frame_trans.
    - apply (set_donation_priority_release_frame (running k) l).
    - apply lock_release_loop_frame. }
  eapply drift_switched; [apply quiet_drift; exact Q |].
  apply (sema_up_switched _ _ _ H).
  destruct Q as (_ & _ & _ & _ & _ & Q6 & _). congruence.
Qed.

Lemma cond_wait_switched (c l pos : nat) (k k' : kernel) :
  cond_wait c l pos k = Ok k' -> switched k k'.
Proof.
  intros H. apply cond_wait_decomp in H. destruct H as (_ & Hi & _ & H).
  assert (D : drift k (cond_wait_prepare c l pos k)).
  { unfold cond_wait_prepare.
    set (k1 := sema_init (WaiterSema (running k)) 0 k).
    eapply drift_trans; [apply (sema_init_drift (running k) 0 k) |].
    fold k1. apply quiet_drift.
    eapply quiet_trans; [apply set_conds_quiet |].
    apply (set_stack_quiet (set_conds k1 _)). }
  eapply drift_switched; [exact D |].
  apply (lock_release_switched _ _ _ H).
  destruct D as (_ & _ & D3 & _). congruence.
Qed.

Lemma cond_signal_switched (c l : nat) (k k' : kernel) :
  cond_signal c l k = Ok k' -> switched k k'.
Proof.
  intros H. apply cond_signal_decomp in H.
  destruct H as (_ & Hi & _ & [[_ H] | (w & rest & _ & _ & H)]).
  - now apply thread_yield_switched.
  - assert (Q : quiet k (cond_signal_prepare c rest k)).
    { unfold cond_signal_prepare.
      eapply quiet_trans; [apply set_conds_quiet |].
      apply (set_stack_quiet (set_conds k _)). }
    eapply drift_switched; [apply quiet_drift; exact Q |].
    apply (sema_up_switched _ _ _ H).
    destruct Q as (_ & _ & _ & _ & _ & Q6 & _). congruence.
Qed.

Lemma cond_broadcast_shape (c l : nat) (k k' : kernel) :
  cond_broadcast c l k = Ok k' -> switched k k' \/ calm k k'.
Proof.
  intros H. apply cond_broadcast_decomp in H.
  destruct H as [[_ ->] | [_ H]]; [right; apply calm_refl |].
  left. apply cond_signal_switched in H.
  eapply drift_switched; [apply quiet_drift, set_stack_quiet | exact H].
Qed.

Lemma idle_switched (k k' : kernel) : idle k = Ok k' -> switched k k'.
Proof.
  intros H. apply idle_decomp in H. destruct H as (Hs & _ & H).
  set (k1 := set_stack k (running k) (IIdle :: stack (threads k (running k)))) in *.
  assert (Q : quiet k k1) by apply set_stack_quiet.
  exists (set_status k1 (running k) THREAD_BLOCKED). split; [exact H |].
  destruct Q as (Q1 & Q2 & Q3 & Q4 & Q5 & Q6 & Q7).
  unfold handoff. cbn [running idle_thread intr_context set_status set_threads].
  split; [exact Q5 |]. split; [exact Q4 |]. split; [exact Q6 |].
  split; [| split].
  - intros t Ht. left. rewrite status_set_status.
    destruct (Nat.eqb_spec t (running k)); [congruence | apply Q1].
  - intros I _. rewrite <- Q5. apply (set_status_queues_inv k1 THREAD_BLOCKED).
    + apply (quiet_queues_inv k k1); [| exact I]. repeat split; assumption.
    + rewrite Q5, Q1. exact Hs.
  - intros _ i _ Hne. rewrite status_set_status.
    destruct (Nat.eqb_spec i (running k)); [congruence | apply Q1].
Qed.

Lemma thread_exit_switched (k k' : kernel) : thread_exit k = Ok k' -> switched k k'.
Proof.
  intros H. apply thread_exit_decomp in H. destruct H as (Hs & _ & H).
  exists (set_status k (running k) THREAD_DYING). split; [exact H |].
  unfold handoff. cbn [running idle_thread intr_context set_status set_threads].
  split; [reflexivity |]. split; [reflexivity |]. split; [reflexivity |].
  split; [| split].
  - intros t Ht. left. rewrite status_set_status.
    destruct (Nat.eqb_spec t (running k)); [congruence | reflexivity].
  - intros I _. now apply set_status_queues_inv.
  - intros _ i _ Hne. rewrite status_set_status.
    destruct (Nat.eqb_spec i (running k)); [congruence | reflexivity].
Qed.

(** One instruction, outside an interrupt handler, with no lock semaphore
    below 0. *)
Lemma exec_shape (fuel : nat) (i : instr) (k k' : kernel) :
  exec fuel i k = Ok k' ->
  intr_context k = false ->
  (forall l, 0 <= value (lock_semaphore (locks k l))) ->
  switched k k' \/ calm k k'.
Proof.
  intros H Hi Hv. destruct i; cbn [exec] in H.
  - bind_inv H. destruct a as [b k1]. injection H as <-.
    destruct (sema_down_shape _ _ _ _ _ Ha) as [[_ S] | [_ S]]; [left | right]; exact S.
  - injection H as <-. right.
    unfold sema_try_down. destruct (value (get_sema k (PlainSema s)) >? 0); cbn [snd].
    + apply set_sema_calm. reflexivity.
    + apply calm_refl.
  - left. now apply (sema_up_switched _ _ _ H).
  - apply (lock_acquire_shape _ _ _ _ H). apply Hv.
  - bind_inv H. destruct a as [b k1]. injection H as <-.
    right. eapply lock_try_acquire_calm. exact Ha.
  - left. now apply (lock_release_switched _ _ _ H).
  - left. now apply (cond_wait_switched _ _ _ _ _ H).
  - left. now apply (cond_signal_switched _ _ _ _ H).
  - now apply (cond_broadcast_shape _ _ _ _ H).
  - left. apply thread_set_priority_decomp in H. destruct H as [_ H].
    apply (drift_switched k (set_priority k (running k) p));
      [apply quiet_drift, set_priority_quiet |].
    now apply thread_yield_switched.
  - left. now apply thread_yield_switched.
  - destruct (lock_acquire_wait_shape _ _ _ H) as [[_ S] | [_ S]]; [left | right]; exact S.
  - bind_inv H. destruct a as [b k1]. injection H as <-.
    destruct (sema_down_shape _ _ _ _ _ Ha) as [[_ S] | [_ S]]; [left | right]; exact S.
  - left. now apply idle_switched.
Qed.

(** One step of the machine. *)
Lemma step_shape (fuel : nat) (k k' : kernel) :
  step fuel k = Ok k' ->
  intr_context k = false ->
  (forall l, 0 <= value (lock_semaphore (locks k l))) ->
  status (threads k (running k)) = THREAD_RUNNING /\
  (switched k k' \/ calm k k').
Proof.
  unfold step. intros H Hi Hv. bind_inv H.
  apply thread_current_inv in Ha. destruct Ha as [-> Hs]. split; [exact Hs |].
  destruct (stack (threads k (running k))) as [|i rest].
  - left. now apply thread_exit_switched.
  - set (k0 := set_stack k (running k) rest) in H.
    assert (C : calm k k0) by apply set_stack_calm.
    destruct (exec_shape fuel i k0 k' H) as [S | S].
    + destruct C as [(_ & _ & _ & _ & _ & Q6 & _) _]. congruence.
    + intros l. destruct (set_stack_fields k (running k) rest) as (E1 & _).
      fold k0 in E1. rewrite E1. apply Hv.
    + left. eapply calm_switched; eassumption.
    + right. eapply calm_trans; eassumption.
Qed.

(** ** A step of the machine, the idle thread included *)

(** One step of the machine when the idle thread runs [idle] and nothing
    else.  Either the scheduler has nothing to see, or the running thread
    has called [schedule] in a kernel [k1] in which the queues are in
    order. *)
Lemma step_cases (fuel : nat) (k k' : kernel) :
  step fuel k = Ok k' ->
  intr_context k = false ->
  (forall l, 0 <= value (lock_semaphore (locks k l))) ->
  idle_inv k ->
  status (threads k (running k)) = THREAD_RUNNING /\
  (calm k k' \/
   exists k1,
     schedule k1 = Ok k' /\ handoff k k1 /\
     (queues_inv k -> queues_inv k1) /\
     (idle_thread k = Some (running k) ->
      status (threads k1 (running k)) = THREAD_BLOCKED)).
Proof.
  intros H Hi Hv J.
  destruct (step_shape fuel k k' H Hi Hv) as [Hs S]. split; [exact Hs |].
  destruct (idle_thread k) as [i|] eqn:Ei.
  - destruct (Nat.eq_dec i (running k)) as [-> | Hne].
    + (* the idle thread *)
      right. unfold step in H. rewrite (thread_current_running k Hs) in H.
      cbn [bind] in H. rewrite (J _ Ei) in H.
      change (exec fuel IIdle (set_stack k (running k) [])) with
        (idle (set_stack k (running k) [])) in H.
      set (k0 := set_stack k (running k) []) in H.
      assert (Q : quiet k k0) by apply set_stack_quiet.
      apply idle_decomp in H. destruct H as (Hs0 & _ & H).
      assert (R0 : running k0 = running k) by apply Q.
      rewrite R0 in H.
      set (k1 := set_status (set_stack k0 (running k) (IIdle :: stack (threads k0 (running k))))
                   (running k) THREAD_BLOCKED) in H.
      exists k1. split; [exact H |].
      assert (Q1 : quiet k (set_stack k0 (running k)
                              (IIdle :: stack (threads k0 (running k))))).
      { eapply quiet_trans; [exact Q |]. rewrite <- R0. apply set_stack_quiet. }
      assert (G : quiet k (set_stack k0 (running k)
                             (IIdle :: stack (threads k0 (running k)))) ->
                  handoff k k1 /\ (queues_inv k -> queues_inv k1) /\
                  status (threads k1 (running k)) = THREAD_BLOCKED).
      { intros (A1 & A2 & A3 & A4 & A5 & A6 & A7).
        unfold k1, handoff.
        cbn [running idle_thread intr_context set_status set_threads].
        split; [| split].
        - split; [exact A5 |]. split; [exact A4 |]. split; [exact A6 |].
          split; [| split].
          + intros t Ht. left. rewrite status_set_status.
            destruct (Nat.eqb_spec t (running k)); [congruence | apply A1].
          + intros I _. rewrite <- A5. apply set_status_queues_inv.
            * apply (quiet_queues_inv k); [repeat split; assumption | exact I].
            * rewrite A5, A1. exact Hs.
          + intros _ i0 _ Hne. rewrite status_set_status.
            destruct (Nat.eqb_spec i0 (running k)); [congruence | apply A1].
        - intros I. rewrite <- A5. apply set_status_queues_inv.
          + apply (quiet_queues_inv k); [repeat split; assumption | exact I].
          + rewrite A5, A1. exact Hs.
        - rewrite status_set_status, Nat.eqb_refl. reflexivity. }
      destruct (G Q1) as (G1 & G2 & G3).
      split; [exact G1 |]. split; [exact G2 |]. intros _. exact G3.
    + destruct S as [(k1 & S1 & S2) | S]; [right | left; exact S].
      exists k1. split; [exact S1 |]. split; [exact S2 |].
      destruct S2 as (_ & _ & _ & _ & S5 & _). split.
      * intros I. apply S5; [exact I | congruence].
      * intros E. congruence.
  - destruct S as [(k1 & S1 & S2) | S]; [right | left; exact S].
    exists k1. split; [exact S1 |]. split; [exact S2 |].
    destruct S2 as (_ & _ & _ & _ & S5 & _). split.
    + intros I. apply S5; [exact I | congruence].
    + intros E. discriminate E.
Qed.

(** ** Kernels in order *)

(** Exactly one thread has the status THREAD_RUNNING, the running
    thread. *)
Definition single_running (k : kernel) : Prop :=
  status (threads k (running k)) = THREAD_RUNNING /\
  forall t, status (threads k t) = THREAD_RUNNING -> t = running k.

(** The idle thread has not exited. *)
Definition idle_alive (k : kernel) : Prop :=
  forall i, idle_thread k = Some i -> status (threads k i) <> THREAD_DYING.

(** A kernel in order: no interrupt handler runs; the queues and the locks
    are in order; one thread runs; the idle thread is alive and runs [idle]
    and nothing else. *)
Definition sound (k : kernel) : Prop :=
  intr_context k = false /\
  queues_inv k /\ idle_inv k /\ locks_inv k /\
  single_running k /\ idle_alive k.

Lemma locks_inv_values (k : kernel) :
  locks_inv k -> forall l, 0 <= value (lock_semaphore (locks k l)).
Proof. intros [I _] l. destruct (I l) as [[_ ->] | [_ ->]]; lia. Qed.

Lemma step_sound (fuel : nat) (k k' : kernel) :
  step fuel k = Ok k' -> sound k -> sound k'.
Proof.
  intros H (Hi & Q & J & L & [R1 R2] & A).
  destruct (step_queues_inv fuel k k' H (conj Q J)) as [Q' J'].
  assert (L' := step_locks_inv fuel k k' H L).
  destruct (step_cases fuel k k' H Hi (locks_inv_values k L) J) as [_ C].
  destruct C as [[(C1 & _ & _ & C4 & C5 & C6 & _) _] | (k1 & S & Hf & Hq & Hidle)].
  - (* nothing for the scheduler *)
    split; [congruence |]. split; [exact Q' |]. split; [exact J' |].
    split; [exact L' |]. split.
    + split; [rewrite C5, C1; exact R1 |].
      intros t. rewrite C1, C5. apply R2.
    + intros i. rewrite C4, C1. apply A.
  - destruct Hf as (F1 & F2 & F3 & F4 & _).
    destruct (schedule_ctl _ _ S) as (S1 & S2 & _).
    destruct (schedule_threads _ _ S) as [St _].
    assert (N1 : status (threads k1 (running k)) <> THREAD_RUNNING).
    { apply schedule_inv in S. destruct S as [S _]. now rewrite F1 in S. }
    split; [congruence |]. split; [exact Q' |]. split; [exact J' |].
    split; [exact L' |]. split.
    + split; [rewrite St, Nat.eqb_refl; reflexivity |].
      intros t. rewrite St. destruct (Nat.eqb_spec t (running k')) as [-> | Ht];
        [reflexivity |].
      intros E. destruct (Nat.eq_dec t (running k)) as [-> | Hne]; [congruence |].
      destruct (F4 t Hne) as [K | [_ K]]; [| congruence].
      elim Hne. apply R2. congruence.
    + intros i Ei. rewrite St.
      destruct (Nat.eqb_spec i (running k')) as [_ | Ht]; [discriminate |].
      rewrite S1, F2 in Ei.
      destruct (Nat.eq_dec i (running k)) as [-> | Hne].
      * rewrite (Hidle Ei). discriminate.
      * destruct (F4 i Hne) as [K | [_ K]]; [| congruence].
        rewrite K. now apply A.
Qed.

Lemma run_sound (fuel n : nat) :
  forall k k', run fuel n k = Ok k' -> sound k -> sound k'.
Proof.
  induction n as [|n IH]; intros k k' H I; cbn [run] in H.
  - now injection H as <-.
  - bind_inv H. apply (IH _ _ H). eapply step_sound; eassumption.
Qed.

(** [wake_then_steal] is in order. *)
Lemma wake_then_steal_sound : sound wake_then_steal.
Proof.
  split; [reflexivity |]. split; [apply wake_then_steal_queues_inv |].
  split; [apply wake_then_steal_queues_inv |]. split; [apply boot_locks_inv |].
  split; [split; [reflexivity |] |].
  - intros t. cbn. destruct (Nat.eqb t 0) eqn:E0; [now apply Nat.eqb_eq in E0 |].
    destruct (Nat.eqb t 1); [discriminate |].
    destruct (Nat.eqb t 2); discriminate.
  - intros i E. cbn in E. injection E as <-. discriminate.
Qed.

(** One thread runs.  In every kernel that the threads reach from a kernel
    in order, whatever they call, exactly one thread has the status
    THREAD_RUNNING, and it is the running thread; it stands neither on the
    ready list nor on a waiter list. *)
Theorem one_thread_runs (fuel n : nat) (k k' : kernel) :
  sound k ->
  run fuel n k = Ok k' ->
  status (threads k' (running k')) = THREAD_RUNNING /\
  (forall t, status (threads k' t) = THREAD_RUNNING -> t = running k') /\
  ~ In (running k') (ready_list k') /\
  (forall p, ~ In (running k') (waiters (get_sema k' p))).
Proof.
  intros I H. destruct (run_sound fuel n k k' H I) as (_ & Q & _ & _ & [R1 R2] & _).
  split; [exact R1 |]. split; [exact R2 |].
  destruct Q as (_ & Q2 & _ & Q4 & _). split.
  - intros Hin. specialize (Q2 _ Hin). congruence.
  - intros p Hin. specialize (Q4 p _ Hin). congruence.
Qed.

Lemma one_thread_runs_in_wake_then_steal :
  status (threads (after 0 4 wake_then_steal) (running (after 0 4 wake_then_steal)))
  = THREAD_RUNNING /\
  ~ In (running (after 0 4 wake_then_steal)) (ready_list (after 0 4 wake_then_steal)).
Proof.
  destruct (one_thread_runs 0 4 wake_then_steal (after 0 4 wake_then_steal)
              wake_then_steal_sound) as (H1 & _ & H3 & _).
  - vm_compute. reflexivity.
  - split; assumption.
Defined.

(** ** Priority scheduling *)

(** No ready thread has an effective priority above that of the running
    thread. *)
Definition highest_runs (k : kernel) : Prop :=
  forall u, In u (ready_list k) ->
    effective_priority (threads k u) <= effective_priority (threads k (running k)).

Lemma schedule_highest_runs (k k' : kernel) : schedule k = Ok k' -> highest_runs k'.
Proof.
  intros H. destruct (schedule_threads _ _ H) as [_ D].
  assert (E : forall t, effective_priority (threads k' t) = effective_priority (threads k t))
    by (intros t; apply thread_data_effective, D).
  destruct (ready_list k) as [|x xs] eqn:Er.
  - destruct (schedule_empty _ _ H Er) as [_ E']. intros u. rewrite E'. intros [].
  - assert (Hne : ready_list k <> []) by (rewrite Er; discriminate).
    destruct (schedule_ready _ _ H Hne) as (_ & Hrl & Hmax).
    intros u Hu. rewrite !E. apply Hmax. rewrite Hrl in Hu.
    eapply list_remove_In. exact Hu.
Qed.

Lemma calm_highest_runs (k k' : kernel) : calm k k' -> highest_runs k -> highest_runs k'.
Proof.
  intros [(_ & Q2 & _ & _ & Q5 & _) P] Hh u.
  rewrite Q2, Q5, !effective_priority_max.
  destruct (P u) as [-> ->]. destruct (P (running k)) as [-> ->].
  rewrite <- !effective_priority_max. apply Hh.
Qed.

Lemma step_highest_runs (fuel : nat) (k k' : kernel) :
  step fuel k = Ok k' -> sound k -> highest_runs k -> highest_runs k'.
Proof.
  intros H (Hi & _ & _ & L & _) Hh.
  destruct (step_shape fuel k k' H Hi (locks_inv_values k L)) as [_ [(k1 & S & _) | C]].
  - eapply schedule_highest_runs. exact S.
  - eapply calm_highest_runs; eassumption.
Qed.

(** The thread that runs is a thread of highest priority.  Start from a
    kernel in order in which no ready thread has an effective priority above
    that of the running thread.  Then this is so in every kernel that the
    threads reach, whatever they call: semaphores, locks with their
    donations, conditions, thread_set_priority. *)
Theorem highest_priority_thread_runs (fuel n : nat) :
  forall k k',
    sound k -> highest_runs k ->
    run fuel n k = Ok k' ->
    forall u, In u (ready_list k') ->
      effective_priority (threads k' u)
      <= effective_priority (threads k' (running k')).
Proof.
  induction n as [|n IH]; intros k k' I Hh H; cbn [run] in H.
  - injection H as <-. exact Hh.
  - bind_inv H. apply (IH a k'); [| | exact H].
    + eapply step_sound; eassumption.
    + eapply step_highest_runs; eassumption.
Qed.

Lemma highest_priority_thread_runs_in_wake_then_steal :
  sound wake_then_steal /\ highest_runs wake_then_steal /\
  ready_list (after 0 2 wake_then_steal) = [1%nat] /\
  effective_priority (threads (after 0 2 wake_then_steal) 1%nat)
  <= effective_priority (threads (after 0 2 wake_then_steal)
                           (running (after 0 2 wake_then_steal))).
Proof.
  assert (Hh : highest_runs wake_then_steal) by (intros u []).
  assert (E : ready_list (after 0 2 wake_then_steal) = [1%nat])
    by (vm_compute; reflexivity).
  split; [exact wake_then_steal_sound |]. split; [exact Hh |]. split; [exact E |].
  apply (highest_priority_thread_runs 0 2 wake_then_steal (after 0 2 wake_then_steal)
           wake_then_steal_sound Hh).
  - vm_compute. reflexivity.
  - rewrite E. left. reflexivity.
Defined.

(** ** Threads that have exited *)

Lemma step_dying (fuel : nat) (k k' : kernel) (t : nat) :
  step fuel k = Ok k' -> sound k ->
  status (threads k t) = THREAD_DYING -> status (threads k' t) = THREAD_DYING.
Proof.
  intros H (Hi & Q & J & L & [R1 R2] & A) Hd.
  destruct (step_cases fuel k k' H Hi (locks_inv_values k L) J) as [_ C].
  destruct C as [[(C1 & _) _] | (k1 & S & Hf & Hq & _)]; [now rewrite C1 |].
  destruct Hf as (F1 & F2 & _ & F4 & _).
  assert (Hne : t <> running k) by (intros ->; congruence).
  assert (D1 : status (threads k1 t) = THREAD_DYING)
    by (destruct (F4 t Hne) as [K | [K _]]; congruence).
  destruct (schedule_threads _ _ S) as [St _]. rewrite St.
  destruct (Nat.eqb_spec t (running k')) as [-> | _]; [| exact D1].
  exfalso. destruct (ready_list k1) as [|x xs] eqn:Er.
  - destruct (schedule_empty _ _ S Er) as [E _]. rewrite F2 in E.
    now apply (A _ E).
  - assert (Hr : ready_list k1 <> []) by (rewrite Er; discriminate).
    destruct (schedule_ready _ _ S Hr) as (Hin & _).
    destruct (Hq Q) as (_ & Q2 & _). specialize (Q2 _ Hin). congruence.
Qed.

Lemma run_dying (fuel n : nat) (t : nat) :
  forall k k', run fuel n k = Ok k' -> sound k ->
               status (threads k t) = THREAD_DYING ->
               status (threads k' t) = THREAD_DYING.
Proof.
  induction n as [|n IH]; intros k k' H I Hd; cbn [run] in H.
  - now injection H as <-.
  - bind_inv H. apply (IH a k' H).
    + eapply step_sound; eassumption.
    + eapply step_dying; eassumption.
Qed.

(** The step of a thread that has nothing left to run. *)
Lemma exit_step (fuel : nat) (k k1 : kernel) :
  sound k ->
  stack (threads k (running k)) = [] ->
  step fuel k = Ok k1 ->
  step fuel k = thread_exit k /\
  status (threads k1 (running k)) = THREAD_DYING /\
  running k1 <> running k /\
  locks k1 = locks k.
Proof.
  intros (Hi & Q & J & L & [R1 R2] & A) Hst H.
  assert (E : step fuel k = thread_exit k).
  { unfold step. rewrite (thread_current_running k R1). cbn [bind].
    now rewrite Hst. }
  rewrite E in H. apply thread_exit_decomp in H. destruct H as (_ & _ & H).
  set (k0 := set_status k (running k) THREAD_DYING) in H.
  assert (Hne : running k1 <> running k).
  { destruct (ready_list k0) as [|x xs] eqn:Er.
    - destruct (schedule_empty _ _ H Er) as [Ei _].
      change (idle_thread k0) with (idle_thread k) in Ei.
      intros Ec. rewrite Ec in Ei. specialize (J _ Ei). congruence.
    - assert (Hr : ready_list k0 <> []) by (rewrite Er; discriminate).
      destruct (schedule_ready _ _ H Hr) as (Hin & _).
      change (ready_list k0) with (ready_list k) in Hin.
      destruct Q as (_ & Q2 & _). specialize (Q2 _ Hin).
      intros Ec. rewrite Ec in Q2. congruence. }
  split; [exact E |]. split; [| split; [exact Hne |]].
  - destruct (schedule_threads _ _ H) as [St _]. rewrite St.
    destruct (Nat.eqb_spec (running k) (running k1)); [congruence |].
    unfold k0. rewrite status_set_status, Nat.eqb_refl. reflexivity.
  - destruct (schedule_frame _ _ H) as [(F & _) _]. exact F.
Qed.

(** A thread whose function has returned exits, and never runs again.  In
    a kernel in order, let the running thread have nothing left to run.  Its
    next step is thread_exit: the thread is left with the status
    THREAD_DYING and another thread runs.  In every kernel that the threads
    reach from there the thread is still dying: it does not run, and it
    stands neither on the ready list nor on a waiter list. *)
Theorem exited_thread_never_runs_again (fuel n : nat) (k k1 k' : kernel) :
  sound k ->
  stack (threads k (running k)) = [] ->
  step fuel k = Ok k1 ->
  run fuel n k1 = Ok k' ->
  step fuel k = thread_exit k /\
  status (threads k1 (running k)) = THREAD_DYING /\
  running k1 <> running k /\
  status (threads k' (running k)) = THREAD_DYING /\
  running k' <> running k /\
  ~ In (running k) (ready_list k') /\
  (forall p, ~ In (running k) (waiters (get_sema k' p))).
Proof.
  intros I Hst H Hrun.
  assert (I1 := step_sound fuel k k1 H I).
  destruct (exit_step fuel k k1 I Hst H) as (E & D1 & Hne & _).
  assert (D' := run_dying fuel n (running k) k1 k' Hrun I1 D1).
  destruct (run_sound fuel n k1 k' Hrun I1) as (_ & Q' & _ & _ & [R1' _] & _).
  split; [exact E |]. split; [exact D1 |]. split; [exact Hne |]. split; [exact D' |].
  split; [intros Ec; rewrite Ec in R1'; congruence |].
  destruct Q' as (_ & Q2 & _ & Q4 & _). split.
  - intros Hin. specialize (Q2 _ Hin). congruence.
  - intros p Hin. specialize (Q4 p _ Hin). congruence.
Qed.

(** Thread 0 has nothing left to run; thread 1 is ready; thread 2 is the
    idle thread. *)
Definition one_exits : kernel :=
  boot [ (0%nat, new_thread PRI_DEFAULT THREAD_RUNNING []);
         (1%nat, new_thread PRI_DEFAULT THREAD_READY [IYield; IYield]);
         (2%nat, new_thread PRI_MIN THREAD_BLOCKED [IIdle]) ]
       (fun _ => mkSemaphore 0 [])
       [1%nat] 0%nat 2%nat.

Lemma one_exits_sound : sound one_exits.
Proof.
  assert (W : forall p, waiters (get_sema one_exits p) = [])
    by (intros p; destruct p; reflexivity).
  split; [reflexivity |]. split; [| split; [| split; [apply boot_locks_inv |]]].
  - unfold queues_inv. split; [repeat constructor; intros [] |].
    split; [intros t [<- | []]; reflexivity |].
    split; [intros p; rewrite W; constructor |].
    split; [intros p t; rewrite W; intros [] |].
    split; [intros p q t; rewrite W; intros [] |].
    intros i p _. rewrite W. intros [].
  - intros i E. cbn in E. injection E as <-. reflexivity.
  - split; [split; [reflexivity |] |].
    + intros t. cbn. destruct (Nat.eqb t 0) eqn:E0; [now apply Nat.eqb_eq in E0 |].
      destruct (Nat.eqb t 1); [discriminate |].
      destruct (Nat.eqb t 2); discriminate.
    + intros i E. cbn in E. injection E as <-. discriminate.
Qed.

Lemma exited_thread_never_runs_again_in_one_exits :
  status (threads (after 0 3 one_exits) (running one_exits)) = THREAD_DYING /\
  running (after 0 3 one_exits) <> running one_exits.
Proof.
  destruct (exited_thread_never_runs_again 0 2 one_exits (after 0 1 one_exits)
              (after 0 3 one_exits) one_exits_sound)
    as (_ & _ & _ & H4 & H5 & _).
  - reflexivity.
  - vm_compute. reflexivity.
  - vm_compute. reflexivity.
  - split; assumption.
Defined.

(** ** The lock lists *)

(** The thread [cur] has taken the free lock [l]. *)
Definition takes (l cur : nat) (k k' : kernel) : Prop :=
  value (lock_semaphore (locks k l)) <> 0 /\
  (forall m, holder (locks k' m)
             = if Nat.eqb m l then Some cur else holder (locks k m)) /\
  (forall t, lock_list (threads k' t)
             = if Nat.eqb t cur then l :: lock_list (threads k t)
               else lock_list (threads k t)).

(** The thread [cur] has released the lock [l], which it held. *)
Definition releases (l cur : nat) (k k' : kernel) : Prop :=
  holder (locks k l) = Some cur /\
  (forall m, holder (locks k' m) = if Nat.eqb m l then None else holder (locks k m)) /\
  (forall t, lock_list (threads k' t)
             = if Nat.eqb t cur then remaining_locks l (lock_list (threads k t))
               else lock_list (threads k t)).

(** What a step does to the holders and the lock lists. *)
Definition locks_move (cur : nat) (k k' : kernel) : Prop :=
  locks_frame k k' \/ (exists l, takes l cur k k') \/ (exists l, releases l cur k k').

Lemma locks_frame_move (cur : nat) (k k0 k' : kernel) :
  locks_frame k k0 -> locks_move cur k0 k' -> locks_move cur k k'.
Proof.
  intros (F1 & F2 & F3) [M | [(l & V & H & L) | (l & V & H & L)]].
  - left. eapply locks_frame_trans; [| exact M]. repeat split; assumption.
  - right. left. exists l. split; [now rewrite <- F2 |]. split.
    + intros m. rewrite H, F1. reflexivity.
    + intros t. rewrite L, F3. reflexivity.
  - right. right. exists l. split; [now rewrite <- F1 |]. split.
    + intros m. rewrite H, F1. reflexivity.
    + intros t. rewrite L, F3. reflexivity.
Qed.

Lemma locks_move_frame (cur : nat) (k k0 k' : kernel) :
  locks_move cur k k0 -> locks_frame k0 k' -> locks_move cur k k'.
Proof.
  intros [M | [(l & V & H & L) | (l & V & H & L)]] F.
  - left. eapply locks_frame_trans; eassumption.
  - destruct F as (F1 & _ & F3). right. left. exists l. split; [exact V |]. split.
    + intros m. rewrite F1. apply H.
    + intros t. rewrite F3. apply L.
  - destruct F as (F1 & _ & F3). right. right. exists l. split; [exact V |]. split.
    + intros m. rewrite F1. apply H.
    + intros t. rewrite F3. apply L.
Qed.

Ltac lock_fields :=
  intros ?x; cbn; unfold upd;
  repeat match goal with
         | |- context [Nat.eqb ?a ?b] => destruct (Nat.eqb_spec a b); subst
         end; cbn; unfold list_push_front; congruence.

Lemma lock_try_acquire_move (l : nat) (k k' : kernel) (b : bool) :
  lock_try_acquire l k = Ok (b, k') -> locks_move (running k) k k'.
Proof.
  intros H. apply lock_try_acquire_decomp in H.
  destruct H as (_ & _ & [(_ & Hv & ->) | (_ & _ & ->)]);
    [| left; apply locks_frame_refl].
  right. left. exists l. split; [lia |]. split; lock_fields.
Qed.

Lemma lock_acquire_wait_move (l : nat) (k k' : kernel) :
  lock_acquire_wait l k = Ok k' -> locks_move (running k) k k'.
Proof.
  intros H. apply lock_acquire_wait_decomp in H.
  destruct H as (b & k1 & Hd & H). apply sema_down_decomp in Hd.
  destruct Hd as (_ & _ & [(-> & _ & Hs) | (-> & Hv & ->)]).
  - destruct H as [[E _] | [_ ->]]; [discriminate |]. left.
    eapply locks_frame_trans; [apply enqueue_waiter_locks_frame |].
    eapply locks_frame_trans; [| apply schedule_locks_frame; exact Hs].
    apply sched_frame_locks_frame, set_status_frame.
  - destruct H as [[_ ->] | [E _]]; [| discriminate].
    cbn [get_sema] in Hv. right. left. exists l. split; [exact Hv |].
    unfold lock_acquire_tail. split; lock_fields.
Qed.

Lemma lock_acquire_move (fuel : nat) (l : nat) (k k' : kernel) :
  lock_acquire fuel l k = Ok k' -> locks_move (running k) k k'.
Proof.
  intros H. apply lock_acquire_decomp in H.
  destruct H as (_ & _ & _ & [H | (_ & k2 & Hd & H)]).
  - eapply lock_try_acquire_move. exact H.
  - apply lock_acquire_wait_move in H.
    assert (R : running (set_thread_lock k2 (running k) (Some l)) = running k).
    { apply donate_frame in Hd.
      destruct Hd as (_ & _ & _ & _ & _ & _ & _ & _ & _ & _ & _ & _ & _ & F14 & _).
      exact F14. }
    rewrite R in H. eapply locks_frame_move; [| exact H].
    eapply locks_frame_trans; [| apply set_thread_lock_locks_frame].
    eapply donation_frame_locks_frame. eapply donate_frame. exact Hd.
Qed.

Lemma lock_release_move (l : nat) (k k' : kernel) :
  lock_release l k = Ok k' -> locks_inv k -> locks_move (running k) k k'.
Proof.
  intros H I. apply lock_release_decomp in H. destruct H as (Hs & Hh & H).
  assert (Hin : In l (lock_list (threads k (running k)))) by now apply (proj2 I).
  destruct (lock_release_critical_spec l k Hs Hh Hin)
    as (k1 & Hc & F & H1 & _ & H3 & _).
  rewrite (lock_release_critical_ok l k Hs Hh) in Hc. injection Hc as Hc.
  rewrite Hc in H. clear Hc.
  destruct F as (F1 & F2 & F3 & _).
  apply sema_up_data_frame in H. destruct H as (D1 & D2 & _).
  right. right. exists l. split; [exact Hh |]. split.
  - intros m. rewrite D2. destruct (Nat.eqb_spec m l) as [-> | Hm]; [exact H1 |].
    now rewrite F1.
  - intros t. destruct (thread_data_fields _ _ (D1 t)) as (_ & _ & -> & _).
    destruct (Nat.eqb_spec t (running k)) as [-> | Ht]; [exact H3 |].
    now rewrite F3.
Qed.

Lemma cond_signal_locks_frame (c l : nat) (k k' : kernel) :
  cond_signal c l k = Ok k' -> locks_frame k k'.
Proof.
  intros H. apply cond_signal_decomp in H.
  destruct H as (_ & _ & _ & [[_ H] | (w & rest & _ & _ & H)]).
  - apply thread_yield_locks_frame; exact H.
  - eapply locks_frame_trans;
      [| apply (sema_up_locks_frame (WaiterSema w)); [discriminate | exact H]].
    unfold cond_signal_prepare.
    eapply locks_frame_trans; [apply set_conds_locks_frame |].
    apply set_stack_locks_frame.
Qed.

Lemma exec_locks_move (fuel : nat) (i : instr) (k k' : kernel) :
  exec fuel i k = Ok k' -> locks_inv k -> locks_move (running k) k k'.
Proof.
  intros H I. destruct i; cbn [exec] in H.
  - bind_inv H. destruct a as [b k1]. injection H as <-. left.
    eapply sema_down_locks_frame; [| exact Ha]. discriminate.
  - injection H as <-. left.
    unfold sema_try_down. destruct (value (get_sema k (PlainSema s)) >? 0); cbn [snd].
    + apply set_sema_locks_frame. right. discriminate.
    + apply locks_frame_refl.
  - left. eapply sema_up_locks_frame; [| exact H]. discriminate.
  - eapply lock_acquire_move; eassumption.
  - bind_inv H. destruct a as [b k1]. injection H as <-.
    eapply lock_try_acquire_move; eassumption.
  - eapply lock_release_move; eassumption.
  - apply cond_wait_decomp in H. destruct H as (_ & _ & _ & H).
    assert (F : locks_frame k (cond_wait_prepare c l pos k)).
    { unfold cond_wait_prepare.
      eapply locks_frame_trans; [apply sema_init_locks_frame |].
      eapply locks_frame_trans; [apply set_conds_locks_frame |].
      apply set_stack_locks_frame. }
    apply lock_release_move in H; [| eapply locks_frame_inv; eassumption].
    eapply locks_frame_move; [exact F | exact H].
  - left. eapply cond_signal_locks_frame. exact H.
  - apply cond_broadcast_decomp in H.
    destruct H as [[_ ->] | [_ H]]; left; [apply locks_frame_refl |].
    eapply locks_frame_trans; [apply set_stack_locks_frame |].
    eapply cond_signal_locks_frame. exact H.
  - apply thread_set_priority_decomp in H. destruct H as [_ H]. left.
    eapply locks_frame_trans; [apply set_priority_locks_frame |].
    apply thread_yield_locks_frame. exact H.
  - left. apply thread_yield_locks_frame. exact H.
  - eapply lock_acquire_wait_move; eassumption.
  - bind_inv H. destruct a as [b k1]. injection H as <-. left.
    eapply sema_down_locks_frame; [| exact Ha]. discriminate.
  - apply idle_decomp in H. destruct H as (_ & _ & H). left.
    eapply locks_frame_trans; [apply set_stack_locks_frame |].
    eapply locks_frame_trans; [apply sched_frame_locks_frame, set_status_frame |].
    apply schedule_locks_frame. exact H.
Qed.

Lemma step_locks_move (fuel : nat) (k k' : kernel) :
  step fuel k = Ok k' -> locks_inv k -> locks_move (running k) k k'.
Proof.
  unfold step. intros H I. bind_inv H.
  apply thread_current_inv in Ha. destruct Ha as [-> _].
  destruct (stack (threads k (running k))) as [|i rest].
  - apply thread_exit_decomp in H. destruct H as (_ & _ & H). left.
    eapply locks_frame_trans; [apply sched_frame_locks_frame, set_status_frame |].
    apply schedule_locks_frame. exact H.
  - assert (F : locks_frame k (set_stack k (running k) rest))
      by apply set_stack_locks_frame.
    apply exec_locks_move in H; [| eapply locks_frame_inv; eassumption].
    eapply locks_frame_move; [exact F | exact H].
Qed.

(** No lock stands twice in a lock list, and a lock in the lock list of a
    thread is held by that thread. *)
Definition lock_lists_exact (k : kernel) : Prop :=
  (forall t, NoDup (lock_list (threads k t))) /\
  (forall l t, In l (lock_list (threads k t)) -> holder (locks k l) = Some t).

Lemma locks_move_exact (cur : nat) (k k' : kernel) :
  locks_move cur k k' -> locks_inv k -> lock_lists_exact k -> lock_lists_exact k'.
Proof.
  intros M [I1 _] [N X].
  destruct M as [(F1 & _ & F3) | [(l & V & H & L) | (l & V & H & L)]].
  - split; [intros t; rewrite F3; apply N |].
    intros l t. rewrite F3, F1. apply X.
  - assert (Hfree : holder (locks k l) = None)
      by (destruct (I1 l) as [[E _] | [_ E]]; congruence).
    assert (Hnin : forall t, ~ In l (lock_list (threads k t)))
      by (intros t Hin; specialize (X _ _ Hin); congruence).
    split.
    + intros t. rewrite L. destruct (Nat.eqb t cur); [| apply N].
      constructor; [apply Hnin | apply N].
    + intros m t. rewrite L, H.
      destruct (Nat.eqb_spec t cur) as [E | Ht]; intros Hin.
      * subst t. destruct Hin as [<- | Hin]; [now rewrite Nat.eqb_refl |].
        destruct (Nat.eqb_spec m l) as [-> | _]; [reflexivity | now apply X].
      * destruct (Nat.eqb_spec m l) as [-> | _]; [now elim (Hnin t) | now apply X].
  - split.
    + intros t. rewrite L. destruct (Nat.eqb t cur); [| apply N].
      unfold remaining_locks. apply NoDup_filter. apply N.
    + intros m t. rewrite L, H.
      destruct (Nat.eqb_spec t cur) as [E | Ht]; intros Hin.
      * subst t. unfold remaining_locks in Hin. apply filter_In in Hin. destruct Hin as [Hin Hm].
        destruct (Nat.eqb_spec m l) as [-> | _];
          [rewrite Nat.eqb_refl in Hm; discriminate | now apply X].
      * specialize (X _ _ Hin).
        destruct (Nat.eqb_spec m l) as [-> | _]; [congruence | exact X].
Qed.

Lemma run_lock_lists_exact (fuel n : nat) :
  forall k k', run fuel n k = Ok k' -> locks_inv k -> lock_lists_exact k ->
               locks_inv k' /\ lock_lists_exact k'.
Proof.
  induction n as [|n IH]; intros k k' H I X; cbn [run] in H.
  - injection H as <-. split; assumption.
  - bind_inv H. apply (IH a k' H).
    + eapply step_locks_inv; eassumption.
    + eapply locks_move_exact; [| exact I | exact X].
      eapply step_locks_move; eassumption.
Qed.

(** The lock list of a thread holds the locks that the thread holds.
    Start from a kernel in which the locks are in order and in which every
    lock list holds, once each, locks held by its thread.  Then in every
    kernel that the threads reach, whatever they call, a lock is in the lock
    list of a thread if and only if the thread is its holder, and no lock
    stands twice in a list; so no lock is in the lists of two threads. *)
Theorem lock_lists_hold_the_locks_held (fuel n : nat) (k k' : kernel) :
  locks_inv k ->
  lock_lists_exact k ->
  run fuel n k = Ok k' ->
  (forall t, NoDup (lock_list (threads k' t))) /\
  (forall l t, In l (lock_list (threads k' t)) <-> holder (locks k' l) = Some t) /\
  (forall l t u, In l (lock_list (threads k' t)) ->
                 In l (lock_list (threads k' u)) -> t = u).
Proof.
  intros I X H. destruct (run_lock_lists_exact fuel n k k' H I X) as [[_ I2] [N X']].
  split; [exact N |]. split.
  - intros l t. split; [apply X' | apply I2].
  - intros l t u Ht Hu. apply X' in Ht. apply X' in Hu. congruence.
Qed.

Lemma simple_donation_lock_lists_exact : lock_lists_exact simple_donation.
Proof.
  assert (E : forall t, lock_list (threads simple_donation t) = []).
  { intros t. cbn. destruct (Nat.eqb t 0); [reflexivity |].
    destruct (Nat.eqb t 1); [reflexivity |]. destruct (Nat.eqb t 2); reflexivity. }
  split; [intros t; rewrite E; constructor |].
  intros l t. rewrite E. intros [].
Qed.

Lemma lock_lists_hold_the_locks_held_in_simple_donation :
  locks_inv simple_donation /\ lock_lists_exact simple_donation /\
  (forall l t, In l (lock_list (threads (after 8 7 simple_donation) t))
               <-> holder (locks (after 8 7 simple_donation) l) = Some t) /\
  holder (locks (after 8 7 simple_donation) 0%nat) = Some 1%nat.
Proof.
  split; [apply boot_locks_inv |]. split; [apply simple_donation_lock_lists_exact |].
  split; [| vm_compute; reflexivity].
  apply (lock_lists_hold_the_locks_held 8 7 simple_donation (after 8 7 simple_donation)).
  - apply boot_locks_inv.
  - apply simple_donation_lock_lists_exact.
  - vm_compute. reflexivity.
Defined.

(** ** cond_signal and waiters that do not sleep yet *)

(** cond_priority_cmp looks at the front of the waiter list of each of the
    two semaphores, and so fails the assertion of [list_front] when nobody
    sleeps on one of them. *)
Lemma cond_priority_cmp_cases (k : kernel) (a b : nat) :
  (waiters (waiter_sema k a) <> [] /\ waiters (waiter_sema k b) <> [] /\
   exists r, cond_priority_cmp k a b = Ok r) \/
  ((waiters (waiter_sema k a) = [] \/ waiters (waiter_sema k b) = []) /\
   cond_priority_cmp k a b = Panic ASSERT_list_not_empty).
Proof.
  unfold cond_priority_cmp.
  destruct (waiters (waiter_sema k a)) as [|ta ra]; cbn [list_front bind].
  - right. split; [now left | reflexivity].
  - destruct (waiters (waiter_sema k b)) as [|tb rb]; cbn [list_front bind].
    + right. split; [now right | reflexivity].
    + left. split; [discriminate |]. split; [discriminate |]. eexists. reflexivity.
Qed.

Section SortWaiters.
Variable k : kernel.

Let asleep (w : nat) : Prop := waiters (waiter_sema k w) <> [].

Lemma sorted_insert_cases (e : nat) (s : list nat) :
  (exists r, sorted_insert (cond_priority_cmp k) e s = Ok r /\
             length r = S (length s) /\
             (forall x s', s = x :: s' -> asleep x /\ asleep e) /\
             (forall x, In x r <-> x = e \/ In x s)) \/
  sorted_insert (cond_priority_cmp k) e s = Panic ASSERT_list_not_empty.
Proof.
  induction s as [|x s IH]; cbn [sorted_insert].
  - left. exists [e]. split; [reflexivity |]. split; [reflexivity |].
    split; [discriminate |]. intros y. cbn. intuition congruence.
  - destruct (cond_priority_cmp_cases k x e) as [(Hx & He & r & ->) | [_ ->]];
      [| right; reflexivity].
    cbn [bind].
    assert (A : forall x0 s', x :: s = x0 :: s' -> asleep x0 /\ asleep e)
      by (intros x0 s' E; injection E as <- _; split; assumption).
    destruct r.
    + destruct IH as [(r & -> & Hl & _ & Hin) | ->]; [| right; reflexivity].
      cbn [bind]. left. exists (x :: r). split; [reflexivity |].
      split; [cbn; now rewrite Hl |]. split; [exact A |].
      intros y. cbn. rewrite Hin. intuition congruence.
    + left. exists (e :: x :: s). split; [reflexivity |]. split; [reflexivity |].
      split; [exact A |]. intros y. cbn. intuition congruence.
Qed.

Lemma list_sort_cases (l : list nat) :
  (exists s, list_sort (cond_priority_cmp k) l = Ok s /\
             length s = length l /\
             (forall x, In x s <-> In x l) /\
             ((2 <= length l)%nat -> forall x, In x l -> asleep x)) \/
  list_sort (cond_priority_cmp k) l = Panic ASSERT_list_not_empty.
Proof.
  induction l as [|x l IH]; cbn [list_sort].
  - left. exists []. split; [reflexivity |]. split; [reflexivity |].
    split; [tauto |]. cbn. lia.
  - destruct IH as [(s & -> & Hl & Hin & Ha) | ->]; [| right; reflexivity].
    cbn [bind].
    destruct (sorted_insert_cases x s) as [(r & -> & Hr & Hx & Hin') | ->];
      [| right; reflexivity].
    left. exists r. split; [reflexivity |]. split; [cbn; now rewrite Hr, Hl |].
    split; [intros y; rewrite Hin', Hin; cbn; intuition congruence |].
    intros Hlen y Hy.
    destruct s as [|z s]; [destruct l; cbn in *; [lia | discriminate] |].
    destruct (Hx z s eq_refl) as [Hz Hx'].
    destruct Hy as [<- | Hy]; [exact Hx' |].
    destruct l as [|y0 [|y1 l]]; [destruct Hy | | apply Ha; [cbn; lia | exact Hy]].
    destruct Hy as [<- | []].
    destruct (proj1 (Hin z) (or_introl eq_refl)) as [<- | []]. exact Hz.
Qed.

End SortWaiters.

(** cond_signal fails an assertion when two or more threads are on the
    waiter list of the condition and one of them has not yet gone to sleep on
    its semaphore (it has left [lock_release], inside cond_wait, and has not
    yet called [sema_down]): sorting the waiters compares every one of them,
    and cond_priority_cmp takes the front of an empty list. *)
Theorem cond_signal_fails_on_a_waiter_not_asleep (c l : nat) (k : kernel) (w : nat) :
  status (threads k (running k)) = THREAD_RUNNING ->
  intr_context k = false ->
  holder (locks k l) = Some (running k) ->
  (2 <= length (conds k c))%nat ->
  In w (conds k c) ->
  waiters (waiter_sema k w) = [] ->
  cond_signal c l k = Panic ASSERT_list_not_empty.
Proof.
  intros Hs Hi Hh Hlen Hin Hw. unfold cond_signal. rewrite Hi.
  cbn [negb assert bind].
  rewrite (lock_held_by_current_thread_true l k Hs Hh). cbn [assert bind].
  rewrite (thread_current_running k Hs). cbn [bind].
  destruct (conds k c) as [|x xs] eqn:Ec; [cbn in Hlen; lia |].
  cbn [list_empty negb].
  destruct (list_sort_cases k (x :: xs)) as [(s & _ & _ & _ & Ha) | ->];
    [| reflexivity].
  elim (Ha Hlen w Hin). exact Hw.
Qed.

(** Thread 0 (priority 10) takes lock 0 and wakes thread 1 (priority 20),
    which asks for the lock and waits; thread 0 then waits on condition 0,
    and its [lock_release] gives the processor to thread 1 before thread 0
    sleeps.  Thread 1 wakes thread 2 (priority 30), which asks for the lock
    and waits; thread 1 waits on the condition in its turn, and its
    [lock_release] gives the processor to thread 2, which signals the
    condition.  Thread 3 is the idle thread. *)
Definition early_signal : kernel :=
  boot [ (0%nat, new_thread 10 THREAD_RUNNING
                   [ILockAcquire 0; ISemaUp 1; ICondWait 0 0 0]);
         (1%nat, new_thread 20 THREAD_BLOCKED
                   [ISemaDown 1; ILockAcquire 0; ISemaUp 0; ICondWait 0 0 0]);
         (2%nat, new_thread 30 THREAD_BLOCKED
                   [ISemaDown 0; ILockAcquire 0; ICondSignal 0 0; ILockRelease 0]);
         (3%nat, new_thread PRI_MIN THREAD_BLOCKED [IIdle]) ]
       (upd (upd (fun _ => mkSemaphore 0 []) 0 (mkSemaphore 0 [2%nat]))
            1 (mkSemaphore 0 [1%nat]))
       [] 0%nat 3%nat.

Lemma cond_signal_fails_in_early_signal :
  cond_signal 0 0 (after 8 11 early_signal) = Panic ASSERT_list_not_empty /\
  observe running (run 8 12 early_signal) = Panic ASSERT_list_not_empty.
Proof.
  split; [| vm_compute; reflexivity].
  apply (cond_signal_fails_on_a_waiter_not_asleep 0 0 (after 8 11 early_signal) 0%nat).
  - vm_compute. reflexivity.
  - vm_compute. reflexivity.
  - vm_compute. reflexivity.
  - vm_compute. apply le_n.
  - vm_compute. right. left. reflexivity.
  - vm_compute. reflexivity.
Defined.

(** ** cond_signal and waiters that sleep *)

Section SortSleepers.
Variable k : kernel.

Let key (w : nat) : Z := priority (threads k w).

(** Every waiter of the list sleeps on its own semaphore. *)
Let sleepers (l : list nat) : Prop :=
  forall w, In w l -> waiters (waiter_sema k w) = [w].

(** From the greatest base priority down. *)
Fixpoint descending (s : list nat) : Prop :=
  match s with
  | [] => True
  | x :: r => (forall y, In y r -> priority (threads k y) <= priority (threads k x))
              /\ descending r
  end.

Lemma sorted_insert_sleepers (e : nat) (s : list nat) :
  sleepers (e :: s) -> descending s ->
  exists r, sorted_insert (cond_priority_cmp k) e s = Ok r /\
            length r = S (length s) /\
            (forall x, In x r <-> x = e \/ In x s) /\
            descending r.
Proof.
  intros Hsl. induction s as [|x s IH]; intros Hd; cbn [sorted_insert].
  - exists [e]. split; [reflexivity |]. split; [reflexivity |].
    split; [intros y; cbn; intuition congruence |].
    split; [intros y [] | exact I].
  - rewrite (cond_priority_cmp_base_only k x e x e [] []);
      [| apply Hsl; right; now left | apply Hsl; now left].
    cbn [bind]. destruct Hd as [Hx Hd].
    destruct (Z.gtb_spec (priority (threads k x)) (priority (threads k e))) as [Hgt | Hle].
    + destruct IH as (r & -> & Hl & Hin & Hr); [| exact Hd |].
      { intros w [<- | Hw]; apply Hsl; [now left | right; now right]. }
      cbn [bind]. exists (x :: r). split; [reflexivity |].
      split; [cbn; now rewrite Hl |].
      split; [intros y; cbn; rewrite Hin; intuition congruence |].
      split; [| exact Hr].
      intros y Hy. apply Hin in Hy. destruct Hy as [-> | Hy]; [lia | now apply Hx].
    + exists (e :: x :: s). split; [reflexivity |]. split; [reflexivity |].
      split; [intros y; cbn; intuition congruence |].
      split; [| split; assumption].
      intros y [<- | Hy]; [exact Hle |]. specialize (Hx y Hy). lia.
Qed.

Lemma list_sort_sleepers (l : list nat) :
  sleepers l ->
  exists s, list_sort (cond_priority_cmp k) l = Ok s /\
            length s = length l /\
            (forall x, In x s <-> In x l) /\
            descending s.
Proof.
  induction l as [|x l IH]; intros Hsl; cbn [list_sort].
  - exists []. split; [reflexivity |]. split; [reflexivity |]. split; [tauto | exact I].
  - destruct IH as (s & -> & Hl & Hin & Hd).
    { intros w Hw. apply Hsl. now right. }
    cbn [bind].
    destruct (sorted_insert_sleepers x s) as (r & -> & Hr & Hin' & Hd'); [| exact Hd |].
    { intros w [<- | Hw]; apply Hsl; [now left | right; now apply Hin]. }
    exists r. split; [reflexivity |]. split; [cbn; now rewrite Hr, Hl |].
    split; [intros y; rewrite Hin', Hin; cbn; intuition congruence | exact Hd'].
Qed.

End SortSleepers.

Lemma yield_prepare_status_other (k : kernel) (t : nat) :
  t <> running k ->
  status (threads (yield_prepare k) t) = status (threads k t).
Proof.
  intros Ht. unfold yield_prepare.
  destruct (idle_thread k) as [i|]; [destruct (Nat.eqb (running k) i) |];
    cbn [threads log]; rewrite status_set_status;
    (destruct (Nat.eqb_spec t (running k)); [congruence | reflexivity]).
Qed.

(** cond_signal with every waiter asleep on its semaphore.  The waiters
    are sorted by the base priority of their threads, donated priorities left
    aside, and the first is woken: a waiter whose base priority is the
    greatest on the list.  It leaves the list of the condition, is made ready
    (it may run at once), and the caller has its last thread_yield still to
    run. *)
Theorem cond_signal_wakes_the_highest_base_priority (c l : nat) (k : kernel) :
  status (threads k (running k)) = THREAD_RUNNING ->
  intr_context k = false ->
  holder (locks k l) = Some (running k) ->
  conds k c <> [] ->
  (forall w, In w (conds k c) ->
     waiters (waiter_sema k w) = [w] /\ status (threads k w) = THREAD_BLOCKED) ->
  exists w k',
    cond_signal c l k = Ok k' /\
    In w (conds k c) /\
    (forall u, In u (conds k c) -> priority (threads k u) <= priority (threads k w)) /\
    S (length (conds k' c)) = length (conds k c) /\
    (forall x, In x (conds k c) <-> x = w \/ In x (conds k' c)) /\
    wake_order k' = wake_order k ++ [w] /\
    waiters (waiter_sema k' w) = [] /\
    (status (threads k' w) = THREAD_READY \/ running k' = w) /\
    stack (threads k' (running k)) = IYield :: stack (threads k (running k)).
Proof.
  intros Hs Hi Hh Hne Hsl.
  destruct (list_sort_sleepers k (conds k c)) as (s & Hsort & Hlen & Hin & Hd).
  { intros w Hw. now apply Hsl. }
  destruct s as [|w rest];
    [destruct (conds k c); [congruence | discriminate] |].
  exists w.
  assert (Hw : In w (conds k c)) by (apply Hin; now left).
  destruct (Hsl w Hw) as [Ww Sw].
  set (kp := cond_signal_prepare c rest k).
  assert (E : cond_signal c l k = sema_up (WaiterSema w) kp).
  { unfold cond_signal. rewrite Hi. cbn [negb assert bind].
    rewrite (lock_held_by_current_thread_true l k Hs Hh). cbn [assert bind].
    rewrite (thread_current_running k Hs). cbn [bind].
    destruct (conds k c) as [|x xs] eqn:Ec; [congruence |].
    cbn [list_empty negb]. rewrite Hsort. reflexivity. }
  assert (Q : quiet k kp).
  { unfold kp, cond_signal_prepare.
    eapply quiet_trans; [apply set_conds_quiet |].
    apply (set_stack_quiet (set_conds k _)). }
  destruct Q as (Q1 & Q2 & Q3 & Q4 & Q5 & Q6 & Q7).
  assert (Wp : waiters (get_sema kp (WaiterSema w)) = [w]) by (rewrite Q3; exact Ww).
  assert (Cp : conds kp c = rest).
  { unfold kp, cond_signal_prepare.
    destruct (set_stack_fields (set_conds k (upd (conds k) c rest)) (running k)
                (IYield :: stack (threads (set_conds k (upd (conds k) c rest)) (running k))))
      as (_ & _ & _ & E4 & _).
    cbn [running set_conds] in *. rewrite E4. cbn [conds set_conds]. unfold upd.
    now rewrite Nat.eqb_refl. }
  assert (Tp : trace kp = trace k).
  { unfold kp, cond_signal_prepare.
    destruct (set_stack_fields (set_conds k (upd (conds k) c rest)) (running k)
                (IYield :: stack (threads (set_conds k (upd (conds k) c rest)) (running k))))
      as (_ & _ & _ & _ & _ & _ & _ & _ & E9 & _).
    cbn [running set_conds] in *. rewrite E9. reflexivity. }
  assert (Stp : stack (threads kp (running k)) = IYield :: stack (threads k (running k))).
  { unfold kp, cond_signal_prepare.
    destruct (set_stack_fields (set_conds k (upd (conds k) c rest)) (running k)
                (IYield :: stack (threads (set_conds k (upd (conds k) c rest)) (running k))))
      as (_ & _ & _ & _ & _ & _ & _ & _ & _ & _ & _ & _ & _ & _ & E15 & _).
    cbn [running set_conds] in *. rewrite E15, Nat.eqb_refl. reflexivity. }
  destruct (sema_up_total (WaiterSema w) kp) as [k' Hk'].
  { rewrite Q5, Q1. exact Hs. }
  { rewrite Wp. intros u [<- | []]. rewrite Q1. exact Sw. }
  exists k'. split; [now rewrite E |]. split; [exact Hw |].
  split.
  { intros u Hu. apply Hin in Hu. destruct Hu as [<- | Hu]; [lia |].
    cbn [descending] in Hd. now apply (proj1 Hd). }
  assert (S := sema_up_semaphores _ _ _ Hk' (WaiterSema w)).
  destruct (sema_up_data_frame _ _ _ Hk') as (D1 & _ & _ & D4 & _).
  rewrite D4, Cp.
  split; [cbn [length] in Hlen; exact Hlen |].
  split; [intros x; rewrite <- Hin; cbn; intuition congruence |].
  assert (Hne' : w <> running k) by (intros ->; congruence).
  apply sema_up_decomp in Hk'. destruct Hk' as (k1 & Hwake & H).
  assert (M : list_max (thread_priority_compare kp) (waiters (get_sema kp (WaiterSema w)))
              = Some w) by (rewrite Wp; reflexivity).
  rewrite (sema_up_wake_some (WaiterSema w) kp w M) in Hwake by (rewrite Q1; exact Sw).
  injection Hwake as <-.
  match type of H with
  | context [thread_yield ?K] => set (k2 := K) in H
  end.
  assert (T2 : trace k2 = EvUnblock w :: trace k).
  { unfold k2.
    cbn [trace log set_status set_threads set_ready_list set_sema set_waiter_sema].
    now rewrite Tp. }
  assert (S2 : status (threads k2 w) = THREAD_READY).
  { unfold k2.
    cbn [threads log set_status set_threads set_ready_list set_sema set_waiter_sema].
    unfold upd. now rewrite Nat.eqb_refl. }
  assert (R2 : running k2 = running k).
  { unfold k2.
    cbn [running log set_status set_threads set_ready_list set_sema set_waiter_sema].
    exact Q5. }
  destruct H as [[Hi2 _] | [_ H]].
  { unfold k2 in Hi2.
    cbn [intr_context log set_status set_threads set_ready_list set_sema set_waiter_sema]
      in Hi2.
    rewrite Q6 in Hi2. congruence. }
  fold k2 in H.
  assert (Y := thread_yield_inv _ _ H). destruct Y as (_ & _ & _ & Y).
  apply thread_yield_decomp in H. destruct H as (_ & _ & H).
  destruct (schedule_threads _ _ H) as [St _].
  split.
  { unfold wake_order. rewrite Y, T2. cbn [unblocked rev]. reflexivity. }
  split.
  { change (waiter_sema k' w) with (get_sema k' (WaiterSema w)). rewrite S.
    destruct (sema_ptr_eq_dec (WaiterSema w) (WaiterSema w)) as [_ | N]; [| congruence].
    cbn [waiters]. rewrite M, Wp. cbn [list_remove].
    now rewrite Nat.eqb_refl. }
  split.
  { rewrite St. destruct (Nat.eqb_spec w (running k')) as [Ew | _]; [now right |].
    left. rewrite yield_prepare_status_other by (rewrite R2; exact Hne'). exact S2. }
  destruct (thread_data_fields _ _ (D1 (running k))) as (_ & _ & _ & _ & ->).
  exact Stp.
Qed.


(** In [cond_donation], when thread 0 is about to signal: threads 1 (base
    priority 10, donated priority 50) and 2 (base priority 20) sleep on the
    condition. *)
Lemma cond_signal_wakes_the_highest_base_priority_in_cond_donation :
  exists w k',
    cond_signal 0 0 (after 8 12 cond_donation) = Ok k' /\
    In w (conds (after 8 12 cond_donation) 0%nat) /\
    (forall u, In u (conds (after 8 12 cond_donation) 0%nat) ->
       priority (threads (after 8 12 cond_donation) u)
       <= priority (threads (after 8 12 cond_donation) w)) /\
    wake_order k' = wake_order (after 8 12 cond_donation) ++ [w].
Proof.
  destruct (cond_signal_wakes_the_highest_base_priority 0 0 (after 8 12 cond_donation))
    as (w & k' & H1 & H2 & H3 & _ & _ & H6 & _).
  - vm_compute. reflexivity.
  - vm_compute. reflexivity.
  - vm_compute. reflexivity.
  - vm_compute. discriminate.
  - assert (E : conds (after 8 12 cond_donation) 0%nat = [1; 2]%nat)
      by (vm_compute; reflexivity).
    intros w Hw. rewrite E in Hw.
    destruct Hw as [<- | [<- | []]]; split; vm_compute; reflexivity.
  - exists w, k'. split; [exact H1 |]. split; [exact H2 |]. split; [exact H3 | exact H6].
Defined.

(** * What a call leaves for the scheduler *)

(** The choice made by [thread_yield], for a caller other than the idle
    thread. *)
Lemma yield_choice (k k' : kernel) :
  thread_yield k = Ok k' ->
  idle_thread k <> Some (running k) ->
  In (running k') (ready_list k ++ [running k]) /\
  ready_list k' = list_remove (running k') (ready_list k ++ [running k]) /\
  (forall u, In u (ready_list k ++ [running k]) ->
     effective_priority (threads k u)
     <= effective_priority (threads k (running k'))) /\
  (forall t, thread_data (threads k' t) = thread_data (threads k t)) /\
  (forall t, status (threads k' t)
             = if Nat.eqb t (running k') then THREAD_RUNNING
               else if Nat.eqb t (running k) then THREAD_READY
                    else status (threads k t)).
Proof.
  intros H Hi. apply thread_yield_decomp in H. destruct H as (Hs & _ & H).
  destruct (yield_prepare_fields k Hi) as (Er & Erun & Est & Ed).
  assert (Hne : ready_list (yield_prepare k) <> [])
    by (rewrite Er; intros E; now apply app_eq_nil in E as [_ E]).
  destruct (schedule_ready _ _ H Hne) as (Hin & Hrl & Hmax).
  destruct (schedule_threads _ _ H) as (Hst & Hd).
  rewrite Er in Hin, Hrl.
  assert (Eff : forall t, effective_priority (threads (yield_prepare k) t)
                          = effective_priority (threads k t))
    by (intros t; apply thread_data_effective, Ed).
  split; [exact Hin |]. split; [exact Hrl |]. split.
  - intros u Hu. rewrite <- !Eff. apply Hmax. now rewrite Er.
  - split; [intros t; now rewrite Hd |].
    intros t. now rewrite Hst, Est.
Qed.

(** The kernel in which [thread_set_priority] calls [thread_yield]. *)
Lemma set_priority_fields (k : kernel) (p : Z) :
  ready_list (set_priority k (running k) p) = ready_list k /\
  running (set_priority k (running k) p) = running k /\
  idle_thread (set_priority k (running k) p) = idle_thread k /\
  effective_priority (threads (set_priority k (running k) p) (running k))
  = Z.max p (donation_priority (threads k (running k))) /\
  (forall t, t <> running k ->
     threads (set_priority k (running k) p) t = threads k t) /\
  (forall t, status (threads (set_priority k (running k) p) t) = status (threads k t)).
Proof.
  split; [reflexivity |]. split; [reflexivity |]. split; [reflexivity |]. split.
  - rewrite effective_priority_max. cbn. unfold upd. now rewrite Nat.eqb_refl.
  - split.
    + intros t Ht. cbn. unfold upd.
      destruct (Nat.eqb_spec t (running k)); [contradiction | reflexivity].
    + intros t. cbn. unfold upd.
      destruct (Nat.eqb_spec t (running k)) as [-> | _]; reflexivity.
Qed.

(** thread_set_priority and the processor.  The caller's effective priority
    becomes the greater of the new priority and of what has been donated to
    it, the other threads keep theirs, and the thread that runs when the
    call returns is one of greatest effective priority among the ready
    threads and the caller.  So the caller goes on when it is still above
    every ready thread (a donation above them keeps it there, however low
    the new priority), and it has lost the processor, and waits on the ready
    list, when its new effective priority is below that of a ready
    thread. *)
Theorem thread_set_priority_and_the_processor (p : Z) (k k' : kernel) :
  thread_set_priority p k = Ok k' ->
  idle_thread k <> Some (running k) ->
  effective_priority (threads k' (running k))
  = Z.max p (donation_priority (threads k (running k))) /\
  (forall t, t <> running k ->
     effective_priority (threads k' t) = effective_priority (threads k t)) /\
  In (running k') (ready_list k ++ [running k]) /\
  ready_list k' = list_remove (running k') (ready_list k ++ [running k]) /\
  status (threads k' (running k')) = THREAD_RUNNING /\
  (forall u, In u (ready_list k ++ [running k]) ->
     effective_priority (threads k' u)
     <= effective_priority (threads k' (running k'))) /\
  ((forall u, In u (ready_list k) ->
      effective_priority (threads k' u)
      < Z.max p (donation_priority (threads k (running k)))) ->
   running k' = running k) /\
  ((exists u, In u (ready_list k) /\
      Z.max p (donation_priority (threads k (running k)))
      < effective_priority (threads k' u)) ->
   running k' <> running k /\
   status (threads k' (running k)) = THREAD_READY /\
   In (running k) (ready_list k')).
Proof.
  intros H Hi. unfold thread_set_priority in H. bind_inv H.
  apply thread_current_inv in Ha. destruct Ha as [-> Hs].
  destruct (set_priority_fields k p) as (Sr & Srun & Sidle & Seff & Sother & Sst).
  set (k0 := set_priority k (running k) p) in *.
  assert (Hi0 : idle_thread k0 <> Some (running k0)) by (rewrite Sidle, Srun; exact Hi).
  destruct (yield_choice k0 k' H Hi0) as (Hin & Hrl & Hmax & Hd & Hst).
  rewrite Sr, Srun in Hin, Hrl, Hmax. rewrite Srun in Hst.
  assert (Eff : forall t, effective_priority (threads k' t)
                          = effective_priority (threads k0 t))
    by (intros t; apply thread_data_effective, Hd).
  assert (Hmax' : forall u, In u (ready_list k ++ [running k]) ->
                    effective_priority (threads k' u)
                    <= effective_priority (threads k' (running k'))).
  { intros u Hu. rewrite !Eff. now apply Hmax. }
  assert (Hself : In (running k) (ready_list k ++ [running k]))
    by (apply in_or_app; right; now left).
  split; [now rewrite Eff |].
  split; [intros t Ht; now rewrite Eff, (Sother t Ht) |].
  split; [exact Hin |]. split; [exact Hrl |].
  split; [now rewrite Hst, Nat.eqb_refl |].
  split; [exact Hmax' |]. split.
  - intros Hlt.
    apply in_app_or in Hin. destruct Hin as [Hin | [E | []]]; [| now symmetry].
    specialize (Hlt _ Hin). specialize (Hmax' _ Hself).
    rewrite (Eff (running k)), Seff in Hmax'. lia.
  - intros (u & Hu & Hlt).
    assert (R : running k' <> running k).
    { intros E. assert (Hc : In u (ready_list k ++ [running k]))
        by (apply in_or_app; now left).
      specialize (Hmax' _ Hc). rewrite E, (Eff (running k)), Seff in Hmax'. lia. }
    split; [exact R |]. split.
    + rewrite Hst, Nat.eqb_refl.
      destruct (Nat.eqb_spec (running k) (running k')); [congruence | reflexivity].
    + rewrite Hrl. apply list_remove_In_other; [congruence | exact Hself].
Qed.

(** In [signal_no_waiter] thread 0 (priority 31) runs and thread 1
    (priority 40) is ready: thread 0 setting its priority to 50 goes on. *)
Lemma thread_set_priority_above_at_signal_no_waiter :
  exists k',
    thread_set_priority 50 signal_no_waiter = Ok k' /\
    effective_priority (threads k' (running signal_no_waiter)) = 50 /\
    running k' = running signal_no_waiter.
Proof.
  destruct (thread_yield_total (set_priority signal_no_waiter 0%nat 50)) as [k' Hk'];
    try reflexivity.
  assert (H : thread_set_priority 50 signal_no_waiter = Ok k') by exact Hk'.
  exists k'. split; [exact H |].
  destruct (thread_set_priority_and_the_processor 50 signal_no_waiter k' H)
    as (H1 & H2 & _ & _ & _ & _ & H7 & _).
  - discriminate.
  - split; [exact H1 |]. apply H7.
    intros u [<- | []]. rewrite (H2 1%nat); [reflexivity | discriminate].
Defined.

(** sema_up and the processor.  Outside an interrupt handler, [sema_up] on
    a semaphore with waiters, called by a thread other than the idle thread,
    wakes a waiter [w] of greatest effective priority and yields: the thread
    that runs when the call returns is one of greatest effective priority
    among the ready threads, [w] and the caller.  When [w] is above the
    caller, the caller has lost the processor and waits on the ready list;
    [w] runs when it is also above every ready thread.  When the caller is
    above [w] and every ready thread, it goes on and [w] waits on the ready
    list.  No priority changes. *)
Theorem sema_up_and_the_processor (sema : sema_ptr) (k k' : kernel) :
  sema_up sema k = Ok k' ->
  intr_context k = false ->
  idle_thread k <> Some (running k) ->
  waiters (get_sema k sema) <> [] ->
  exists w,
    In w (waiters (get_sema k sema)) /\
    (forall u, In u (waiters (get_sema k sema)) ->
       effective_priority (threads k u) <= effective_priority (threads k w)) /\
    wake_order k' = wake_order k ++ [w] /\
    w <> running k /\
    (forall t, effective_priority (threads k' t) = effective_priority (threads k t)) /\
    In (running k') (ready_list k ++ [w; running k]) /\
    ready_list k' = list_remove (running k') (ready_list k ++ [w; running k]) /\
    status (threads k' (running k')) = THREAD_RUNNING /\
    (forall u, In u (ready_list k ++ [w; running k]) ->
       effective_priority (threads k u)
       <= effective_priority (threads k (running k'))) /\
    (effective_priority (threads k (running k)) < effective_priority (threads k w) ->
     running k' <> running k /\
     status (threads k' (running k)) = THREAD_READY /\
     In (running k) (ready_list k') /\
     ((forall u, In u (ready_list k) ->
         effective_priority (threads k u) < effective_priority (threads k w)) ->
      running k' = w)) /\
    (effective_priority (threads k w) < effective_priority (threads k (running k)) ->
     (forall u, In u (ready_list k) ->
        effective_priority (threads k u)
        < effective_priority (threads k (running k))) ->
     running k' = running k /\
     status (threads k' w) = THREAD_READY /\
     In w (ready_list k')).
Proof.
  intros H Hi Hidle Hw.
  apply sema_up_decomp in H. destruct H as (k1 & Hwk & H).
  destruct (sema_up_wake_ctl _ _ _ Hwk) as (C1 & C2 & C3 & _).
  assert (D1 := sema_up_wake_data_frame _ _ _ Hwk). destruct D1 as (D1 & _).
  destruct H as [[Hc _] | [_ Hy]]; [congruence |].
  apply sema_up_wake_inv in Hwk. destruct Hwk as [[E _] | (w & Hm & Hs & Ek1)];
    [congruence |].
  destruct (list_max_thread_priority k _ w Hm) as (l1 & l2 & Hl & Hle & Hlt).
  assert (Hinw : In w (waiters (get_sema k sema)))
    by (rewrite Hl; apply in_or_app; right; now left).
  assert (R1 : ready_list k1 = ready_list k ++ [w])
    by (rewrite Ek1; cbn [ready_list log set_status set_threads set_ready_list];
        reflexivity).
  assert (S1 : forall t, status (threads k1 t)
                         = if Nat.eqb t w then THREAD_READY else status (threads k t)).
  { intros t. rewrite Ek1. cbn [threads log]. rewrite status_set_status.
    cbn [threads set_ready_list]. now rewrite threads_set_sema. }
  assert (T1 : trace k1 = EvUnblock w :: trace k).
  { rewrite Ek1. cbn [trace log set_status set_threads set_ready_list].
    now rewrite trace_set_sema. }
  clear Ek1.
  set (k2 := set_sema k1 sema
               (mkSemaphore ((value (get_sema k1 sema) + 1) mod UINT_MODULUS)
                            (waiters (get_sema k1 sema)))) in Hy.
  assert (R2 : ready_list k2 = ready_list k ++ [w])
    by (unfold k2; now rewrite ready_list_set_sema).
  assert (Run2 : running k2 = running k) by (unfold k2; now rewrite running_set_sema).
  assert (I2 : idle_thread k2 = idle_thread k)
    by (unfold k2; now rewrite idle_thread_set_sema).
  assert (Th2 : threads k2 = threads k1) by (unfold k2; apply threads_set_sema).
  assert (T2 : trace k2 = EvUnblock w :: trace k)
    by (unfold k2; now rewrite trace_set_sema).
  assert (Eff2 : forall t, effective_priority (threads k2 t)
                           = effective_priority (threads k t))
    by (intros t; rewrite Th2; apply thread_data_effective, D1).
  destruct (thread_yield_inv _ _ Hy) as (Hrun & _ & _ & Tr).
  assert (Hne : w <> running k).
  { intros E. rewrite Run2, Th2, S1, <- E, Nat.eqb_refl in Hrun. discriminate. }
  assert (Hi2 : idle_thread k2 <> Some (running k2)) by (rewrite I2, Run2; exact Hidle).
  destruct (yield_choice k2 k' Hy Hi2) as (Hin & Hrl & Hmax & Hd & Hst).
  rewrite R2, Run2, <- app_assoc in Hin, Hrl, Hmax. cbn [app] in Hin, Hrl, Hmax.
  rewrite Run2 in Hst.
  assert (Hmax' : forall u, In u (ready_list k ++ [w; running k]) ->
                    effective_priority (threads k u)
                    <= effective_priority (threads k (running k'))).
  { intros u Hu. rewrite <- !Eff2. now apply Hmax. }
  assert (Hself : In (running k) (ready_list k ++ [w; running k]))
    by (apply in_or_app; right; right; now left).
  assert (Hwin : In w (ready_list k ++ [w; running k]))
    by (apply in_or_app; right; now left).
  exists w. split; [exact Hinw |]. split.
  { intros u Hu. rewrite Hl in Hu. apply in_app_or in Hu.
    destruct Hu as [Hu | [<- | Hu]]; [now apply Hle | lia |].
    specialize (Hlt u Hu). lia. }
  split.
  { unfold wake_order. rewrite Tr, T2. cbn [unblocked rev]. reflexivity. }
  split; [exact Hne |].
  split; [intros t; rewrite <- Eff2; apply thread_data_effective, Hd |].
  split; [exact Hin |]. split; [exact Hrl |].
  split; [now rewrite Hst, Nat.eqb_refl |].
  split; [exact Hmax' |]. split.
  - intros Hlow.
    assert (R : running k' <> running k).
    { intros E. specialize (Hmax' _ Hwin). rewrite E in Hmax'. lia. }
    split; [exact R |]. split.
    { rewrite Hst, Nat.eqb_refl.
      destruct (Nat.eqb_spec (running k) (running k')); [congruence | reflexivity]. }
    split.
    { rewrite Hrl. apply list_remove_In_other; [congruence | exact Hself]. }
    intros Hall. apply in_app_or in Hin.
    destruct Hin as [Hin | [E | [E | []]]]; [| now symmetry | congruence].
    specialize (Hall _ Hin). specialize (Hmax' _ Hwin). lia.
  - intros Hlow Hall.
    assert (R : running k' = running k).
    { apply in_app_or in Hin. destruct Hin as [Hin | [E | [E | []]]]; [| | now symmetry].
      - specialize (Hall _ Hin). specialize (Hmax' _ Hself). lia.
      - specialize (Hmax' _ Hself). rewrite <- E in Hmax'. lia. }
    split; [exact R |]. split.
    + rewrite Hst, R. destruct (Nat.eqb_spec w (running k)); [congruence |].
      rewrite Th2, S1, Nat.eqb_refl. reflexivity.
    + rewrite Hrl, R. apply list_remove_In_other; [exact Hne | exact Hwin].
Qed.

(** In [five_waiters] thread 0 (priority 31) runs and the threads of
    priorities 5 to 45 wait on semaphore 0: [sema_up] wakes thread 5
    (priority 45), which runs at once. *)
Lemma sema_up_preempts_at_five_waiters :
  exists k',
    sema_up (PlainSema 0) five_waiters = Ok k' /\
    running k' = 5%nat /\
    status (threads k' (running five_waiters)) = THREAD_READY.
Proof.
  assert (T : exists k', sema_up (PlainSema 0) five_waiters = Ok k').
  { apply sema_up_total; [reflexivity |]. intros u Hu.
    change (In u [1; 2; 3; 4; 5]%nat) in Hu.
    destruct Hu as [<- | [<- | [<- | [<- | [<- | []]]]]]; reflexivity. }
  destruct T as [k' Hk'].
  exists k'. split; [exact Hk' |].
  destruct (sema_up_and_the_processor (PlainSema 0) five_waiters k' Hk')
    as (w & Hw & Hmax & _ & _ & _ & _ & _ & _ & _ & Hup & _).
  - reflexivity.
  - discriminate.
  - discriminate.
  - assert (E : w = 5%nat).
    { assert (W : waiters (get_sema five_waiters (PlainSema 0)) = [1; 2; 3; 4; 5]%nat)
        by reflexivity.
      rewrite W in Hw, Hmax.
      assert (H5 := Hmax 5%nat (or_intror (or_intror (or_intror (or_intror (or_introl eq_refl)))))).
      destruct Hw as [<- | [<- | [<- | [<- | [<- | []]]]]];
        try reflexivity; exfalso; revert H5; vm_compute; intros H5; apply H5; reflexivity. }
    subst w.
    assert (Hlt : effective_priority (threads five_waiters (running five_waiters))
                  < effective_priority (threads five_waiters 5%nat)) by reflexivity.
    destruct (Hup Hlt) as (_ & H2 & _ & H4). split; [| exact H2].
    apply H4. intros u [].
Defined.

(** * A signal that comes before the waiter sleeps *)

(** cond_signal when the one waiter of the condition has left the
    [lock_release] of [cond_wait] but has not yet called [sema_down] on its
    semaphore.  Nobody is woken; the waiter leaves the list of the condition
    and its semaphore goes to 1, and the caller yields.  The wake-up is not
    lost: as long as the semaphore is left alone, the [sema_down] of the
    waiter, when it runs, returns at once with the semaphore at 0 again. *)
Theorem cond_signal_before_the_waiter_sleeps (c l w : nat) (k : kernel) :
  status (threads k (running k)) = THREAD_RUNNING ->
  intr_context k = false ->
  holder (locks k l) = Some (running k) ->
  conds k c = [w] ->
  waiter_sema k w = mkSemaphore 0 [] ->
  exists k1,
    cond_signal c l k = thread_yield k1 /\
    conds k1 c = [] /\
    waiter_sema k1 w = mkSemaphore 1 [] /\
    wake_order k1 = wake_order k /\
    ready_list k1 = ready_list k /\
    (forall t, status (threads k1 t) = status (threads k t)) /\
    stack (threads k1 (running k)) = IYield :: stack (threads k (running k)) /\
    forall k2,
      running k2 = w ->
      status (threads k2 w) = THREAD_RUNNING ->
      intr_context k2 = false ->
      waiter_sema k2 w = waiter_sema k1 w ->
      sema_down (WaiterSema w) IWaiterDown k2
      = Ok (true, set_sema k2 (WaiterSema w) (mkSemaphore 0 [])).
Proof.
  intros Hs Hi Hh Hc Hw.
  exists (set_sema (cond_signal_prepare c [] k) (WaiterSema w) (mkSemaphore 1 [])).
  split.
  { unfold cond_signal. rewrite Hi. cbn [negb assert bind].
    rewrite (lock_held_by_current_thread_true l k Hs Hh). cbn [assert bind].
    rewrite (thread_current_running k Hs). cbn [bind].
    rewrite Hc. cbn [list_empty negb list_sort sorted_insert bind list_pop_front].
    fold (cond_signal_prepare c [] k).
    unfold sema_up, sema_up_critical, sema_up_wake.
    assert (G : get_sema (cond_signal_prepare c [] k) (WaiterSema w) = mkSemaphore 0 [])
      by (cbn; exact Hw).
    rewrite G. cbn [waiters list_empty negb bind]. rewrite G.
    cbn [value waiters].
    change ((0 + 1) mod UINT_MODULUS) with 1.
    rewrite intr_context_set_sema.
    change (intr_context (cond_signal_prepare c [] k)) with (intr_context k).
    rewrite Hi. reflexivity. }
  split; [cbn; unfold upd; now rewrite Nat.eqb_refl |].
  split; [cbn; unfold upd; now rewrite Nat.eqb_refl |].
  split; [reflexivity |]. split; [reflexivity |].
  split.
  { intros t. cbn. unfold upd.
    destruct (Nat.eqb_spec t (running k)) as [-> | _]; reflexivity. }
  split; [cbn; unfold upd; now rewrite Nat.eqb_refl |].
  intros k2 Hr2 Hs2 Hi2 Hw2.
  assert (V : waiter_sema k2 w = mkSemaphore 1 []).
  { rewrite Hw2. cbn. unfold upd. now rewrite Nat.eqb_refl. }
  rewrite <- Hr2 in Hs2.
  destruct (sema_down_cases (WaiterSema w) IWaiterDown k2 Hs2 Hi2) as [[E _] | [_ E]].
  - cbn [get_sema] in E. rewrite V in E. discriminate.
  - rewrite E. cbn [get_sema]. rewrite V. reflexivity.
Qed.

(** Thread 0 (priority 10) takes lock 0 and wakes thread 1 (priority 30),
    which asks for the lock and waits; thread 0 then waits on condition 0,
    and its [lock_release] gives the processor to thread 1 before thread 0
    sleeps.  Thread 1 signals the condition, releases the lock and ends;
    thread 0 then finds its semaphore at 1.  Thread 2 is the idle thread. *)
Definition signal_before_sleep : kernel :=
  boot [ (0%nat, new_thread 10 THREAD_RUNNING
                   [ILockAcquire 0; ISemaUp 0; ICondWait 0 0 0; ILockRelease 0]);
         (1%nat, new_thread 30 THREAD_BLOCKED
                   [ISemaDown 0; ILockAcquire 0; ICondSignal 0 0; ILockRelease 0]);
         (2%nat, new_thread PRI_MIN THREAD_BLOCKED [IIdle]) ]
       (upd (fun _ => mkSemaphore 0 []) 0 (mkSemaphore 0 [1%nat]))
       [] 0%nat 2%nat.

Lemma cond_signal_before_the_waiter_sleeps_in_signal_before_sleep :
  conds (after 8 6 signal_before_sleep) 0%nat = [0%nat] /\
  waiter_sema (after 8 6 signal_before_sleep) 0%nat = mkSemaphore 0 [] /\
  sema_down (WaiterSema 0) IWaiterDown (after 8 10 signal_before_sleep)
  = Ok (true, set_sema (after 8 10 signal_before_sleep) (WaiterSema 0)
                (mkSemaphore 0 [])).
Proof.
  assert (C : conds (after 8 6 signal_before_sleep) 0%nat = [0%nat])
    by (vm_compute; reflexivity).
  assert (W : waiter_sema (after 8 6 signal_before_sleep) 0%nat = mkSemaphore 0 [])
    by (vm_compute; reflexivity).
  split; [exact C |]. split; [exact W |].
  destruct (cond_signal_before_the_waiter_sleeps 0 0 0 (after 8 6 signal_before_sleep))
    as (k1 & _ & _ & W1 & _ & _ & _ & _ & Hlater).
  - vm_compute. reflexivity.
  - vm_compute. reflexivity.
  - vm_compute. reflexivity.
  - exact C.
  - exact W.
  - apply Hlater.
    + vm_compute. reflexivity.
    + vm_compute. reflexivity.
    + vm_compute. reflexivity.
    + rewrite W1. vm_compute. reflexivity.
Defined.

(** * Counting with a semaphore *)

(** The semaphore after [n] calls of [sema_try_down] that follow
    [sema_init (sema, v)]. *)
Lemma sema_try_down_iter (sema : sema_ptr) (v : Z) (k : kernel) (n : nat) :
  0 <= v < UINT_MODULUS ->
  get_sema (Nat.iter n (fun k0 => snd (sema_try_down sema k0)) (sema_init sema v k)) sema
  = mkSemaphore (Z.max 0 (v - Z.of_nat n)) [].
Proof.
  intros Hv. induction n as [|n IH].
  - unfold Nat.iter. cbn [nat_rect]. unfold sema_init.
    rewrite get_set_sema_same. f_equal. lia.
  - rewrite Nat.iter_succ. set (kn := Nat.iter n _ _) in *.
    unfold sema_try_down. rewrite IH. cbn [value waiters].
    destruct (Z.gtb_spec (Z.max 0 (v - Z.of_nat n)) 0) as [G | G]; cbn [snd].
    + rewrite get_set_sema_same. f_equal.
      rewrite Z.mod_small by lia. lia.
    + rewrite IH. f_equal. lia.
Qed.

(** A semaphore counts.  After [sema_init (sema, v)], the first [v] calls
    of [sema_try_down] succeed and every later one fails and changes
    nothing: the [n]-th call finds the value [v - n], or 0 once [v] calls
    have been made, and the value never passes below 0. *)
Theorem sema_init_allows_that_many_downs (sema : sema_ptr) (v : Z) (k : kernel)
    (n : nat) :
  0 <= v < UINT_MODULUS ->
  value (get_sema (Nat.iter n (fun k0 => snd (sema_try_down sema k0))
                     (sema_init sema v k)) sema)
  = Z.max 0 (v - Z.of_nat n) /\
  sema_try_down sema (Nat.iter n (fun k0 => snd (sema_try_down sema k0))
                        (sema_init sema v k))
  = (Z.of_nat n <? v,
     Nat.iter (if Z.of_nat n <? v then S n else n)
       (fun k0 => snd (sema_try_down sema k0)) (sema_init sema v k)).
Proof.
  intros Hv. assert (E := sema_try_down_iter sema v k n Hv).
  split; [now rewrite E |].
  destruct (Z.ltb_spec (Z.of_nat n) v) as [L | L].
  - rewrite Nat.iter_succ. set (kn := Nat.iter n _ _) in *.
    unfold sema_try_down. rewrite E. cbn [value waiters snd].
    destruct (Z.gtb_spec (Z.max 0 (v - Z.of_nat n)) 0) as [G | G]; [reflexivity | lia].
  - set (kn := Nat.iter n _ _) in *.
    unfold sema_try_down. rewrite E. cbn [value waiters].
    destruct (Z.gtb_spec (Z.max 0 (v - Z.of_nat n)) 0) as [G | G]; [lia | reflexivity].
Qed.

Lemma sema_init_allows_two_downs :
  sema_try_down (PlainSema 7)
    (Nat.iter 1 (fun k0 => snd (sema_try_down (PlainSema 7) k0))
       (sema_init (PlainSema 7) 2 five_waiters))
  = (true,
     Nat.iter 2 (fun k0 => snd (sema_try_down (PlainSema 7) k0))
       (sema_init (PlainSema 7) 2 five_waiters)) /\
  sema_try_down (PlainSema 7)
    (Nat.iter 2 (fun k0 => snd (sema_try_down (PlainSema 7) k0))
       (sema_init (PlainSema 7) 2 five_waiters))
  = (false,
     Nat.iter 2 (fun k0 => snd (sema_try_down (PlainSema 7) k0))
       (sema_init (PlainSema 7) 2 five_waiters)).
Proof.
  assert (R : 0 <= 2 < UINT_MODULUS) by (split; [lia | reflexivity]).
  split.
  - exact (proj2 (sema_init_allows_that_many_downs (PlainSema 7) 2 five_waiters 1 R)).
  - exact (proj2 (sema_init_allows_that_many_downs (PlainSema 7) 2 five_waiters 2 R)).
Defined.

(** * The idle thread *)

(** The idle thread is blocked when it does not run, and no thread is ready
    when it runs. *)
Definition idle_rests (k : kernel) : Prop :=
  forall i, idle_thread k = Some i ->
    (i <> running k -> status (threads k i) = THREAD_BLOCKED) /\
    (i = running k -> ready_list k = []).

Lemma step_idle_rests (fuel : nat) (k k' : kernel) :
  step fuel k = Ok k' -> sound k -> idle_rests k -> idle_rests k'.
Proof.
  intros H (Hi & Q & J & L & [R1 R2] & A) B.
  destruct (step_cases fuel k k' H Hi (locks_inv_values k L) J) as [_ C].
  destruct C as [[(C1 & C2 & _ & C4 & C5 & _) _] | (k1 & S & Hf & Hq & Hidle)].
  - intros i Ei. rewrite C4 in Ei. destruct (B i Ei) as [B1 B2].
    rewrite C1, C2, C5. split; assumption.
  - destruct Hf as (F1 & F2 & _ & _ & _ & F6).
    destruct (schedule_ctl _ _ S) as (S1 & _).
    destruct (schedule_threads _ _ S) as [St _].
    intros i Ei. rewrite S1, F2 in Ei.
    assert (Bl : status (threads k1 i) = THREAD_BLOCKED).
    { destruct (Nat.eq_dec i (running k)) as [-> | Hne]; [now apply Hidle |].
      rewrite (F6 Q i Ei Hne). now apply (B i Ei). }
    assert (Nr : ~ In i (ready_list k1)).
    { intros Hin. destruct (Hq Q) as (_ & Q2 & _). specialize (Q2 _ Hin). congruence. }
    destruct (ready_list k1) as [|x xs] eqn:Er.
    + destruct (schedule_empty _ _ S Er) as [E1 E2]. rewrite F2, Ei in E1.
      injection E1 as E1. split; [congruence | intros _; exact E2].
    + assert (Hr : ready_list k1 <> []) by (rewrite Er; discriminate).
      destruct (schedule_ready _ _ S Hr) as (Hin & _). rewrite Er in Hin.
      assert (Hne : i <> running k') by (intros E; apply Nr; now rewrite E).
      split; [| intros E; contradiction].
      intros _. rewrite St. destruct (Nat.eqb_spec i (running k')); [contradiction |].
      exact Bl.
Qed.

Lemma run_idle_rests (fuel n : nat) :
  forall k k', run fuel n k = Ok k' -> sound k -> idle_rests k -> idle_rests k'.
Proof.
  induction n as [|n IH]; intros k k' H I B; cbn [run] in H.
  - now injection H as <-.
  - bind_inv H. apply (IH a k' H).
    + eapply step_sound; eassumption.
    + eapply step_idle_rests; eassumption.
Qed.

(** The idle thread runs when nothing else can.  Start from a kernel in
    order in which the idle thread is blocked, or runs with no thread ready.
    Then in every kernel that the threads reach, whatever they call, the
    idle thread is never on the ready list nor on a waiter list; it is
    blocked whenever another thread runs; and whenever a thread is ready,
    the thread that runs is not the idle thread. *)
Theorem idle_thread_runs_when_nothing_is_ready (fuel n : nat) (k k' : kernel) (i : nat) :
  sound k ->
  idle_rests k ->
  run fuel n k = Ok k' ->
  idle_thread k' = Some i ->
  ~ In i (ready_list k') /\
  (forall p, ~ In i (waiters (get_sema k' p))) /\
  (running k' <> i -> status (threads k' i) = THREAD_BLOCKED) /\
  (running k' = i -> ready_list k' = []) /\
  (ready_list k' <> [] -> running k' <> i).
Proof.
  intros I B H Ei.
  destruct (run_sound fuel n k k' H I) as (_ & Q & _ & _ & [R1 _] & _).
  destruct (run_idle_rests fuel n k k' H I B i Ei) as [B1 B2].
  destruct Q as (_ & Q2 & _ & _ & _ & Q6).
  split; [| split; [| split; [| split]]].
  - intros Hin. destruct (Nat.eq_dec i (running k')) as [E | Hne].
    + rewrite (B2 E) in Hin. destruct Hin.
    + specialize (Q2 _ Hin). rewrite (B1 Hne) in Q2. discriminate.
  - intros p. now apply Q6.
  - intros Hne. apply B1. congruence.
  - intros E. apply B2. congruence.
  - intros Hr E. apply Hr, B2. congruence.
Qed.

Lemma one_exits_idle_rests : idle_rests one_exits.
Proof.
  intros i E. cbn in E. injection E as <-.
  split; [reflexivity | discriminate].
Qed.

(** In [one_exits] the idle thread is thread 2: it is off the ready list
    while thread 1 runs, and runs once both threads have exited. *)
Lemma idle_thread_runs_last_in_one_exits :
  ~ In 2%nat (ready_list (after 0 2 one_exits)) /\
  status (threads (after 0 2 one_exits) 2%nat) = THREAD_BLOCKED /\
  running (after 0 5 one_exits) = 2%nat /\
  ready_list (after 0 5 one_exits) = [].
Proof.
  destruct (idle_thread_runs_when_nothing_is_ready 0 2 one_exits (after 0 2 one_exits)
              2%nat one_exits_sound one_exits_idle_rests)
    as (H1 & _ & H3 & _).
  { vm_compute. reflexivity. }
  { vm_compute. reflexivity. }
  destruct (idle_thread_runs_when_nothing_is_ready 0 5 one_exits (after 0 5 one_exits)
              2%nat one_exits_sound one_exits_idle_rests)
    as (_ & _ & _ & H4 & _).
  { vm_compute. reflexivity. }
  { vm_compute. reflexivity. }
  assert (R : running (after 0 5 one_exits) = 2%nat) by (vm_compute; reflexivity).
  split; [exact H1 |]. split; [apply H3; vm_compute; discriminate |].
  split; [exact R | exact (H4 R)].
Defined.

(** * What the donation is for *)

(** The walk that starts at a lock with a holder leaves that holder with a
    donated priority of at least the priority donated. *)
Lemma donate_reaches_the_holder (fuel : nat) (l h : nat) (p : Z) (k k2 : kernel) :
  donate_priority_recursively fuel (Some l) p k = Ok k2 ->
  holder (locks k l) = Some h ->
  p <= donation_priority (threads k2 h).
Proof.
  intros Hd Hh. destruct fuel as [|fuel]; [discriminate |].
  rewrite (donate_unfold fuel l h p k Hh) in Hd.
  destruct (donate_step_frame l h p k) as (_ & _ & Fh).
  apply donate_frame in Hd.
  destruct Hd as (_ & _ & _ & _ & _ & _ & _ & _ & F9 & _).
  destruct (F9 h) as [E | E]; rewrite E, Fh; lia.
Qed.

(** What a call of lock_acquire that has returned has done, on a lock whose
    holder is ready. *)
Lemma lock_acquire_lends_outcome (fuel l h : nat) (k k' : kernel) :
  lock_acquire fuel l k = Ok k' ->
  holder (locks k l) = Some h ->
  value (lock_semaphore (locks k l)) = 0 ->
  In h (ready_list k) ->
  h <> running k /\
  thread_lock (threads k' (running k)) = Some l /\
  In (running k) (waiters (lock_semaphore (locks k' l))) /\
  effective_priority (threads k (running k)) <= effective_priority (threads k' h) /\
  In (running k') (ready_list k) /\
  ready_list k' = list_remove (running k') (ready_list k) /\
  (forall u, In u (ready_list k) ->
     effective_priority (threads k' u)
     <= effective_priority (threads k' (running k'))) /\
  effective_priority (threads k (running k))
  <= effective_priority (threads k' (running k')) /\
  (~ In (running k) (ready_list k) ->
   running k' <> running k /\
   status (threads k' (running k)) = THREAD_BLOCKED).
Proof.
  intros H Hh Hv Hin.
  apply lock_acquire_decomp in H.
  destruct H as (Hs & Hi & Hne & [H | (_ & k2 & Hd & H)]).
  { apply lock_try_acquire_decomp in H.
    destruct H as (_ & _ & [(_ & V & _) | (E & _)]); [lia | discriminate]. }
  set (p := effective_priority (threads k (running k))) in *.
  assert (Dh := donate_reaches_the_holder _ _ _ _ _ _ Hd Hh).
  apply donate_frame in Hd.
  destruct Hd as (F1 & F2 & _ & F4 & F5 & _ & _ & _ & _ & _ & _ & _ & F13 & F14 & _).
  set (k3 := set_thread_lock k2 (running k) (Some l)) in H.
  apply lock_acquire_wait_decomp in H. destruct H as (b & k1 & Hsd & H).
  apply sema_down_decomp in Hsd.
  assert (R3 : running k3 = running k) by exact F14.
  assert (V3 : value (get_sema k3 (LockSema l)) = 0).
  { change (get_sema k3 (LockSema l)) with (lock_semaphore (locks k2 l)).
    now rewrite F2. }
  destruct Hsd as (_ & _ & [(-> & _ & S) | (_ & N & _)]); [| congruence].
  destruct H as [[E _] | [_ <-]]; [discriminate |].
  rewrite R3 in S.
  set (k4 := set_status (enqueue_waiter (LockSema l) (ILockWait l) k3) (running k)
               THREAD_BLOCKED) in S.
  destruct (enqueue_waiter_fields (LockSema l) (ILockWait l) k3)
    as (_ & E2 & _ & _ & _ & _ & E7 & E8 & E9 & _ & E11 & _ & _ & _ & E15).
  assert (R4 : ready_list k4 = ready_list k).
  { unfold k4. cbn [ready_list set_status set_threads]. rewrite E2. exact F13. }
  assert (P3 : forall t, priority (threads k3 t) = priority (threads k2 t))
    by (intros t; unfold k3; cbn; unfold upd;
        destruct (Nat.eqb_spec t (running k)) as [-> | _]; reflexivity).
  assert (D3 : forall t, donation_priority (threads k3 t)
                         = donation_priority (threads k2 t))
    by (intros t; unfold k3; cbn; unfold upd;
        destruct (Nat.eqb_spec t (running k)) as [-> | _]; reflexivity).
  assert (P4 : forall t, priority (threads k4 t) = priority (threads k t)).
  { intros t. unfold k4. cbn [threads set_status set_threads]. unfold upd.
    destruct (Nat.eqb_spec t (running k)) as [-> | _]; cbn [priority];
      rewrite E8, P3; apply F5. }
  assert (D4 : forall t, donation_priority (threads k4 t)
                         = donation_priority (threads k2 t)).
  { intros t. unfold k4. cbn [threads set_status set_threads]. unfold upd.
    destruct (Nat.eqb_spec t (running k)) as [-> | _]; cbn [donation_priority];
      rewrite E9; apply D3. }
  assert (Hr : ready_list k4 <> []) by (rewrite R4; intros E; rewrite E in Hin; destruct Hin).
  destruct (schedule_ready _ _ S Hr) as (Rin & Rrl & Rmax).
  destruct (schedule_threads _ _ S) as (Hst & Hd').
  destruct (schedule_frame _ _ S) as [(L' & _) _].
  rewrite R4 in Rin, Rrl, Rmax.
  assert (Eff : forall t, effective_priority (threads k' t)
                          = effective_priority (threads k4 t))
    by (intros t; apply thread_data_effective, Hd').
  assert (Eh : p <= effective_priority (threads k' h)).
  { rewrite Eff, effective_priority_max, D4. lia. }
  split; [intros E; apply Hne; now rewrite <- E |].
  split.
  { destruct (thread_data_fields _ _ (Hd' (running k))) as (_ & _ & _ & -> & _).
    unfold k4. cbn [threads set_status set_threads]. unfold upd.
    rewrite Nat.eqb_refl. cbn [thread_lock]. rewrite E11.
    unfold k3. cbn [threads set_thread_lock set_threads]. unfold upd.
    now rewrite Nat.eqb_refl. }
  split.
  { rewrite L'. change (lock_semaphore (locks k4 l))
      with (get_sema (enqueue_waiter (LockSema l) (ILockWait l) k3) (LockSema l)).
    rewrite E15. destruct (sema_ptr_eq_dec (LockSema l) (LockSema l)); [| congruence].
    cbn [waiters]. unfold list_push_back. rewrite R3.
    apply in_or_app. right. now left. }
  split; [exact Eh |]. split; [exact Rin |]. split; [exact Rrl |].
  split; [intros u Hu; rewrite !Eff; now apply Rmax |].
  split.
  { specialize (Rmax h Hin). rewrite <- !Eff in Rmax. lia. }
  intros Hnin.
  assert (R : running k' <> running k) by (intros E; apply Hnin; now rewrite <- E).
  split; [exact R |]. rewrite Hst.
  destruct (Nat.eqb_spec (running k) (running k')); [congruence |].
  unfold k4. now rewrite status_set_status, Nat.eqb_refl.
Qed.

(** lock_acquire on a held lock returns when the chain of locks and holders
    that starts at the lock ends at a holder that waits for no lock, and the
    walk may make as many calls as the chain is long. *)
Lemma lock_acquire_on_chain_returns (fuel l : nat) (k : kernel)
    (chain : list (nat * nat)) :
  status (threads k (running k)) = THREAD_RUNNING ->
  intr_context k = false ->
  holder (locks k l) <> Some (running k) ->
  value (lock_semaphore (locks k l)) = 0 ->
  ready_list k <> [] ->
  wait_chain k (Some l) chain ->
  (length chain <= fuel)%nat ->
  exists k', lock_acquire fuel l k = Ok k'.
Proof.
  intros Hs Hi Hh Hv Hr Hc Hf.
  set (p := effective_priority (threads k (running k))).
  destruct (donate_on_chain chain k (Some l) p Hc) as [D1 _].
  destruct (D1 fuel Hf) as (k2 & Hd & F & _).
  rewrite (lock_acquire_contended fuel l k Hs Hi Hh Hv). fold p.
  rewrite Hd. cbn [bind].
  destruct F as (_ & F2 & _ & F4 & _ & _ & _ & _ & _ & _ & _ & _ & F13 & F14 & _ & F16 & _).
  set (k3 := set_thread_lock k2 (running k) (Some l)).
  assert (R3 : running k3 = running k) by exact F14.
  assert (I3 : intr_context k3 = false) by (unfold k3; cbn; now rewrite F16).
  assert (RL3 : ready_list k3 = ready_list k) by exact F13.
  assert (S3 : status (threads k3 (running k3)) = THREAD_RUNNING).
  { rewrite R3. unfold k3. cbn. unfold upd. rewrite Nat.eqb_refl. cbn.
    now rewrite F4. }
  assert (V3 : value (get_sema k3 (LockSema l)) = 0).
  { change (get_sema k3 (LockSema l)) with (lock_semaphore (locks k2 l)).
    now rewrite F2. }
  unfold lock_acquire_wait.
  destruct (sema_down_cases (LockSema l) (ILockWait l) k3 S3 I3)
    as [[_ ->] | [Hne _]]; [| congruence].
  set (k4 := enqueue_waiter (LockSema l) (ILockWait l) k3).
  destruct (enqueue_waiter_fields (LockSema l) (ILockWait l) k3)
    as (E1 & E2 & _ & E4 & _ & _ & E7 & _).
  fold k4 in E1, E2, E4, E7.
  assert (Hs4 : status (threads k4 (running k4)) = THREAD_RUNNING)
    by now rewrite E1, E7.
  assert (Hi4 : intr_context k4 = false) by now rewrite E4.
  rewrite (thread_block_running k4 Hs4 Hi4).
  destruct (schedule_total (set_status k4 (running k4) THREAD_BLOCKED)) as [k' Hk'].
  - cbn [running set_status set_threads].
    rewrite status_set_status, Nat.eqb_refl. discriminate.
  - cbn [ready_list set_status set_threads]. rewrite E2, RL3. intros E. contradiction.
  - rewrite Hk'. cbn [bind]. exists k'. reflexivity.
Qed.

(** lock_acquire on a lock whose holder is ready.  Let the chain of locks
    and holders that starts at the lock end at a holder that waits for no
    lock.  Then the call returns to the scheduler: the caller has lent its
    effective priority to the holder and waits, on the waiter list of the
    lock and with the lock as the one it waits for, and the thread that runs
    next is a ready thread of greatest effective priority, the donations
    counted.  The holder now has at least the caller's priority, so the
    thread that runs has at least that priority: no thread below the caller
    runs in its place. *)
Theorem lock_acquire_lends_its_priority (fuel l h : nat) (k : kernel)
    (chain : list (nat * nat)) :
  status (threads k (running k)) = THREAD_RUNNING ->
  intr_context k = false ->
  holder (locks k l) = Some h ->
  h <> running k ->
  value (lock_semaphore (locks k l)) = 0 ->
  In h (ready_list k) ->
  wait_chain k (Some l) chain ->
  (length chain <= fuel)%nat ->
  exists k',
    lock_acquire fuel l k = Ok k' /\
    thread_lock (threads k' (running k)) = Some l /\
    In (running k) (waiters (lock_semaphore (locks k' l))) /\
    effective_priority (threads k (running k)) <= effective_priority (threads k' h) /\
    In (running k') (ready_list k) /\
    ready_list k' = list_remove (running k') (ready_list k) /\
    (forall u, In u (ready_list k) ->
       effective_priority (threads k' u)
       <= effective_priority (threads k' (running k'))) /\
    effective_priority (threads k (running k))
    <= effective_priority (threads k' (running k')) /\
    (~ In (running k) (ready_list k) ->
     running k' <> running k /\
     status (threads k' (running k)) = THREAD_BLOCKED).
Proof.
  intros Hs Hi Hh Hne Hv Hin Hc Hf.
  assert (Hh' : holder (locks k l) <> Some (running k)) by congruence.
  assert (Hr : ready_list k <> []) by (intros E; rewrite E in Hin; destruct Hin).
  destruct (lock_acquire_on_chain_returns fuel l k chain Hs Hi Hh' Hv Hr Hc Hf)
    as [k' Hk'].
  exists k'. split; [exact Hk' |].
  apply (lock_acquire_lends_outcome fuel l h k k' Hk' Hh Hv Hin).
Qed.

(** In [simple_donation], three instructions in, thread 1 (priority 40)
    asks for lock 0, which thread 0 (priority 20) holds and which is the
    whole chain: thread 0 is given priority 40 and runs. *)
Lemma lock_acquire_lends_its_priority_in_simple_donation :
  exists k',
    lock_acquire 8 0 (after 8 3 simple_donation) = Ok k' /\
    effective_priority (threads (after 8 3 simple_donation) 1%nat)
    <= effective_priority (threads k' 0%nat) /\
    In (running k') [0%nat].
Proof.
  assert (R : running (after 8 3 simple_donation) = 1%nat) by (vm_compute; reflexivity).
  assert (L : ready_list (after 8 3 simple_donation) = [0%nat])
    by (vm_compute; reflexivity).
  destruct (lock_acquire_lends_its_priority 8 0 0 (after 8 3 simple_donation)
              [(0%nat, 0%nat)])
    as (k' & Hk' & _ & _ & H4 & H5 & _).
  - vm_compute. reflexivity.
  - vm_compute. reflexivity.
  - vm_compute. reflexivity.
  - rewrite R. discriminate.
  - vm_compute. reflexivity.
  - rewrite L. left. reflexivity.
  - econstructor; [vm_compute; reflexivity |].
    assert (T : thread_lock (threads (after 8 3 simple_donation) 0%nat) = None)
      by (vm_compute; reflexivity).
    rewrite T. constructor.
  - cbn. lia.
  - exists k'. split; [exact Hk' |].
    rewrite R in H4. rewrite L in H5. split; [exact H4 | exact H5].
Defined.

(** * Locks of threads that have exited *)







(** * One holder at a time *)

(** A lock changes hands through the thread that runs, and in no other
    way.  In a kernel whose locks are in order, whatever the next step of
    the running thread is: a lock that is held keeps its holder, unless the
    holder is the running thread and releases it, and the lock is then free
    and off the lock list of that thread; a lock that is free stays free,
    unless the running thread takes it.  So a lock is never taken from its
    holder, and never given to a thread while another holds it. *)
Theorem locks_change_hands_through_the_running_thread (fuel : nat) (k k' : kernel)
    (l : nat) :
  step fuel k = Ok k' ->
  locks_inv k ->
  (forall t, holder (locks k l) = Some t ->
     holder (locks k' l) = Some t \/
     (t = running k /\ holder (locks k' l) = None /\
      ~ In l (lock_list (threads k' t)))) /\
  (holder (locks k l) = None ->
     holder (locks k' l) = None \/
     (holder (locks k' l) = Some (running k) /\
      In l (lock_list (threads k' (running k))))).
Proof.
  intros H L.
  assert (L' := step_locks_inv fuel k k' H L).
  destruct (step_locks_move fuel k k' H L) as [(F1 & _) | [M | M]].
  - split; [intros t Ht; left; now rewrite F1 | intros Hn; left; now rewrite F1].
  - destruct M as (l0 & V & Hm & _). rewrite Hm. split.
    + intros t Ht. left.
      destruct (Nat.eqb_spec l l0) as [<- | _]; [| exact Ht].
      destruct L as [L1 _]. destruct (L1 l) as [[N _] | [_ Z0]]; congruence.
    + intros Hn. destruct (Nat.eqb_spec l l0) as [<- | _]; [right | now left].
      split; [reflexivity |]. destruct L' as [_ L2]. apply L2.
      rewrite Hm, Nat.eqb_refl. reflexivity.
  - destruct M as (l0 & V & Hm & Hl). rewrite Hm. split.
    + intros t Ht. destruct (Nat.eqb_spec l l0) as [<- | _]; [right | now left].
      assert (E : t = running k) by congruence.
      split; [exact E |]. split; [reflexivity |].
      rewrite Hl, E, Nat.eqb_refl. apply remaining_locks_not_In.
    + intros Hn. left. destruct (Nat.eqb_spec l l0); [reflexivity | exact Hn].
Qed.

(** In [simple_donation], four instructions in, thread 0 holds lock 0 and
    thread 1 waits for it: the step of thread 0 releases the lock. *)
Lemma locks_change_hands_in_simple_donation :
  holder (locks (after 8 4 simple_donation) 0%nat) = Some 0%nat /\
  (holder (locks (after 8 5 simple_donation) 0%nat) = Some 0%nat \/
   (0%nat = running (after 8 4 simple_donation) /\
    holder (locks (after 8 5 simple_donation) 0%nat) = None /\
    ~ In 0%nat (lock_list (threads (after 8 5 simple_donation) 0%nat)))).
Proof.
  assert (Hh : holder (locks (after 8 4 simple_donation) 0%nat) = Some 0%nat)
    by (vm_compute; reflexivity).
  split; [exact Hh |].
  apply (locks_change_hands_through_the_running_thread 8 (after 8 4 simple_donation)
           (after 8 5 simple_donation) 0%nat).
  - vm_compute. reflexivity.
  - apply (run_locks_inv 8 4 simple_donation); [vm_compute; reflexivity |].
    apply boot_locks_inv.
  - exact Hh.
Defined.
